(** * moltbook-3d-map: the clustering core and the code around it

    A shallow embedding of [src/lib/clustering.ts] (cosine similarity,
    k-means, random projection to 3D, the topic colours and the graph of
    nodes and links), of [generateClusterLabel] and [extractTopics] from
    [src/lib/openai.ts], of the ingestion route that calls them (fetching
    the posts page by page with retries, saving them batch by batch,
    clustering and grouping them), and of the lists the 3D scene computes
    from the graph.

    JavaScript numbers are IEEE 754 binary64 values: they are modelled by
    Rocq's primitive floats, whose operations are the correctly rounded
    binary64 ones.  Counts and indices (array lengths, [k], [maxIterations],
    cluster indices) are natural numbers.  [Math.random] is modelled by a
    tape: the finite list of the values the next calls return.  The
    network, the provider and the database are functions of a state of the
    world that a call reads and replaces; a loop of the source that has no
    bound of its own takes the number of passes it may make, and is shown to
    end within it.

    Where a property is about what a call did on the way (which passes of a
    loop changed something, which projection was drawn), the function is
    given with a ghost result beside the value of the source, and the source
    function is the one that drops it. *)

From Stdlib Require Import ZArith List Bool Lia String.
From Stdlib Require Import Floats Uint63.
From stdpp Require Import base list.
Import ListNotations.

Set Warnings "-register-all".

(** ** Outcomes of a call *)

(** The exceptions of the language that the code can meet, and the rejection
    of a call to the provider. *)
Inductive error := TypeError | SyntaxError | ProviderError.

(** [Ok a]: the call returns [a].  [Throw e]: it raises [e].  [Pending]: the
    tape ran out while the call was still asking [Math.random] for a value
    (the source would go on drawing). *)
Inductive result (A : Type) :=
| Ok (a : A)
| Throw (e : error)
| Pending.
Arguments Ok {A} a.
Arguments Throw {A} e.
Arguments Pending {A}.

#[export] Instance result_ret : MRet result := fun _ a => Ok a.
#[export] Instance result_bind : MBind result := fun _ _ f m =>
  match m with
  | Ok a => f a
  | Throw e => Throw e
  | Pending => Pending
  end.

(** ** Numbers *)

(** The arithmetic the numeric kernels use.  [nundef] is what an undefined
    operand of an arithmetic operator converts to (NaN in JavaScript). *)
Class Arith (num : Type) := {
  nzero : num;
  nundef : num;
  nadd : num -> num -> num;
  nmul : num -> num -> num;
  ndiv : num -> num -> num;
  nsqrt : num -> num;
}.

(** JavaScript's numbers. *)
#[export] Instance float_arith : Arith float := {|
  nzero := 0%float;
  nundef := nan;
  nadd := PrimFloat.add;
  nmul := PrimFloat.mul;
  ndiv := PrimFloat.div;
  nsqrt := PrimFloat.sqrt;
|}.

Abbreviation vec := (list float).

(** An array length as a number. *)
Definition float_of_nat (n : nat) : float :=
  PrimFloat.of_uint63 (Uint63.of_Z (Z.of_nat n)).

Definition is_finite (x : float) : bool :=
  match Prim2SF x with
  | S754_zero _ | S754_finite _ _ _ => true
  | S754_infinity _ | S754_nan => false
  end.

(** Positive or negative zero. *)
Definition is_zero (x : float) : Prop := x = 0%float \/ x = (-0)%float.

(** Positive zero, negative zero or NaN. *)
Definition zero_or_nan (x : float) : Prop := is_zero x \/ x = nan.

(** [Math.floor] of a finite number, as an integer. *)
Definition Z_floor (x : float) : option Z :=
  match Prim2SF x with
  | S754_zero _ => Some 0%Z
  | S754_finite s m e =>
      let v := if s then Z.neg m else Z.pos m in
      Some (if (0 <=? e)%Z then (v * 2 ^ e)%Z else (v / 2 ^ (- e))%Z)
  | S754_infinity _ | S754_nan => None
  end.

(** ** The random source *)

Abbreviation tape := (list float).

(** [Math.floor(Math.random() * n)] for the drawn value [r], when it is a
    non-negative integer; [None] otherwise (negative, infinite or NaN: a
    number that is no array index). *)
Definition random_index (n : nat) (r : float) : option nat :=
  match Z_floor (r * float_of_nat n) with
  | Some z => if (z <? 0)%Z then None else Some (Z.to_nat z)
  | None => None
  end.

(** The drawn value [r] yields an index of an array of [n] elements, as every
    value of [Math.random], which lies in [0, 1), does. *)
Definition valid_draw (n : nat) (r : float) : bool :=
  match random_index n r with
  | Some i => (i <? n)%nat
  | None => false
  end.

(** The indices the values of a tape yield, in order. *)
Definition drawn_indices (n : nat) (rnd : tape) : list nat :=
  omap (random_index n) rnd.

(** ** Array callbacks with an index *)

(** [l.forEach((x, i) => ...)] updating the captured variables [s]. *)
Fixpoint forEach {A St : Type} (f : St -> A -> nat -> St) (l : list A) (i : nat) (s : St) : St :=
  match l with
  | [] => s
  | x :: l' => forEach f l' (S i) (f s x i)
  end.

(** [l.some((x, i) => ...)]. *)
Fixpoint some_i {A : Type} (p : A -> nat -> bool) (l : list A) (i : nat) : bool :=
  match l with
  | [] => false
  | x :: l' => if p x i then true else some_i p l' (S i)
  end.

(** [l.filter((x, i) => ...)]. *)
Fixpoint filter_i {A : Type} (p : A -> nat -> bool) (l : list A) (i : nat) : list A :=
  match l with
  | [] => []
  | x :: l' => if p x i then x :: filter_i p l' (S i) else filter_i p l' (S i)
  end.

(** [l.map((x, i) => ...)]. *)
Fixpoint map_i {A B : Type} (f : A -> nat -> B) (l : list A) (i : nat) : list B :=
  match l with
  | [] => []
  | x :: l' => f x i :: map_i f l' (S i)
  end.

(** ** cosineSimilarity *)

Section Kernels.
Context {num : Type} `{Arith num}.

(** The loop of [cosineSimilarity]; it runs under the guard
    [a.length === b.length], so both arrays end together. *)
Fixpoint cosine_loop (a b : list num) (dotProduct normA normB : num) : num * num * num :=
  match a, b with
  | x :: a', y :: b' =>
      cosine_loop a' b'
        (nadd dotProduct (nmul x y)) (nadd normA (nmul x x)) (nadd normB (nmul y y))
  | _, _ => (dotProduct, normA, normB)
  end.

Definition cosineSimilarity (a b : list num) : num :=
  if negb (length a =? length b)%nat then nzero
  else
    let '(dotProduct, normA, normB) := cosine_loop a b nzero nzero nzero in
    ndiv dotProduct (nmul (nsqrt normA) (nsqrt normB)).

(** [emb.reduce((sum, val, i) => sum + val * p[i], sum0)]: [p[i]] is
    undefined once [i] passes the end of [p]. *)
Fixpoint reduce_dot (emb p : list num) (sum : num) : num :=
  match emb with
  | [] => sum
  | val :: emb' =>
      match p with
      | w :: p' => reduce_dot emb' p' (nadd sum (nmul val w))
      | [] => reduce_dot emb' [] (nadd sum (nmul val nundef))
      end
  end.

(** One output coordinate of [embedTo3D]: the reduction against one projection
    vector, times the scale (50 in the source). *)
Definition coordinate (scale : num) (emb p : list num) : num :=
  nmul (reduce_dot emb p nzero) scale.

End Kernels.

(** ** kMeansClustering *)

(** The callback of [embeddings.map]: the index of the centroid nearest to
    [emb] in cosine distance, the first one among equals, and 0 when no
    distance is below [Infinity]. *)
Definition nearest_centroid (centroids : list vec) (emb : vec) : nat :=
  snd (forEach
         (fun '(minDist, nearest) cent i =>
            let sim := cosineSimilarity emb cent in
            let dist := (1 - sim)%float in
            if (dist <? minDist)%float then (dist, i) else (minDist, nearest))
         centroids 0 (infinity, 0)).

Definition assign_clusters (embeddings centroids : list vec) : list nat :=
  map (nearest_centroid centroids) embeddings.

(** [newClusters.some((c, i) => c !== clusters[i])]. *)
Definition assignment_changed (newClusters clusters : list nat) : bool :=
  some_i (fun c i =>
            match clusters !! i with
            | Some c' => negb (c =? c')%nat
            | None => true
            end) newClusters 0.

(** [embeddings.filter((_, i) => clusters[i] === ci)]. *)
Definition cluster_points (embeddings : list vec) (clusters : list nat) (ci : nat) : list vec :=
  filter_i (fun _ i =>
              match clusters !! i with
              | Some c => (c =? ci)%nat
              | None => false
              end) embeddings 0.

(** [point.forEach((val, i) => { newCentroid[i] += val })]: past the end of
    [newCentroid] the read is undefined, the sum NaN, and the write extends
    the array by one element. *)
Fixpoint add_point (newCentroid point : vec) : vec :=
  match point with
  | [] => newCentroid
  | val :: point' =>
      match newCentroid with
      | c :: rest => (c + val)%float :: add_point rest point'
      | [] => (nan + val)%float :: add_point [] point'
      end
  end.

(** [clusterPoints.forEach((point) => ...)] over [new Array(dim).fill(0)]. *)
Definition sum_points (dim : nat) (clusterPoints : list vec) : vec :=
  fold_left add_point clusterPoints (repeat 0%float dim).

(** The callback of [centroids.map((_, ci) => ...)]; [old] is [centroids[ci]]. *)
Definition update_centroid (embeddings : list vec) (clusters : list nat) (dim : nat)
    (old : vec) (ci : nat) : vec :=
  let clusterPoints := cluster_points embeddings clusters ci in
  if (length clusterPoints =? 0)%nat then old
  else map (fun val => (val / float_of_nat (length clusterPoints))%float)
           (sum_points dim clusterPoints).

Definition update_centroids (embeddings : list vec) (clusters : list nat) (dim : nat)
    (centroids : list vec) : list vec :=
  map_i (update_centroid embeddings clusters dim) centroids 0.

(** The [for (iter < maxIterations)] loop.  Besides the final [clusters] and
    [centroids] it returns the value [changed] took in each pass, in order:
    a ghost trace, one entry per pass run. *)
Fixpoint kMeans_loop (embeddings : list vec) (dim : nat) (maxIterations : nat)
    (clusters : list nat) (centroids : list vec) : list bool * list nat * list vec :=
  match maxIterations with
  | 0 => ([], clusters, centroids)
  | S remaining =>
      let newClusters := assign_clusters embeddings centroids in
      let changed := assignment_changed newClusters clusters in
      if changed then
        let '(trace, clusters', centroids') :=
          kMeans_loop embeddings dim remaining newClusters
            (update_centroids embeddings newClusters dim centroids) in
        (true :: trace, clusters', centroids')
      else ([false], newClusters, centroids)
  end.

(** The trace of a loop bounded by [bound]: every pass changed the assignment,
    or every pass but the last did and no pass followed the last. *)
Definition trace_shape (bound : nat) (trace : list bool) : Prop :=
  trace = repeat true bound \/
  exists j, j < bound /\ trace = repeat true j ++ [false].

(** The [do { idx = Math.floor(Math.random() * n) } while (usedIndices.has(idx))]
    loop.  A drawn number that is no array index is in no set of indices: the
    loop leaves with it and the read [embeddings[idx]] that follows is
    undefined, so spreading it raises a TypeError. *)
Fixpoint draw_fresh (n : nat) (usedIndices : list nat) (rnd : tape) : result (nat * tape) :=
  match rnd with
  | [] => Pending
  | r :: rnd' =>
      match random_index n r with
      | Some idx =>
          if existsb (Nat.eqb idx) usedIndices then draw_fresh n usedIndices rnd'
          else Ok (idx, rnd')
      | None => Throw TypeError
      end
  end.

(** The initialisation loop, [count] iterations left.  [usedIndices] is the
    set in insertion order. *)
Fixpoint init_centroids (embeddings : list vec) (count : nat)
    (usedIndices : list nat) (centroids : list vec) (rnd : tape)
    : result (list vec * list nat * tape) :=
  match count with
  | 0 => Ok (centroids, usedIndices, rnd)
  | S count' =>
      '(idx, rnd') ← draw_fresh (length embeddings) usedIndices rnd;
      match embeddings !! idx with
      | Some e => init_centroids embeddings count' (usedIndices ++ [idx]) (centroids ++ [e]) rnd'
      | None => Throw TypeError
      end
  end.

Record KMeans := { clusters : list nat; centroids : list vec }.

(** [embeddings[0]?.length || 0]. *)
Definition dimension (embeddings : list vec) : nat :=
  match embeddings with
  | [] => 0
  | e :: _ => length e
  end.

(** [kMeansClustering] with the ghost trace of its main loop. *)
Definition kMeans_run (embeddings : list vec) (k maxIterations : nat) (rnd : tape)
    : result (list bool * KMeans * tape) :=
  let n := length embeddings in
  let dim := dimension embeddings in
  if ((n =? 0)%nat || (dim =? 0)%nat)%bool then
    Ok ([], {| clusters := []; centroids := [] |}, rnd)
  else
    '(centroids0, _, rnd') ← init_centroids embeddings (Nat.min k n) [] [] rnd;
    let '(trace, clusters', centroids') :=
      kMeans_loop embeddings dim maxIterations (repeat 0 n) centroids0 in
    Ok (trace, {| clusters := clusters'; centroids := centroids' |}, rnd').

Definition kMeansClustering (embeddings : list vec) (k maxIterations : nat) (rnd : tape)
    : result (KMeans * tape) :=
  '(_, res, rnd') ← kMeans_run embeddings k maxIterations rnd;
  Ok (res, rnd').

(** The default value of the parameter [maxIterations]. *)
Definition default_maxIterations : nat := 100.

(** ** embedTo3D *)

Record Point3 := { px : float; py : float; pz : float }.

(** [(Math.random() - 0.5) * 2] for the drawn value [r]. *)
Definition projection_component (r : float) : float := ((r - 0.5) * 2)%float.

(** [Array.from({ length: dim }, () => (Math.random() - 0.5) * 2)]. *)
Fixpoint random_vector (dim : nat) (rnd : tape) : result (vec * tape) :=
  match dim with
  | 0 => Ok ([], rnd)
  | S dim' =>
      match rnd with
      | [] => Pending
      | r :: rnd' =>
          '(rest, rnd'') ← random_vector dim' rnd';
          Ok (projection_component r :: rest, rnd'')
      end
  end.

(** The array [projection] of three vectors. *)
Record Basis := { row0 : vec; row1 : vec; row2 : vec }.

Definition draw_projection (dim : nat) (rnd : tape) : result (Basis * tape) :=
  '(p0, rnd0) ← random_vector dim rnd;
  '(p1, rnd1) ← random_vector dim rnd0;
  '(p2, rnd2) ← random_vector dim rnd1;
  Ok ({| row0 := p0; row1 := p1; row2 := p2 |}, rnd2).

(** The callback of [embeddings.map] in [embedTo3D]. *)
Definition project_point (projection : Basis) (emb : vec) : Point3 :=
  {| px := coordinate 50%float emb (row0 projection);
     py := coordinate 50%float emb (row1 projection);
     pz := coordinate 50%float emb (row2 projection) |}.

(** [embedTo3D], which also reports the projection it drew (a ghost result;
    [None] when it drew none). *)
Definition embedTo3D_run (embeddings : list vec) (rnd : tape)
    : result (option Basis * list Point3 * tape) :=
  match embeddings with
  | [] => Ok (None, [], rnd)
  | e0 :: _ =>
      let dim := length e0 in
      '(projection, rnd') ← draw_projection dim rnd;
      Ok (Some projection, map (project_point projection) embeddings, rnd')
  end.

Definition embedTo3D (embeddings : list vec) (rnd : tape) : result (list Point3 * tape) :=
  '(_, positions, rnd') ← embedTo3D_run embeddings rnd;
  Ok (positions, rnd').

(** ** The clustering step of the ingestion route *)

(** [Math.min(Math.max(Math.ceil(count / 20), 5), 50)]. *)
Definition numClusters (count : nat) : nat :=
  Nat.min (Nat.max ((count + 19) / 20) 5) 50.

(** What step 3 of [ingestDataFast] computes before it writes to the database.
    [itemBasis] and [centroidBasis] are ghost fields: the projections the two
    calls of [embedTo3D] drew. *)
Record Layout := {
  layout_clusters : list nat;
  layout_centroids : list vec;
  positions : list Point3;
  centroidPositions : list Point3;
  itemBasis : option Basis;
  centroidBasis : option Basis;
}.

Definition cluster_and_place (allEmbeddings : list vec) (rnd : tape) : result (Layout * tape) :=
  '(km, rnd1) ← kMeansClustering allEmbeddings (numClusters (length allEmbeddings))
                  default_maxIterations rnd;
  '(basis1, positions1, rnd2) ← embedTo3D_run allEmbeddings rnd1;
  '(basis2, positions2, rnd3) ← embedTo3D_run (centroids km) rnd2;
  Ok ({| layout_clusters := clusters km;
         layout_centroids := centroids km;
         positions := positions1;
         centroidPositions := positions2;
         itemBasis := basis1;
         centroidBasis := basis2 |}, rnd3).

(** The projection built from [3 * dim] drawn values, in the order
    [draw_projection] consumes them. *)
Definition basis_of_draws (dim : nat) (draws : list float) : Basis :=
  {| row0 := map projection_component (take dim draws);
     row1 := map projection_component (take dim (drop dim draws));
     row2 := map projection_component (take dim (drop (2 * dim) draws)) |}.

(** Every component of the projection is a finite number. *)
Definition finite_basis (b : Basis) : Prop :=
  Forall (fun w => is_finite w = true) (row0 b) /\
  Forall (fun w => is_finite w = true) (row1 b) /\
  Forall (fun w => is_finite w = true) (row2 b).

(** ** generateClusterLabel *)

(** The values [JSON.parse] returns, and [undefined]. *)
Inductive jsval :=
| JUndefined
| JNull
| JBool (b : bool)
| JNum (x : float)
| JStr (s : string)
| JArr (items : list jsval)
| JObj (props : list (string * jsval)).

(** The left operand of [||] decides when it is truthy. *)
Definition truthy (v : jsval) : bool :=
  match v with
  | JUndefined | JNull => false
  | JBool b => b
  | JNum x => negb ((x =? 0)%float || negb (x =? x)%float)
  | JStr s => negb (String.eqb s "")
  | JArr _ | JObj _ => true
  end.

Definition js_or (v default : jsval) : jsval := if truthy v then v else default.

Fixpoint own_property (key : string) (props : list (string * jsval)) : option jsval :=
  match props with
  | [] => None
  | (k, v) :: props' => if String.eqb k key then Some v else own_property key props'
  end.

(** The value of the property [key] of an object with the properties [props]. *)
Definition field (key : string) (props : list (string * jsval)) : jsval :=
  default JUndefined (own_property key props).

(** [v.key] for a key that no prototype of a parsed value defines. *)
Definition get_property (v : jsval) (key : string) : result jsval :=
  match v with
  | JUndefined | JNull => Throw TypeError
  | JObj props => Ok (field key props)
  | JBool _ | JNum _ | JStr _ | JArr _ => Ok JUndefined
  end.

(** [response.choices], each choice by its [message.content]
    ([string | null]). *)
Record ChatCompletion := { choices : list (option string) }.

Record Label := { label_name : jsval; label_description : jsval }.

Definition fallback_label : Label :=
  {| label_name := JStr "Uncategorized"; label_description := JStr "" |}.

Definition newline : string := String (Ascii.ascii_of_nat 10) EmptyString.

(** [postContents.slice(0, 10).join("\n---\n")]. *)
Definition sample_posts (postContents : list string) : string :=
  String.concat (newline ++ "---" ++ newline) (take 10 postContents).

Section Labeling.

(** [JSON.parse]: [None] when it raises a SyntaxError. *)
Variable JSON_parse : string -> option jsval.

(** [openai.chat.completions.create] as a function of the user message: the
    completion it resolves to, or the error it rejects with. *)
Variable create_completion : string -> result ChatCompletion.

(** The body of the [try] block. *)
Definition parse_label (response : ChatCompletion) : result Label :=
  match choices response with
  | [] => Throw TypeError
  | content :: _ =>
      let text :=
        match content with
        | Some s => if String.eqb s "" then "{}"%string else s
        | None => "{}"%string
        end in
      match JSON_parse text with
      | None => Throw SyntaxError
      | Some parsed =>
          name ← get_property parsed "name";
          description ← get_property parsed "description";
          Ok {| label_name := js_or name (JStr "Uncategorized");
                label_description := js_or description (JStr "") |}
      end
  end.

(** [try { ... } catch { return { name: "Uncategorized", description: "" } }]. *)
Definition label_of_response (response : ChatCompletion) : Label :=
  match parse_label response with
  | Ok label => label
  | Throw _ | Pending => fallback_label
  end.

Definition generateClusterLabel (postContents : list string) : result Label :=
  let samplePosts := sample_posts postContents in
  response ← create_completion samplePosts;
  Ok (label_of_response response).

End Labeling.

(** [response.choices[0].message.content || "{}"], the text that
    [generateClusterLabel] and [extractTopics] hand to [JSON.parse]; [None]
    when the response has no choice and the read raises. *)
Definition first_text (response : ChatCompletion) : option string :=
  match choices response with
  | [] => None
  | content :: _ =>
      Some match content with
           | Some s => if String.eqb s "" then "{}"%string else s
           | None => "{}"%string
           end
  end.

(** A parser that knows two texts, for examples. *)
Definition toy_parse (s : string) : option jsval :=
  if String.eqb s "{}" then Some (JObj [])
  else if String.eqb s "null" then Some JNull
  else None.

Definition double_quote : string := String (Ascii.ascii_of_nat 34) EmptyString.

(** The text [{ "description": "about cats" }], an object without a name. *)
Definition description_only : string :=
  "{" ++ double_quote ++ "description" ++ double_quote ++ ":"
      ++ double_quote ++ "about cats" ++ double_quote ++ "}".

(** The text [{ "name": 7 }], an object whose name is no string. *)
Definition numeric_name : string :=
  "{" ++ double_quote ++ "name" ++ double_quote ++ ":7}".

(** The text [{ "topics": ["ai"] }]. *)
Definition one_topic : string :=
  "{" ++ double_quote ++ "topics" ++ double_quote ++ ":["
      ++ double_quote ++ "ai" ++ double_quote ++ "]}".

(** A parser that knows these texts and those of [toy_parse], with the values
    [JSON.parse] gives for them. *)
Definition sample_parse (s : string) : option jsval :=
  if String.eqb s description_only then Some (JObj [("description"%string, JStr "about cats")])
  else if String.eqb s numeric_name then Some (JObj [("name"%string, JNum 7)])
  else if String.eqb s one_topic then Some (JObj [("topics"%string, JArr [JStr "ai"])])
  else toy_parse s.

(** ** kMeansClustering over a heap of arrays

    Arrays are objects: [embeddings] is a reference to an array of references
    to arrays of numbers, and a write to an array is seen through every
    reference to it.  The heap is the list of the objects allocated so far;
    a reference is an index into it. *)

Abbreviation loc := nat.

Inductive object :=
| NumArray (elems : vec)
| RefArray (elems : list loc).

Abbreviation heap := (list object).

(** A computation over the heap: its outcome and the heap it leaves. *)
Definition M (A : Type) : Type := heap -> result A * heap.

#[export] Instance M_ret : MRet M := fun _ a h => (Ok a, h).
#[export] Instance M_bind : MBind M := fun _ _ f m h =>
  match m h with
  | (Ok a, h') => f a h'
  | (Throw e, h') => (Throw e, h')
  | (Pending, h') => (Pending, h')
  end.

Definition throw {A : Type} (e : error) : M A := fun h => (Throw e, h).
Definition pending {A : Type} : M A := fun h => (Pending, h).

(** A new array. *)
Definition alloc (o : object) : M loc := fun h => (Ok (length h), h ++ [o]).

Definition read_nums (l : loc) : M vec := fun h =>
  match h !! l with
  | Some (NumArray v) => (Ok v, h)
  | _ => (Throw TypeError, h)
  end.

Definition read_refs (l : loc) : M (list loc) := fun h =>
  match h !! l with
  | Some (RefArray refs) => (Ok refs, h)
  | _ => (Throw TypeError, h)
  end.

(** The array at [l] becomes [o]. *)
Definition store (l : loc) (o : object) : M unit := fun h => (Ok tt, <[l := o]> h).

(** [arr.push(x)] on an array of references. *)
Definition push_ref (arr x : loc) : M unit :=
  refs ← read_refs arr;
  store arr (RefArray (refs ++ [x])).

(** [arr[i] += val]; at [i = arr.length] the array grows by the element
    [undefined + val]. *)
Definition add_at (arr : loc) (i : nat) (val : float) : M unit :=
  v ← read_nums arr;
  match v !! i with
  | Some c => store arr (NumArray (<[i := (c + val)%float]> v))
  | None => store arr (NumArray (v ++ [(nan + val)%float]))
  end.

Fixpoint forEachM {A : Type} (f : A -> nat -> M unit) (l : list A) (i : nat) : M unit :=
  match l with
  | [] => mret tt
  | x :: l' => _ ← f x i; forEachM f l' (S i)
  end.

Fixpoint mapM_i {A B : Type} (f : A -> nat -> M B) (l : list A) (i : nat) : M (list B) :=
  match l with
  | [] => mret []
  | x :: l' => y ← f x i; ys ← mapM_i f l' (S i); mret (y :: ys)
  end.

(** The vectors an array of references holds. *)
Definition read_vectors (arr : loc) : M (list vec) :=
  refs ← read_refs arr;
  mapM_i (fun r _ => read_nums r) refs 0.

(** The assignment pass only reads: it is the pure pass on what the two
    arrays hold. *)
Definition assign_clusters_h (embeddings centroids : loc) : M (list nat) :=
  es ← read_vectors embeddings;
  cs ← read_vectors centroids;
  mret (assign_clusters es cs).

Definition update_centroid_h (embeddings : loc) (clusters : list nat) (dim : nat)
    (old : loc) (ci : nat) : M loc :=
  es ← read_refs embeddings;
  clusterPoints ← alloc (RefArray (filter_i (fun _ i =>
                                     match clusters !! i with
                                     | Some c => (c =? ci)%nat
                                     | None => false
                                     end) es 0));
  points ← read_refs clusterPoints;
  if (length points =? 0)%nat then mret old
  else
    newCentroid ← alloc (NumArray (repeat 0%float dim));
    _ ← forEachM (fun point _ =>
                    vals ← read_nums point;
                    forEachM (fun val i => add_at newCentroid i val) vals 0)
                 points 0;
    sums ← read_nums newCentroid;
    alloc (NumArray (map (fun val => (val / float_of_nat (length points))%float) sums)).

Definition update_centroids_h (embeddings : loc) (clusters : list nat) (dim : nat)
    (centroids : loc) : M loc :=
  olds ← read_refs centroids;
  news ← mapM_i (update_centroid_h embeddings clusters dim) olds 0;
  alloc (RefArray news).

Fixpoint kMeans_loop_h (embeddings : loc) (dim : nat) (maxIterations : nat)
    (clusters : list nat) (centroids : loc) : M (list nat * loc) :=
  match maxIterations with
  | 0 => mret (clusters, centroids)
  | S remaining =>
      newClusters ← assign_clusters_h embeddings centroids;
      if assignment_changed newClusters clusters then
        centroids' ← update_centroids_h embeddings newClusters dim centroids;
        kMeans_loop_h embeddings dim remaining newClusters centroids'
      else mret (newClusters, centroids)
  end.

Fixpoint init_centroids_h (embeddings : loc) (n count : nat) (usedIndices : list nat)
    (centroids : loc) (rnd : tape) : M tape :=
  match count with
  | 0 => mret rnd
  | S count' =>
      match draw_fresh n usedIndices rnd with
      | Ok (idx, rnd') =>
          es ← read_refs embeddings;
          match es !! idx with
          | Some e =>
              v ← read_nums e;
              copy ← alloc (NumArray v);
              _ ← push_ref centroids copy;
              init_centroids_h embeddings n count' (usedIndices ++ [idx]) centroids rnd'
          | None => throw TypeError
          end
      | Throw e => throw e
      | Pending => pending
      end
  end.

Record KMeansRefs := { clusters_h : list nat; centroids_h : loc }.

Definition kMeansClustering_h (embeddings : loc) (k maxIterations : nat) (rnd : tape)
    : M (KMeansRefs * tape) :=
  es ← read_refs embeddings;
  let n := length es in
  dim ← match es with
        | [] => mret 0
        | e0 :: _ => v ← read_nums e0; mret (length v)
        end;
  if ((n =? 0)%nat || (dim =? 0)%nat)%bool then
    empty ← alloc (RefArray []);
    mret ({| clusters_h := []; centroids_h := empty |}, rnd)
  else
    centroids0 ← alloc (RefArray []);
    rnd' ← init_centroids_h embeddings n (Nat.min k n) [] centroids0 rnd;
    '(clusters', centroids') ←
      kMeans_loop_h embeddings dim maxIterations (repeat 0 n) centroids0;
    mret ({| clusters_h := clusters'; centroids_h := centroids' |}, rnd').

(** [frame h0 m Q]: run from any heap that extends [h0], the computation [m]
    leaves a heap that extends [h0], and a value it returns satisfies [Q]. *)
Definition frame (h0 : heap) {A : Type} (m : M A) (Q : A -> Prop) : Prop :=
  forall h, h0 `prefix_of` h ->
    h0 `prefix_of` (m h).2 /\ forall a, (m h).1 = Ok a -> Q a.

(** In the heap [h] the array at [arr] holds references to the vectors [vs]. *)
Definition holds_vectors (h : heap) (arr : loc) (vs : list vec) : Prop :=
  exists refs,
    h !! arr = Some (RefArray refs) /\
    Forall2 (fun r v => h !! r = Some (NumArray v)) refs vs.

(** The vectors of [embeddings], laid out in an empty heap: vector [i] at
    address [i], the array of their references after them. *)
Definition heap_of (embeddings : list vec) : heap * loc :=
  (map NumArray embeddings ++ [RefArray (seq 0 (length embeddings))],
   length embeddings).

(** ** Inputs for the examples *)

Definition four_vectors : list vec :=
  [[1; 0]; [0.75; 0.25]; [0; 1]; [0.25; 0.75]]%float.

Definition seven_draws : tape :=
  [0.125; 0.25; 0.5; 0.75; 0.625; 0.875; 0.375]%float.

Definition tape_with_repeat : tape :=
  [0.125; 0.125; 0.625; 0.25; 0.5; 0.75; 0.375]%float.

Definition long_tape : tape := tape_with_repeat ++ seven_draws ++ seven_draws.

(** The values 0.1, 0.7 and 0.3 as [Math.random] returns them: the nearest
    binary64 numbers. *)
Definition decimal_draws : tape :=
  [0x1.999999999999ap-4; 0x1.6666666666666p-1; 0x1.3333333333333p-2]%float.

(** ** getTopicColor *)

Definition TOPIC_COLORS : list string :=
  ["#ef4444"; "#f97316"; "#eab308"; "#22c55e"; "#14b8a6";
   "#3b82f6"; "#8b5cf6"; "#ec4899"; "#6366f1"; "#06b6d4"]%string.

(** [TOPIC_COLORS[index % TOPIC_COLORS.length]] for an integer [index].  The
    remainder [%] has the sign of [index]; a negative number names no element
    of an array, and the read is undefined ([None]). *)
Definition getTopicColor (index : Z) : option string :=
  let r := Z.rem index (Z.of_nat (length TOPIC_COLORS)) in
  if (r <? 0)%Z then None else TOPIC_COLORS !! Z.to_nat r.

(** ** buildGraphData *)

(** A string that the code measures or cuts: the list of its UTF-16 code
    units, which is what [length] counts and [slice] cuts. *)
Abbreviation code_units := (list N).

(** The code units of a text of ASCII characters. *)
Definition code_units_of (s : string) : code_units :=
  map Ascii.N_of_ascii (list_ascii_of_string s).

Record TopicRef := {
  ref_id : string;
  ref_name : string;
  ref_color : string;
  ref_relevance : float;
}.

(** An optional field is [None] when it is undefined or null. *)
Record Post := {
  post_id : string;
  post_externalId : option string;
  post_content : code_units;
  post_title : option code_units;
  post_author : option string;
  post_authorId : option string;
  post_url : option string;
  post_createdAt : string;
  post_posX : option float;
  post_posY : option float;
  post_posZ : option float;
  post_topics : option (list TopicRef);
}.

Record Topic := {
  topic_id : string;
  topic_name : code_units;
  topic_description : option string;
  topic_color : string;
  topic_posX : option float;
  topic_posY : option float;
  topic_posZ : option float;
  topic_postCount : float;
}.

Inductive NodeType := TopicNode | PostNode.

Record GraphNode := {
  node_id : string;
  node_type : NodeType;
  node_label : code_units;
  node_color : string;
  node_size : float;
  node_x : float;
  node_y : float;
  node_z : float;
  node_data : Topic + Post;
}.

Record GraphLink := {
  link_source : string;
  link_target : string;
  link_strength : float;
}.

Record GraphData := { nodes : list GraphNode; links : list GraphLink }.

Inductive Mode := ModeTopics | ModePosts | ModeAll.

(** The default value of the parameter [mode]. *)
Definition default_mode : Mode := ModeTopics.

(** [Math.max(a, b)]: NaN when an argument is NaN, and positive zero is
    larger than negative zero. *)
Definition Math_max (a b : float) : float :=
  if (PrimFloat.is_nan a || PrimFloat.is_nan b)%bool then nan
  else if (a <? b)%float then b
  else if (b <? a)%float then a
  else if PrimFloat.get_sign a then b else a.

(** [stored ?? (Math.random() - 0.5) * spread]: the random source is asked
    only when no position is stored. *)
Definition stored_or_random (stored : option float) (spread : float) (rnd : tape)
    : result (float * tape) :=
  match stored with
  | Some v => Ok (v, rnd)
  | None =>
      match rnd with
      | [] => Pending
      | r :: rnd' => Ok (((r - 0.5) * spread)%float, rnd')
      end
  end.

(** [title || content.slice(0, 50) + "..."]: a title is falsy when it is
    missing or empty, and [slice(0, 50)] keeps the first 50 code units. *)
Definition title_or_excerpt (title : option code_units) (content : code_units) : code_units :=
  match title with
  | Some t =>
      if (length t =? 0)%nat then take 50 content ++ code_units_of "..." else t
  | None => take 50 content ++ code_units_of "..."
  end.

(** [post.topics?.[0]?.color || "#94a3b8"]. *)
Definition post_color (topics : option (list TopicRef)) : string :=
  match topics with
  | Some (primaryTopic :: _) =>
      if String.eqb (ref_color primaryTopic) "" then "#94a3b8"%string
      else ref_color primaryTopic
  | Some [] | None => "#94a3b8"%string
  end.

Section Graph.

(** [Math.log]. *)
Variable Math_log : float -> float.

(** The node pushed for a topic; [x], [y] and [z] are evaluated in this
    order. *)
Definition topic_node (topic : Topic) (rnd : tape) : result (GraphNode * tape) :=
  '(x, rnd1) ← stored_or_random (topic_posX topic) 100 rnd;
  '(y, rnd2) ← stored_or_random (topic_posY topic) 100 rnd1;
  '(z, rnd3) ← stored_or_random (topic_posZ topic) 100 rnd2;
  Ok ({| node_id := topic_id topic;
         node_type := TopicNode;
         node_label := topic_name topic;
         node_color := topic_color topic;
         node_size := Math_max 1 (Math_log (topic_postCount topic + 1) * 2);
         node_x := x; node_y := y; node_z := z;
         node_data := inl topic |}, rnd3).

Definition post_node (post : Post) (rnd : tape) : result (GraphNode * tape) :=
  '(x, rnd1) ← stored_or_random (post_posX post) 50 rnd;
  '(y, rnd2) ← stored_or_random (post_posY post) 50 rnd1;
  '(z, rnd3) ← stored_or_random (post_posZ post) 50 rnd2;
  Ok ({| node_id := post_id post;
         node_type := PostNode;
         node_label := title_or_excerpt (post_title post) (post_content post);
         node_color := post_color (post_topics post);
         node_size := 0.5;
         node_x := x; node_y := y; node_z := z;
         node_data := inr post |}, rnd3).

(** [topics.forEach((topic) => { nodes.push(...) })]. *)
Fixpoint push_topic_nodes (topics : list Topic) (nodes : list GraphNode) (rnd : tape)
    : result (list GraphNode * tape) :=
  match topics with
  | [] => Ok (nodes, rnd)
  | topic :: topics' =>
      '(node, rnd') ← topic_node topic rnd;
      push_topic_nodes topics' (nodes ++ [node]) rnd'
  end.

(** [post.topics.forEach((topic) => { links.push(...) })]. *)
Definition push_links (post : Post) (topics : list TopicRef) (links : list GraphLink)
    : list GraphLink :=
  fold_left (fun links topic =>
               links ++ [{| link_source := post_id post;
                            link_target := ref_id topic;
                            link_strength := ref_relevance topic |}])
            topics links.

(** [posts.forEach((post) => { nodes.push(...); if (mode === "all" &&
    post.topics) ... })]. *)
Fixpoint push_post_nodes (mode : Mode) (posts : list Post)
    (nodes : list GraphNode) (links : list GraphLink) (rnd : tape)
    : result (list GraphNode * list GraphLink * tape) :=
  match posts with
  | [] => Ok (nodes, links, rnd)
  | post :: posts' =>
      '(node, rnd') ← post_node post rnd;
      let links' :=
        match mode, post_topics post with
        | ModeAll, Some topics => push_links post topics links
        | _, _ => links
        end in
      push_post_nodes mode posts' (nodes ++ [node]) links' rnd'
  end.

Definition buildGraphData (topics : list Topic) (posts : list Post) (mode : Mode) (rnd : tape)
    : result (GraphData * tape) :=
  '(nodes1, rnd1) ←
    match mode with
    | ModeTopics | ModeAll => push_topic_nodes topics [] rnd
    | ModePosts => Ok ([], rnd)
    end;
  '(nodes2, links2, rnd2) ←
    match mode with
    | ModePosts | ModeAll => push_post_nodes mode posts nodes1 [] rnd1
    | ModeTopics => Ok (nodes1, [], rnd1)
    end;
  Ok ({| nodes := nodes2; links := links2 |}, rnd2).

End Graph.

(** The number of positions a record lacks. *)
Definition missing (stored : list (option float)) : nat :=
  length (List.filter (fun p => match p with None => true | Some _ => false end) stored).

(** The coordinates a topic, and a post, lack. *)
Definition topic_missing (topic : Topic) : nat :=
  missing [topic_posX topic; topic_posY topic; topic_posZ topic].

Definition post_missing (post : Post) : nat :=
  missing [post_posX post; post_posY post; post_posZ post].

(** A stored coordinate is the coordinate [v] of the node. *)
Definition keeps_stored (stored : option float) (v : float) : Prop :=
  forall s, stored = Some s -> v = s.

(** [n] is the node of [topic], but for its size. *)
Definition topic_node_of (topic : Topic) (n : GraphNode) : Prop :=
  node_data n = inl topic /\ node_id n = topic_id topic /\ node_type n = TopicNode /\
  node_label n = topic_name topic /\ node_color n = topic_color topic /\
  keeps_stored (topic_posX topic) (node_x n) /\
  keeps_stored (topic_posY topic) (node_y n) /\
  keeps_stored (topic_posZ topic) (node_z n).

(** [n] is the node of [post]. *)
Definition post_node_of (post : Post) (n : GraphNode) : Prop :=
  node_data n = inr post /\ node_id n = post_id post /\ node_type n = PostNode /\
  node_label n = title_or_excerpt (post_title post) (post_content post) /\
  node_color n = post_color (post_topics post) /\
  node_size n = 0.5%float /\
  keeps_stored (post_posX post) (node_x n) /\
  keeps_stored (post_posY post) (node_y n) /\
  keeps_stored (post_posZ post) (node_z n).

(** The modes that show the topics, and those that show the posts. *)
Definition uses_topics (mode : Mode) : bool :=
  match mode with ModeTopics | ModeAll => true | ModePosts => false end.

Definition uses_posts (mode : Mode) : bool :=
  match mode with ModePosts | ModeAll => true | ModeTopics => false end.

(** The number of values [buildGraphData] asks the random source for. *)
Definition draws_needed (topics : list Topic) (posts : list Post) (mode : Mode) : nat :=
  (if uses_topics mode then list_sum (map topic_missing topics) else 0) +
  (if uses_posts mode then list_sum (map post_missing posts) else 0).

(** The links from a post to its topics. *)
Definition links_of_post (post : Post) : list GraphLink :=
  map (fun topic => {| link_source := post_id post;
                       link_target := ref_id topic;
                       link_strength := ref_relevance topic |})
      (default [] (post_topics post)).

(** The id, type, label and colour of a node are those of the record it
    carries. *)
Definition node_matches_record (n : GraphNode) : Prop :=
  match node_data n with
  | inl topic =>
      node_type n = TopicNode /\ node_id n = topic_id topic /\
      node_label n = topic_name topic /\ node_color n = topic_color topic
  | inr post =>
      node_type n = PostNode /\ node_id n = post_id post /\
      node_label n = title_or_excerpt (post_title post) (post_content post) /\
      node_color n = post_color (post_topics post)
  end.

(** A node lies at the stored coordinates of its record. *)
Definition node_at_stored_position (n : GraphNode) : Prop :=
  match node_data n with
  | inl topic =>
      keeps_stored (topic_posX topic) (node_x n) /\
      keeps_stored (topic_posY topic) (node_y n) /\
      keeps_stored (topic_posZ topic) (node_z n)
  | inr post =>
      keeps_stored (post_posX post) (node_x n) /\
      keeps_stored (post_posY post) (node_y n) /\
      keeps_stored (post_posZ post) (node_z n)
  end.

(** ** The scene of the map *)

Definition is_topic_node (n : GraphNode) : bool :=
  match node_type n with TopicNode => true | PostNode => false end.

Definition is_post_node (n : GraphNode) : bool :=
  match node_type n with PostNode => true | TopicNode => false end.

(** [(n.data as Post).topics?.some((t) => t.id === selectedTopicId)]; the
    data of a topic has no [topics]. *)
Definition carries_topic (selectedTopicId : string) (n : GraphNode) : bool :=
  match node_data n with
  | inr post =>
      match post_topics post with
      | Some topics => existsb (fun t => String.eqb (ref_id t) selectedTopicId) topics
      | None => false
      end
  | inl _ => false
  end.

(** The three lists [Scene] computes; [selectedTopicId] is [None] when it is
    undefined. *)
Definition topicNodes (data : GraphData) : list GraphNode :=
  List.filter is_topic_node (nodes data).

Definition postNodes (data : GraphData) : list GraphNode :=
  List.filter is_post_node (nodes data).

Definition visiblePosts (data : GraphData) (selectedTopicId : option string) : list GraphNode :=
  match selectedTopicId with
  | Some id =>
      if String.eqb id "" then [] else List.filter (carries_topic id) (postNodes data)
  | None => []
  end.

(** The numbers [ConnectionLines] passes to [Float32Array]. *)
Definition segment_coordinates (posts : list GraphNode) (topicNode : GraphNode) : list float :=
  flat_map (fun post => [node_x topicNode; node_y topicNode; node_z topicNode;
                         node_x post; node_y post; node_z post]) posts.

(** The post lists the topic [id] among its topics. *)
Definition lists_topic (id : string) (post : Post) : bool :=
  match post_topics post with
  | Some topics => existsb (fun t => String.eqb (ref_id t) id) topics
  | None => false
  end.

(** ** extractTopics *)

Section TopicExtraction.

Variable JSON_parse : string -> option jsval.

(** [openai.chat.completions.create] for the topic extraction prompt, as a
    function of the user message. *)
Variable create_completion : string -> result ChatCompletion.

(** The body of the [try] block. *)
Definition parse_topics (response : ChatCompletion) : result jsval :=
  match choices response with
  | [] => Throw TypeError
  | content :: _ =>
      let text :=
        match content with
        | Some s => if String.eqb s "" then "{}"%string else s
        | None => "{}"%string
        end in
      match JSON_parse text with
      | None => Throw SyntaxError
      | Some parsed =>
          topics ← get_property parsed "topics";
          Ok (js_or topics (JArr []))
      end
  end.

(** [try { ... } catch { return [] }]. *)
Definition topics_of_response (response : ChatCompletion) : jsval :=
  match parse_topics response with
  | Ok topics => topics
  | Throw _ | Pending => JArr []
  end.

Definition extractTopics (content : string) : result jsval :=
  response ← create_completion content;
  Ok (topics_of_response response).

End TopicExtraction.

(** ** The assignment pass of kMeansClustering *)

(** The distance [1 - sim] that the assignment pass compares. *)
Definition cosine_distance (emb cent : vec) : float := (1 - cosineSimilarity emb cent)%float.

(** The scan of [nearest_centroid] from the pair [(minDist, nearest)] over
    the centroids from index [i] on. *)
Definition scan (emb : vec) (cents : list vec) (i : nat) (s : float * nat) : float * nat :=
  forEach (fun '(minDist, nearest) cent i =>
             let sim := cosineSimilarity emb cent in
             let dist := (1 - sim)%float in
             if (dist <? minDist)%float then (dist, i) else (minDist, nearest))
          cents i s.

(** ** The ingestion route: fetching the posts *)

Definition BATCH_SIZE : nat := 100.
Definition MOLTBOOK_PAGE_SIZE : nat := 100.
Definition MAX_OFFSET : nat := 800.
Definition REQUEST_DELAY : nat := 500.
Definition MAX_RETRIES : nat := 3.

(** A response, by what the code reads of it: [resp_json] is the value
    [response.json()] resolves to, [None] when it rejects. *)
Record Response := {
  resp_ok : bool;
  resp_status : nat;
  resp_json : option jsval;
}.

Inductive fetch_outcome :=
| FetchRejected (reason : string)
| FetchResolved (response : Response).

Inductive fetch_error :=
| NetworkError (reason : string)
| JsonError
| ReadOfNull
| ApiError (message : jsval)
| MaxRetriesExceeded.

Inductive fetched :=
| Returned (response : Response)
| Raised (e : fetch_error).

(** The URL [`${baseUrl}?sort=new&limit=${fetchLimit}&offset=${offset}`], by
    its parts. *)
Record PageUrl := {
  url_base : string;
  url_limit : Z;
  url_offset : nat;
}.

(** What one pass of the retry loop decides. *)
Inductive attempt_step :=
| Done (response : Response)
| Again
| Rethrow (e : fetch_error).

(** The body of the [for] loop of [fetchWithRetry] on the outcome of its call
    of [fetch].  Every error raised inside the [try] block is caught: before
    the last attempt the loop goes on, at the last one the error is raised
    again. *)
Definition attempt_body (outcome : fetch_outcome) (attempt retries : nat) : attempt_step :=
  let caught (e : fetch_error) := if (attempt <? retries)%nat then Again else Rethrow e in
  match outcome with
  | FetchRejected reason => caught (NetworkError reason)
  | FetchResolved response =>
      if resp_ok response then
        match resp_json response with
        | None => caught JsonError
        | Some data =>
            match get_property data "success" with
            | Ok (JBool false) =>
                match get_property data "error" with
                | Ok message =>
                    caught (ApiError (js_or message (JStr "API returned success: false")))
                | Throw _ | Pending => caught ReadOfNull
                end
            | Ok _ => Done response
            | Throw _ | Pending => caught ReadOfNull
            end
        end
      else if ((500 <=? resp_status response)%nat && (attempt <? retries)%nat)%bool then Again
      else Done response
  end.

(** [data.posts || data.data || []]. *)
Definition posts_of_body (data : jsval) : result jsval :=
  posts ← get_property data "posts";
  if truthy posts then Ok posts
  else
    alternative ← get_property data "data";
    Ok (js_or alternative (JArr [])).

(** The comparison of [Set.prototype.has].  Arrays and objects are compared
    by identity, and the values that two calls of [JSON.parse] return are
    distinct objects. *)
Definition same_value_zero (a b : jsval) : bool :=
  match a, b with
  | JUndefined, JUndefined | JNull, JNull => true
  | JBool x, JBool y => Bool.eqb x y
  | JNum x, JNum y => ((x =? y)%float || (PrimFloat.is_nan x && PrimFloat.is_nan y))%bool
  | JStr x, JStr y => String.eqb x y
  | _, _ => false
  end.

(** [allPosts.map(p => p.id)]. *)
Fixpoint post_ids (posts : list jsval) : result (list jsval) :=
  match posts with
  | [] => Ok []
  | p :: posts' =>
      id ← get_property p "id";
      ids ← post_ids posts';
      Ok (id :: ids)
  end.

(** [posts.filter((p) => !existingIds.has(p.id))]. *)
Fixpoint filter_new (existingIds : list jsval) (posts : list jsval) : result (list jsval) :=
  match posts with
  | [] => Ok []
  | p :: posts' =>
      id ← get_property p "id";
      newPosts ← filter_new existingIds posts';
      Ok (if existsb (same_value_zero id) existingIds then newPosts else p :: newPosts)
  end.

(** What one pass of the pagination loop decides. *)
Inductive page_step :=
| Break
| Continue (allPosts : list jsval) (offset : nat).

(** The [try] block of the pagination loop on what [fetchWithRetry] gave.
    Every error is caught and ends the loop.  A value of [posts] that is not
    an array ends it too: either its [length] is 0, or the call of its
    [filter], which is no function, raises a TypeError. *)
Definition next_page (got : fetched) (allPosts : list jsval) (offset : nat) : page_step :=
  match got with
  | Raised _ => Break
  | Returned response =>
      if negb (resp_ok response) then Break
      else
        match resp_json response with
        | None => Break
        | Some data =>
            match posts_of_body data with
            | Ok (JArr posts) =>
                if (length posts =? 0)%nat then Break
                else
                  match post_ids allPosts with
                  | Ok existingIds =>
                      match filter_new existingIds posts with
                      | Ok newPosts =>
                          if (length newPosts =? 0)%nat then Break
                          else Continue (allPosts ++ newPosts) (offset + length posts)
                      | Throw _ | Pending => Break
                      end
                  | Throw _ | Pending => Break
                  end
            | Ok _ | Throw _ | Pending => Break
            end
        end
  end.

Section Fetching.

(** The network: [fetch] answers a request in a state of the world and
    leaves a new state. *)
Variable world : Type.
Variable fetch : PageUrl -> string -> world -> fetch_outcome * world.

(** The loop [for (attempt = 1; attempt <= retries; attempt++)], with [left]
    passes left to run: [left = retries + 1 - attempt].  Besides the result
    and the world it returns the outcomes of its calls of [fetch] and the
    delays it waited, in order (ghost results). *)
Fixpoint fetchWithRetry_from (left attempt retries : nat) (url : PageUrl) (apiKey : string)
    (w : world) (seen : list fetch_outcome) (slept : list nat)
    : fetched * world * list fetch_outcome * list nat :=
  match left with
  | 0 => (Raised MaxRetriesExceeded, w, seen, slept)
  | S left' =>
      let '(outcome, w') := fetch url apiKey w in
      match attempt_body outcome attempt retries with
      | Done response => (Returned response, w', seen ++ [outcome], slept)
      | Again =>
          fetchWithRetry_from left' (S attempt) retries url apiKey w'
            (seen ++ [outcome]) (slept ++ [attempt * 2000])
      | Rethrow e => (Raised e, w', seen ++ [outcome], slept)
      end
  end.

Definition fetchWithRetry (url : PageUrl) (apiKey : string) (retries : nat) (w : world)
    : fetched * world * list fetch_outcome * list nat :=
  fetchWithRetry_from retries 1 retries url apiKey w [] [].

(** The [while] loop of [fetchAllPosts], at most [fuel] passes of it; [None]
    when the loop is still running after them.  [requests] is the list of the
    URLs the passes so far handed to [fetchWithRetry], one for each pass (a
    ghost result); [fetchWithRetry] may send its URL to the server more than
    once. *)
Fixpoint fetchAllPosts_loop (fuel : nat) (baseUrl apiKey : string) (effectiveLimit : Z)
    (allPosts : list jsval) (offset : nat) (w : world) (requests : list PageUrl)
    : option (list jsval * world * list PageUrl) :=
  if ((Z.of_nat (length allPosts) <? effectiveLimit)%Z && (offset <=? MAX_OFFSET)%nat)%bool then
    match fuel with
    | 0 => None
    | S fuel' =>
        let remaining := (effectiveLimit - Z.of_nat (length allPosts))%Z in
        let fetchLimit := Z.min (Z.of_nat MOLTBOOK_PAGE_SIZE) remaining in
        let url := {| url_base := baseUrl; url_limit := fetchLimit; url_offset := offset |} in
        let '(got, w', _, _) := fetchWithRetry url apiKey MAX_RETRIES w in
        match next_page got allPosts offset with
        | Break => Some (allPosts, w', requests ++ [url])
        | Continue allPosts' offset' =>
            fetchAllPosts_loop fuel' baseUrl apiKey effectiveLimit allPosts' offset' w'
              (requests ++ [url])
        end
    end
  else Some (allPosts, w, requests).

(** [Math.min(totalLimit, MAX_OFFSET + MOLTBOOK_PAGE_SIZE)] for an integer
    [totalLimit]. *)
Definition effective_limit (totalLimit : Z) : Z :=
  Z.min totalLimit (Z.of_nat (MAX_OFFSET + MOLTBOOK_PAGE_SIZE)).

Definition fetchAllPosts (fuel : nat) (baseUrl apiKey : string) (totalLimit : Z) (w : world)
    : option (list jsval * world * list PageUrl) :=
  fetchAllPosts_loop fuel baseUrl apiKey (effective_limit totalLimit) [] 0 w [].

(** The server answers a request for [limit] posts with at most that many. *)
Definition honours_limit : Prop :=
  forall url apiKey w response data posts,
    (1 <= url_limit url)%Z ->
    (fetch url apiKey w).1 = FetchResolved response ->
    resp_json response = Some data ->
    posts_of_body data = Ok (JArr posts) ->
    (Z.of_nat (length posts) <= url_limit url)%Z.

(** The posts of a page have strings for ids, no two of them the same. *)
Definition distinct_ids (posts : list jsval) : Prop :=
  exists ids, post_ids posts = Ok (map JStr ids) /\ NoDup ids.

(** Every page the server answers with has distinct ids. *)
Definition serves_distinct_ids : Prop :=
  forall url apiKey w response data posts,
    (fetch url apiKey w).1 = FetchResolved response ->
    resp_json response = Some data ->
    posts_of_body data = Ok (JArr posts) ->
    distinct_ids posts.

End Fetching.



(** The body of a response that passes the check of [fetchWithRetry]. *)
Definition body_accepted (response : Response) : Prop :=
  exists data v,
    resp_json response = Some data /\
    get_property data "success" = Ok v /\ v <> JBool false.

(** ** The ingestion route: saving the posts *)

(** [post.title ? `${post.title}\n${post.content}` : post.content]; the
    template literal is a parameter. *)
Definition text_of_post (template : jsval -> jsval -> string) (post : jsval) : result jsval :=
  title ← get_property post "title";
  content ← get_property post "content";
  Ok (if truthy title then JStr (template title content) else content).

(** [batch.map(...)] with a callback that may raise. *)
Fixpoint map_result {A B : Type} (f : A -> result B) (l : list A) : result (list B) :=
  match l with
  | [] => Ok []
  | x :: l' =>
      y ← f x;
      ys ← map_result f l';
      Ok (y :: ys)
  end.

(** The variables step 2 of [ingestDataFast] updates. *)
Record Progress := {
  allEmbeddings : list vec;
  allPostIds : list string;
  processed : nat;
  errors : nat;
}.

Definition no_progress : Progress :=
  {| allEmbeddings := []; allPostIds := []; processed := 0; errors := 0 |}.

(** [allEmbeddings.push(embedding); allPostIds.push(savedPost.id);
    processed++]. *)
Definition saved (st : Progress) (embedding : vec) (id : string) : Progress :=
  {| allEmbeddings := allEmbeddings st ++ [embedding];
     allPostIds := allPostIds st ++ [id];
     processed := S (processed st);
     errors := errors st |}.

(** [errors += count]. *)
Definition add_errors (count : nat) (st : Progress) : Progress :=
  {| allEmbeddings := allEmbeddings st;
     allPostIds := allPostIds st;
     processed := processed st;
     errors := errors st + count |}.

Section Saving.

(** The provider and the database, as functions of a state of the world:
    [generateEmbeddings] gives the embeddings or rejects ([None]);
    [upsert] gives the id of the saved post or rejects; the two updates
    resolve ([true]) or reject. *)
Variable world : Type.
Variable template : jsval -> jsval -> string.
Variable generateEmbeddings : list jsval -> world -> option (list vec) * world.
Variable upsert : jsval -> world -> option string * world.
Variable store_embedding : string -> vec -> world -> bool * world.
Variable update_progress : nat -> nat -> world -> bool * world.

(** The loop [for (let j = 0; j < batch.length; j++)] from [j] on; [batch]
    holds the posts from [j] on.  A missing embedding makes
    [embedding.join] raise a TypeError after the post was saved. *)
Fixpoint save_posts (batch : list jsval) (embeddings : list vec) (j : nat)
    (st : Progress) (w : world) : Progress * world :=
  match batch with
  | [] => (st, w)
  | post :: batch' =>
      let '(st', w') :=
        match upsert post w with
        | (None, w1) => (add_errors 1 st, w1)
        | (Some id, w1) =>
            match embeddings !! j with
            | None => (add_errors 1 st, w1)
            | Some embedding =>
                match store_embedding id embedding w1 with
                | (false, w2) => (add_errors 1 st, w2)
                | (true, w2) => (saved st embedding id, w2)
                end
            end
        end in
      save_posts batch' embeddings (S j) st' w'
  end.

(** The body of the loop over the batches, with its [try] and [catch]. *)
Definition process_batch (batch : list jsval) (st : Progress) (w : world) : Progress * world :=
  match map_result (text_of_post template) batch with
  | Ok texts =>
      match generateEmbeddings texts w with
      | (Some embeddings, w1) =>
          let '(st', w2) := save_posts batch embeddings 0 st w1 in
          match update_progress (processed st') (errors st') w2 with
          | (true, w3) => (st', w3)
          | (false, w3) => (add_errors (length batch) st', w3)
          end
      | (None, w1) => (add_errors (length batch) st, w1)
      end
  | Throw _ | Pending => (add_errors (length batch) st, w)
  end.

(** The loop [for (let i = 0; i < posts.length; i += BATCH_SIZE)], at most
    [fuel] passes of it; [None] when it is still running after them. *)
Fixpoint process_from (fuel i : nat) (posts : list jsval) (st : Progress) (w : world)
    : option (Progress * world) :=
  if (i <? length posts)%nat then
    match fuel with
    | 0 => None
    | S fuel' =>
        let batch := take BATCH_SIZE (drop i posts) in
        let '(st', w') := process_batch batch st w in
        process_from fuel' (i + BATCH_SIZE) posts st' w'
    end
  else Some (st, w).

End Saving.

(** ** The ingestion route: grouping the posts by cluster *)

(** A [Map<number, string[]>], its entries in insertion order.  An element of
    a group is [allPostIds[postIdx]], undefined ([None]) past the end. *)
Abbreviation PostsMap := (list (nat * list (option string))).

Fixpoint map_has (key : nat) (m : PostsMap) : bool :=
  match m with
  | [] => false
  | (k, _) :: m' => ((k =? key)%nat || map_has key m')%bool
  end.

Fixpoint map_get (key : nat) (m : PostsMap) : option (list (option string)) :=
  match m with
  | [] => None
  | (k, group) :: m' => if (k =? key)%nat then Some group else map_get key m'
  end.

(** [m.get(key)!.push(x)] for a key of the map. *)
Fixpoint map_push (key : nat) (x : option string) (m : PostsMap) : PostsMap :=
  match m with
  | [] => []
  | (k, group) :: m' =>
      if (k =? key)%nat then (k, group ++ [x]) :: m' else (k, group) :: map_push key x m'
  end.

(** The callback of [clusters.forEach((clusterIdx, postIdx) => ...)]. *)
Definition group_post (allPostIds : list string) (m : PostsMap) (clusterIdx postIdx : nat)
    : PostsMap :=
  let m' := if map_has clusterIdx m then m else m ++ [(clusterIdx, [])] in
  map_push clusterIdx (allPostIds !! postIdx) m'.

Definition clusterPostsMap (clusters : list nat) (allPostIds : list string) : PostsMap :=
  forEach (group_post allPostIds) clusters 0 [].

(** The ids of the posts assigned to cluster [c], in the order of the posts,
    from the post at index [postIdx] on. *)
Fixpoint members (c : nat) (clusters : list nat) (allPostIds : list string) (postIdx : nat)
    : list (option string) :=
  match clusters with
  | [] => []
  | clusterIdx :: clusters' =>
      if (clusterIdx =? c)%nat
      then allPostIds !! postIdx :: members c clusters' allPostIds (S postIdx)
      else members c clusters' allPostIds (S postIdx)
  end.

(** [centroidPositions[clusterIdx]?.x || 0], for the coordinate read by
    [axis]. *)
Definition topic_coordinate (centroidPositions : list Point3) (clusterIdx : nat)
    (axis : Point3 -> float) : float :=
  match centroidPositions !! clusterIdx with
  | Some position => if truthy (JNum (axis position)) then axis position else 0%float
  | None => 0%float
  end.

(** The lists of embeddings and of ids grow together with [processed]. *)
Definition consistent (st : Progress) : Prop :=
  length (allEmbeddings st) = processed st /\ length (allPostIds st) = processed st.

(** The number of post ids a map holds. *)
Definition map_size (m : PostsMap) : nat := list_sum (map (fun entry => length entry.2) m).

(** ** More inputs for the examples *)

Definition sample_topic : Topic :=
  {| topic_id := "t1"; topic_name := code_units_of "Robots"; topic_description := None;
     topic_color := "#ef4444";
     topic_posX := Some 0%float; topic_posY := None; topic_posZ := Some 3%float;
     topic_postCount := 2 |}.

Definition sample_post : Post :=
  {| post_id := "p1"; post_externalId := None; post_content := code_units_of "hello";
     post_title := None; post_author := None; post_authorId := None;
     post_url := None; post_createdAt := "2026-01-01";
     post_posX := None; post_posY := Some 1%float; post_posZ := None;
     post_topics := Some [{| ref_id := "t1"; ref_name := "Robots";
                             ref_color := "#ef4444"; ref_relevance := 1 |};
                          {| ref_id := "t2"; ref_name := "Art";
                             ref_color := "#f97316"; ref_relevance := 1 |}] |}.

(** A server for the examples: its first answer is lost, and every later one
    is the first posts of the same three. *)
Definition toy_post (id : string) : jsval := JObj [("id"%string, JStr id)].

Definition toy_fetch (url : PageUrl) (apiKey : string) (calls : nat) : fetch_outcome * nat :=
  (if (calls =? 0)%nat then FetchRejected "connection reset"
   else FetchResolved
          {| resp_ok := true; resp_status := 200;
             resp_json :=
               Some (JObj [("posts"%string,
                            JArr (map toy_post
                                    (take (Z.to_nat (url_limit url)) ["a"; "b"; "c"]%string)))]) |},
   S calls).

(** ** The passes and the picks of kMeansClustering *)

(** The assignment and the centroids after [j] passes of the loop that each
    went on to recompute the centroids, from [clusters] and [centroids]. *)
Fixpoint after_updates (embeddings : list vec) (dim : nat) (j : nat)
    (clusters : list nat) (centroids : list vec) : list nat * list vec :=
  match j with
  | 0 => (clusters, centroids)
  | S j' =>
      let newClusters := assign_clusters embeddings centroids in
      after_updates embeddings dim j' newClusters
        (update_centroids embeddings newClusters dim centroids)
  end.

(** The elements of [idxs] that are neither in [seen] nor earlier in [idxs],
    in the order of [idxs]: the first occurrences of the indices not yet
    seen. *)
Fixpoint first_occurrences (seen : list nat) (idxs : list nat) : list nat :=
  match idxs with
  | [] => []
  | idx :: idxs' =>
      if existsb (Nat.eqb idx) seen then first_occurrences seen idxs'
      else idx :: first_occurrences (seen ++ [idx]) idxs'
  end.

(** ** The sums of cosineSimilarity *)

(** The sum [sum + a[0] * b[0] + a[1] * b[1] + ...] of binary64 products,
    each added to the sum of the ones before it. *)
Fixpoint sum_products (a b : vec) (sum : float) : float :=
  match a, b with
  | x :: a', y :: b' => sum_products a' b' (sum + x * y)%float
  | _, _ => sum
  end.

(** * Properties *)

(** Run the first computation of a sequence with the equation [H]. *)
Ltac run H :=
  first [rewrite H | unfold mbind at 1; unfold M_bind at 1; run H]; cbv beta iota.

(** ** Binary64 facts *)

Lemma SFmul_comm (prec emax : Z) (x y : spec_float) :
  SFmul prec emax x y = SFmul prec emax y x.
Proof.
  destruct x as [sx|sx| |sx mx ex], y as [sy|sy| |sy my ey]; simpl;
    rewrite ?(xorb_comm sx sy); try reflexivity.
  now rewrite (Pos.mul_comm mx my), (Z.add_comm ex ey).
Qed.

Lemma float_mul_comm (x y : float) : (x * y = y * x)%float.
Proof.
  apply Prim2SF_inj. rewrite !FloatAxioms.mul_spec. apply SFmul_comm.
Qed.

Lemma is_zero_cases (x : float) : is_zero x -> Prim2SF x = S754_zero false \/ Prim2SF x = S754_zero true.
Proof. intros [-> | ->]; [left | right]; reflexivity. Qed.

(** A zero times a finite number is a zero. *)
Lemma zero_mul_finite (x w : float) :
  is_zero x -> is_finite w = true -> is_zero (x * w)%float.
Proof.
  intros Hx Hw. unfold is_finite in Hw.
  assert (exists s, Prim2SF (x * w) = S754_zero s) as [s Hs].
  { rewrite FloatAxioms.mul_spec. unfold SF64mul.
    destruct (is_zero_cases x Hx) as [-> | ->];
      destruct (Prim2SF w) as [sw|sw| |sw mw ew]; try discriminate; simpl; eauto. }
  destruct s; [right | left]; apply Prim2SF_inj; rewrite Hs; reflexivity.
Qed.

(** Adding a zero to positive zero leaves positive zero. *)
Lemma zero_add_zero (z : float) : is_zero z -> (0 + z = 0)%float.
Proof. intros [-> | ->]; reflexivity. Qed.

Lemma float_of_spec_zero (s : bool) (x : float) : Prim2SF x = S754_zero s -> is_zero x.
Proof.
  intros Hx. destruct s; [right | left]; apply Prim2SF_inj; rewrite Hx; reflexivity.
Qed.

Lemma float_of_spec_nan (x : float) : Prim2SF x = S754_nan -> x = nan.
Proof. intros Hx. apply Prim2SF_inj. rewrite Hx. reflexivity. Qed.

(** A zero times any number is a zero or NaN. *)
Lemma zero_mul_any (x y : float) : is_zero x -> zero_or_nan (x * y)%float.
Proof.
  intros Hx.
  assert (Hcases : (exists s, Prim2SF (x * y) = S754_zero s) \/ Prim2SF (x * y) = S754_nan).
  { rewrite FloatAxioms.mul_spec. unfold SF64mul.
    destruct (is_zero_cases x Hx) as [-> | ->];
      destruct (Prim2SF y) as [sy|sy| |sy my ey]; simpl; eauto. }
  destruct Hcases as [[s Hs] | Hn].
  - left. eapply float_of_spec_zero, Hs.
  - right. now apply float_of_spec_nan.
Qed.

Lemma nan_add (y : float) : (nan + y = nan)%float.
Proof.
  apply float_of_spec_nan. rewrite FloatAxioms.add_spec. reflexivity.
Qed.

(** ** cosineSimilarity *)

Section KernelFacts.
Context {num : Type} `{Arith num}.

Lemma cosineSimilarity_length_mismatch (a b : list num) :
  length a <> length b -> cosineSimilarity a b = nzero.
Proof.
  intros Hlen. unfold cosineSimilarity.
  destruct (Nat.eqb_spec (length a) (length b)) as [Heq | _]; [contradiction | reflexivity].
Qed.

Hypothesis nmul_comm : forall x y : num, nmul x y = nmul y x.

Lemma cosine_loop_swap (a b : list num) (d na nb : num) :
  cosine_loop b a d nb na =
  (let '(d', na', nb') := cosine_loop a b d na nb in (d', nb', na')).
Proof.
  revert b d na nb. induction a as [|x a IH]; intros [|y b] d na nb; simpl; try reflexivity.
  rewrite (nmul_comm y x). apply IH.
Qed.

Lemma cosineSimilarity_comm (a b : list num) :
  cosineSimilarity a b = cosineSimilarity b a.
Proof.
  unfold cosineSimilarity. rewrite (Nat.eqb_sym (length b) (length a)).
  destruct (length a =? length b)%nat; simpl; [|reflexivity].
  rewrite (cosine_loop_swap a b).
  destruct (cosine_loop a b nzero nzero nzero) as [[d na] nb].
  now rewrite (nmul_comm (nsqrt nb) (nsqrt na)).
Qed.

End KernelFacts.

(** With an all-zero first vector the dot product stays at positive zero or
    NaN and the first norm stays at positive zero. *)
Lemma cosine_loop_zero_left (a b : vec) (d nb : float) :
  Forall is_zero a -> d = 0%float \/ d = nan ->
  let '(d', na', _) := cosine_loop a b d 0%float nb in
  (d' = 0%float \/ d' = nan) /\ na' = 0%float.
Proof.
  intros Ha. revert b d nb. induction Ha as [|x a Hx Ha IH]; intros b d nb Hd; simpl.
  - destruct b; split; auto.
  - destruct b as [|y b]; [split; auto|].
    change (@nadd float float_arith) with PrimFloat.add.
    change (@nmul float float_arith) with PrimFloat.mul.
    replace (0 + x * x)%float with 0%float by (destruct Hx as [-> | ->]; reflexivity).
    apply IH.
    destruct Hd as [-> | ->]; [|right; apply nan_add].
    destruct (zero_mul_any x y Hx) as [[-> | ->] | ->]; [left | left | right]; reflexivity.
Qed.

Lemma cosineSimilarity_zero_left (a b : vec) :
  length a = length b -> Forall is_zero a -> cosineSimilarity a b = nan.
Proof.
  intros Hlen Ha. unfold cosineSimilarity. rewrite Hlen, Nat.eqb_refl. simpl.
  change (@nzero float float_arith) with 0%float.
  pose proof (cosine_loop_zero_left a b 0 0 Ha (or_introl eq_refl)) as Hloop.
  destruct (cosine_loop a b 0%float 0%float 0%float) as [[d na] nb].
  destruct Hloop as [Hd ->].
  change (@ndiv float float_arith) with PrimFloat.div.
  change (@nmul float float_arith) with PrimFloat.mul.
  change (@nsqrt float float_arith) with PrimFloat.sqrt.
  change (PrimFloat.sqrt 0) with 0%float.
  destruct (zero_mul_any 0 (PrimFloat.sqrt nb) (or_introl eq_refl)) as [[-> | ->] | ->];
    destruct Hd as [-> | ->]; reflexivity.
Qed.

Lemma cosineSimilarity_zero_vector (a b : vec) :
  length a = length b -> Forall is_zero a \/ Forall is_zero b ->
  cosineSimilarity a b = nan.
Proof.
  intros Hlen [Ha | Hb].
  - now apply cosineSimilarity_zero_left.
  - rewrite (@cosineSimilarity_comm float float_arith float_mul_comm a b).
    now apply cosineSimilarity_zero_left.
Qed.

Lemma cosine_loop_sums (a b : vec) (d na nb : float) :
  length a = length b ->
  cosine_loop a b d na nb = (sum_products a b d, sum_products a a na, sum_products b b nb).
Proof.
  revert b d na nb. induction a as [|x a IH]; intros [|y b] d na nb Hlen;
    simpl in *; try discriminate; [reflexivity|].
  injection Hlen as Hlen. now rewrite IH.
Qed.

Lemma cosineSimilarity_quotient (a b : vec) :
  length a = length b ->
  cosineSimilarity a b =
  (sum_products a b 0 / (PrimFloat.sqrt (sum_products a a 0) * PrimFloat.sqrt (sum_products b b 0)))%float.
Proof.
  intros Hlen. unfold cosineSimilarity. rewrite Hlen, Nat.eqb_refl. simpl.
  change (@nzero float float_arith) with 0%float.
  rewrite cosine_loop_sums by exact Hlen. reflexivity.
Qed.

(** C2, counterexample: four pairs of vectors of equal length whose
    similarity is not in [-1, 1].  For [[0]] and [[0]] it is NaN.  For
    [[2^-565]] and [[2^-500]], both non-zero, the first squared norm
    underflows to 0 and the similarity is infinite.  For [[2^600; 1]] and
    [[-2^600; 1]] the sums overflow and it is NaN.  For [[1; 1; 1]] with
    itself it is the double after 1. *)
Lemma cosineSimilarity_out_of_range :
  (let s := cosineSimilarity [0%float] [0%float] in
   s = nan /\ (-1 <=? s)%float = false /\ (s <=? 1)%float = false) /\
  (let s := cosineSimilarity [0x1p-565%float] [0x1p-500%float] in
   s = infinity /\ (s <=? 1)%float = false) /\
  (let s := cosineSimilarity [0x1p+600; 1]%float [-0x1p+600; 1]%float in
   s = nan /\ (-1 <=? s)%float = false /\ (s <=? 1)%float = false) /\
  (let s := cosineSimilarity [1; 1; 1]%float [1; 1; 1]%float in
   s = 0x1.0000000000001p+0%float /\ (s <=? 1)%float = false).
Proof. vm_compute. repeat split; reflexivity. Qed.

(** C2, amended: [cosineSimilarity a b] is 0 when the lengths differ.  When
    they are equal it is the binary64 quotient
    [dotProduct / (sqrt normA * sqrt normB)] of the three sums, each taken
    from left to right, without a guard for a zero norm; it is NaN as soon as
    one of the vectors is all zeros (two empty vectors included). *)
Theorem cosineSimilarity_contract :
  (forall a b : vec, length a <> length b -> cosineSimilarity a b = 0%float) /\
  (forall a b : vec,
      length a = length b ->
      cosineSimilarity a b =
      (sum_products a b 0 / (PrimFloat.sqrt (sum_products a a 0) * PrimFloat.sqrt (sum_products b b 0)))%float) /\
  (forall a b : vec,
      length a = length b -> Forall is_zero a \/ Forall is_zero b ->
      cosineSimilarity a b = nan).
Proof.
  split; [|split].
  - intros a b Hlen. exact (cosineSimilarity_length_mismatch a b Hlen).
  - exact cosineSimilarity_quotient.
  - exact cosineSimilarity_zero_vector.
Qed.

Lemma cosineSimilarity_contract_witness :
  cosineSimilarity [1; 2]%float [3]%float = 0%float /\
  cosineSimilarity [3; 4]%float [4; 3]%float = (24 / (PrimFloat.sqrt 25 * PrimFloat.sqrt 25))%float /\
  cosineSimilarity [0; -0]%float [3; 4]%float = nan.
Proof.
  destruct cosineSimilarity_contract as (Hlen & Hquot & Hzero).
  split; [|split].
  - apply Hlen. simpl. lia.
  - apply (Hquot [3; 4]%float [4; 3]%float). reflexivity.
  - apply Hzero; [reflexivity|]. left.
    repeat constructor; (left; reflexivity) || (right; reflexivity).
Defined.

(** C7, counterexample: for the non-zero vector [[1; 1; 1]] the similarity
    with itself is the double after 1, not 1; for the non-zero vectors
    [[2^600]] and [[2^-565]] it is NaN, as the squared norm overflows for
    the first and underflows to 0 for the second. *)
Lemma cosineSimilarity_self_rounding :
  let a := [1; 1; 1]%float in
  cosineSimilarity a a = 0x1.0000000000001p+0%float /\
  (cosineSimilarity a a =? 1)%float = false /\
  cosineSimilarity a a <> 1%float /\
  cosineSimilarity [0x1p+600%float] [0x1p+600%float] = nan /\
  cosineSimilarity [0x1p-565%float] [0x1p-565%float] = nan.
Proof.
  split; [reflexivity | split; [reflexivity | split; [|split; reflexivity]]].
  intros Heq. apply (f_equal (fun x => (x =? 1)%float)) in Heq.
  vm_compute in Heq. discriminate.
Qed.

(** C7, amended: [cosineSimilarity a b] and [cosineSimilarity b a] are the same
    number for all vectors (NaN included), and [cosineSimilarity a a] is the
    binary64 quotient [n / (sqrt n * sqrt n)], where [n] is the sum of the
    squares of the components taken from left to right. *)
Theorem cosineSimilarity_symmetry :
  (forall a b : vec, cosineSimilarity a b = cosineSimilarity b a) /\
  (forall a : vec,
      let n := sum_products a a 0 in
      cosineSimilarity a a = (n / (PrimFloat.sqrt n * PrimFloat.sqrt n))%float).
Proof.
  split.
  - apply cosineSimilarity_comm. exact float_mul_comm.
  - intros a. now apply cosineSimilarity_quotient.
Qed.

(** ** kMeansClustering *)

(** *** Array callbacks *)

Lemma map_i_length {A B : Type} (f : A -> nat -> B) (l : list A) (i : nat) :
  length (map_i f l i) = length l.
Proof. revert i. induction l as [|x l IH]; intros i; simpl; [reflexivity | now rewrite IH]. Qed.

Lemma map_i_lookup {A B : Type} (f : A -> nat -> B) (l : list A) (i j : nat) (x : A) :
  l !! j = Some x -> map_i f l i !! j = Some (f x (i + j)).
Proof.
  revert i j. induction l as [|y l IH]; intros i [|j] Hj; simpl in *; try discriminate.
  - injection Hj as ->. now rewrite Nat.add_0_r.
  - rewrite (IH (S i) j Hj). f_equal. f_equal. lia.
Qed.

Lemma map_i_Forall {A B : Type} (P : B -> Prop) (f : A -> nat -> B) (l : list A) (i : nat) :
  (forall x j, x ∈ l -> P (f x j)) -> Forall P (map_i f l i).
Proof.
  revert i. induction l as [|y l IH]; intros i Hf; simpl; constructor.
  - apply Hf. left.
  - apply IH. intros x j Hx. apply Hf. now right.
Qed.

Lemma filter_i_Forall {A : Type} (P : A -> Prop) (p : A -> nat -> bool) (l : list A) (i : nat) :
  Forall P l -> Forall P (filter_i p l i).
Proof.
  intros HP. revert i. induction HP as [|x l Hx HP IH]; intros i; simpl; [constructor|].
  destruct (p x i); [constructor; [exact Hx|] |]; apply IH.
Qed.

(** *** The assignment pass *)

Lemma forEach_nearest_bound (emb : vec) (cents : list vec) (i : nat) (m : float) (nearest : nat) :
  nearest = 0 \/ nearest < i ->
  let r := snd (forEach
                  (fun '(minDist, nearest) cent i =>
                     let sim := cosineSimilarity emb cent in
                     let dist := (1 - sim)%float in
                     if (dist <? minDist)%float then (dist, i) else (minDist, nearest))
                  cents i (m, nearest)) in
  r = 0 \/ r < i + length cents.
Proof.
  revert i m nearest. induction cents as [|c cents IH]; intros i m nearest Hn; simpl.
  - lia.
  - destruct (1 - cosineSimilarity emb c <? m)%float.
    + specialize (IH (S i) (1 - cosineSimilarity emb c)%float i). simpl in IH. lia.
    + specialize (IH (S i) m nearest). simpl in IH. lia.
Qed.

Lemma nearest_centroid_lt (cents : list vec) (emb : vec) (k : nat) :
  1 <= k -> length cents <= k -> nearest_centroid cents emb < k.
Proof.
  intros Hk Hlen. unfold nearest_centroid.
  pose proof (forEach_nearest_bound emb cents 0 infinity 0 (or_introl eq_refl)) as Hb.
  simpl in Hb. lia.
Qed.

Lemma assign_clusters_length (embeddings cents : list vec) :
  length (assign_clusters embeddings cents) = length embeddings.
Proof. apply length_map. Qed.

Lemma assign_clusters_lt (embeddings cents : list vec) (k : nat) :
  1 <= k -> length cents <= k ->
  Forall (fun c => c < k) (assign_clusters embeddings cents).
Proof.
  intros Hk Hlen. unfold assign_clusters. apply Forall_map, Forall_forall.
  intros emb _. now apply nearest_centroid_lt.
Qed.

Lemma update_centroids_length (embeddings : list vec) (cl : list nat) (dim : nat) (cents : list vec) :
  length (update_centroids embeddings cl dim cents) = length cents.
Proof. apply map_i_length. Qed.

(** *** The main loop *)

Lemma kMeans_loop_spec (embeddings : list vec) (dim k fuel : nat) (cl : list nat) (ce : list vec) :
  1 <= k -> length ce <= k ->
  length cl = length embeddings -> Forall (fun c => c < k) cl ->
  let '(trace, cl', ce') := kMeans_loop embeddings dim fuel cl ce in
  length ce' = length ce /\
  length cl' = length embeddings /\
  Forall (fun c => c < k) cl' /\
  trace_shape fuel trace /\
  (last trace = Some false -> cl' = assign_clusters embeddings ce').
Proof.
  intros Hk. revert cl ce. induction fuel as [|fuel IH]; intros cl ce Hce Hcl Hlt; simpl.
  - repeat split; try assumption; [now left | discriminate].
  - destruct (assignment_changed (assign_clusters embeddings ce) cl).
    + specialize (IH (assign_clusters embeddings ce)
                     (update_centroids embeddings (assign_clusters embeddings ce) dim ce)).
      destruct (kMeans_loop embeddings dim fuel _ _) as [[trace cl'] ce'].
      destruct IH as (H1 & H2 & H3 & H4 & H5).
      * now rewrite update_centroids_length.
      * apply assign_clusters_length.
      * now apply assign_clusters_lt.
      * rewrite update_centroids_length in H1.
        repeat split; try assumption.
        -- destruct H4 as [-> | (j & Hj & ->)]; [now left | right].
           exists (S j). split; [lia | reflexivity].
        -- intros Hlast. apply H5. destruct trace; [discriminate | exact Hlast].
    + repeat split.
      * apply assign_clusters_length.
      * now apply assign_clusters_lt.
      * right. exists 0. split; [lia | reflexivity].
Qed.

Lemma trace_shape_length (bound : nat) (trace : list bool) :
  trace_shape bound trace -> length trace <= bound.
Proof.
  intros [-> | (j & Hj & ->)].
  - now rewrite repeat_length.
  - rewrite length_app, repeat_length. simpl. lia.
Qed.

(** *** Initialisation *)

Lemma valid_draw_index (n : nat) (r : float) :
  valid_draw n r = true -> exists i, random_index n r = Some i /\ i < n.
Proof.
  unfold valid_draw. destruct (random_index n r) as [i|]; [|discriminate].
  intros Hi. apply Nat.ltb_lt in Hi. eauto.
Qed.

Lemma existsb_eqb_elem_of (x : nat) (l : list nat) :
  existsb (Nat.eqb x) l = true <-> x ∈ l.
Proof.
  induction l as [|y l IH]; simpl.
  - split; [discriminate | intros Hx; inversion Hx].
  - rewrite orb_true_iff, IH, Nat.eqb_eq, elem_of_cons. reflexivity.
Qed.

Lemma draw_fresh_ok (n : nat) (used : list nat) (rnd : tape) (x : nat) :
  forallb (valid_draw n) rnd = true ->
  x ∈ drawn_indices n rnd -> x ∉ used ->
  exists idx rnd',
    draw_fresh n used rnd = Ok (idx, rnd') /\
    (idx ∉ used) /\ idx < n /\
    forallb (valid_draw n) rnd' = true /\
    (forall y, y ∈ drawn_indices n rnd -> y ∉ used -> y = idx \/ y ∈ drawn_indices n rnd') /\
    rnd' `suffix_of` rnd.
Proof.
  induction rnd as [|r rnd IH]; intros Hvalid Hx Hfresh.
  - inversion Hx.
  - simpl in Hvalid. apply andb_true_iff in Hvalid as [Hr Hvalid].
    destruct (valid_draw_index n r Hr) as (i & Hi & Hlt).
    unfold drawn_indices in *. simpl in *. rewrite Hi in *. simpl in *.
    destruct (existsb (Nat.eqb i) used) eqn:Hused.
    + apply existsb_eqb_elem_of in Hused.
      apply elem_of_cons in Hx as [-> | Hx]; [contradiction|].
      destruct (IH Hvalid Hx Hfresh) as (idx & rnd' & Hrun & H1 & H2 & H3 & H4 & H5).
      exists idx, rnd'. repeat split; try assumption.
      * intros y Hy Hyf. apply elem_of_cons in Hy as [-> | Hy]; [contradiction|].
        now apply H4.
      * now apply suffix_cons_r.
    + exists i, rnd. repeat split; try assumption.
      * intros Hin. apply existsb_eqb_elem_of in Hin. congruence.
      * intros y Hy _. now apply elem_of_cons in Hy.
      * apply suffix_cons_r. reflexivity.
Qed.

Lemma init_centroids_ok (embeddings : list vec) (count : nat) :
  forall (used : list nat) (cents : list vec) (rnd : tape) (want : list nat),
    forallb (valid_draw (length embeddings)) rnd = true ->
    NoDup used -> NoDup want -> length want = count ->
    (forall x, x ∈ want -> x ∈ drawn_indices (length embeddings) rnd /\ x ∉ used) ->
    exists picks cents' rnd',
      init_centroids embeddings count used cents rnd = Ok (cents ++ cents', used ++ picks, rnd') /\
      NoDup (used ++ picks) /\
      length picks = count /\
      Forall2 (fun idx c => embeddings !! idx = Some c) picks cents' /\
      rnd' `suffix_of` rnd.
Proof.
  induction count as [|count IH]; intros used cents rnd want Hvalid Hused Hwant Hlen Hin.
  - exists [], [], rnd. simpl. rewrite !app_nil_r.
    split; [reflexivity|]. split; [assumption|]. split; [reflexivity|].
    split; [exact (List.Forall2_nil _) | done].
  - destruct want as [|w want]; [discriminate|]. injection Hlen as Hlen.
    destruct (Hin w) as [Hw Hwf]; [left|].
    destruct (draw_fresh_ok _ used rnd w Hvalid Hw Hwf)
      as (idx & rnd1 & Hdraw & Hfresh & Hlt & Hvalid1 & Hrest & Hsuf1).
    destruct (lookup_lt_is_Some_2 embeddings idx Hlt) as [e He].
    assert (Hwant' : exists want', NoDup want' /\ length want' = count /\
              forall x, x ∈ want' -> x ∈ (w :: want) /\ x <> idx).
    { destruct (decide (idx ∈ w :: want)) as [Hidx | Hidx].
      - apply list_elem_of_split in Hidx as (l1 & l2 & Heq).
        exists (l1 ++ l2). rewrite Heq in Hwant.
        apply NoDup_app in Hwant as (Hn1 & Hdisj & Hn2).
        apply NoDup_cons in Hn2 as [Hnot2 Hn2].
        split; [|split].
        + apply NoDup_app. repeat split; try assumption.
          intros x Hx1 Hx2. apply (Hdisj x Hx1). now right.
        + assert (length (w :: want) = length (l1 ++ idx :: l2)) as Hl by now rewrite Heq.
          rewrite length_app in *. simpl in Hl. lia.
        + intros x Hx. rewrite Heq. apply elem_of_app in Hx as [Hx | Hx].
          * split; [apply elem_of_app; now left|].
            intros ->. apply (Hdisj idx Hx). left.
          * split; [apply elem_of_app; right; now right|].
            intros ->. contradiction.
      - exists want. apply NoDup_cons in Hwant as [_ Hwant].
        split; [assumption | split; [assumption|]].
        intros x Hx. split; [now right|]. intros ->. apply Hidx. now right. }
    destruct Hwant' as (want' & Hnd' & Hlen' & Hin').
    destruct (IH (used ++ [idx]) (cents ++ [e]) rnd1 want' Hvalid1)
      as (picks & cents' & rnd' & Hrun & Hnd & Hpl & Hf2 & Hsuf); try assumption.
    { apply NoDup_app. repeat split; try assumption.
      - intros x Hx Hx'. apply list_elem_of_singleton in Hx'. congruence.
      - apply NoDup_singleton. }
    { intros x Hx. destruct (Hin' x Hx) as [Hxw Hne].
      destruct (Hin x Hxw) as [Hxd Hxu].
      split.
      - destruct (Hrest x Hxd Hxu); [contradiction | assumption].
      - intros Hx'. apply elem_of_app in Hx' as [Hx' | Hx']; [contradiction|].
        apply list_elem_of_singleton in Hx'. contradiction. }
    exists (idx :: picks), (e :: cents'), rnd'.
    simpl. rewrite Hdraw. simpl. rewrite He.
    rewrite Hrun. rewrite <- !app_assoc. simpl.
    repeat split.
    + now rewrite <- app_assoc in Hnd.
    + simpl. now rewrite Hpl.
    + now constructor.
    + etransitivity; eassumption.
Qed.

Lemma init_centroids_from_tape (embeddings : list vec) (k : nat) (rnd : tape) :
  let n := length embeddings in
  forallb (valid_draw n) rnd = true ->
  Nat.min k n <= length (remove_dups (drawn_indices n rnd)) ->
  exists centroids0 picks rnd',
    init_centroids embeddings (Nat.min k n) [] [] rnd = Ok (centroids0, picks, rnd') /\
    NoDup picks /\
    length picks = Nat.min k n /\
    Forall2 (fun idx c => embeddings !! idx = Some c) picks centroids0 /\
    rnd' `suffix_of` rnd.
Proof.
  intros n Hvalid Henough.
  set (want := take (Nat.min k n) (remove_dups (drawn_indices n rnd))).
  destruct (init_centroids_ok embeddings (Nat.min k n) [] [] rnd want Hvalid)
    as (picks & cents & rnd' & Hrun & Hnd & Hlen & Hf2 & Hsuf).
  - constructor.
  - apply (sublist_NoDup _ (remove_dups (drawn_indices n rnd))).
    + apply NoDup_remove_dups.
    + apply sublist_take.
  - unfold want. rewrite length_take. lia.
  - intros x Hx. split.
    + apply (elem_of_remove_dups (drawn_indices n rnd)).
      eapply elem_of_sublist; [exact Hx | apply sublist_take].
    + intros Hnil. inversion Hnil.
  - exists cents, picks, rnd'. simpl in *. repeat split; assumption.
Qed.

Lemma dimension_nonzero (embeddings : list vec) :
  dimension embeddings <> 0 ->
  ((length embeddings =? 0) || (dimension embeddings =? 0))%bool = false /\
  1 <= length embeddings.
Proof.
  intros Hdim. destruct embeddings as [|e embeddings]; [contradiction|].
  simpl in *. split; [|lia]. now apply Nat.eqb_neq.
Qed.

(** C3, counterexample: on the one-vector list [[[]]] (a non-empty list of
    vectors of one dimension, 0) with [k = 1] the assignment returned is
    empty, shorter than the input; and on [[[1]]] with [k = 0] the assignment
    is [[0]], whose value is not below [k]. *)
Lemma kMeansClustering_degenerate_inputs :
  kMeansClustering [[]] 1 default_maxIterations tape_with_repeat
    = Ok ({| clusters := []; centroids := [] |}, tape_with_repeat) /\
  length (@nil nat) <> length [@nil float] /\
  kMeansClustering [[1%float]] 0 default_maxIterations tape_with_repeat
    = Ok ({| clusters := [0]; centroids := [] |}, tape_with_repeat) /\
  ~ Forall (fun c => c < 0) [0].
Proof.
  split; [reflexivity|]. split; [discriminate|]. split; [reflexivity|].
  intros Hall. inversion Hall; lia.
Qed.

Lemma some_i_differs (new old : list nat) (i0 : nat) :
  some_i (fun c i =>
            match old !! i with
            | Some c' => negb (c =? c')%nat
            | None => true
            end) new i0 = false <->
  (forall j c, new !! j = Some c -> old !! (i0 + j) = Some c).
Proof.
  revert i0. induction new as [|x new IH]; intros i0; simpl.
  - split; [intros _ j c Hj; destruct j; discriminate | reflexivity].
  - destruct (old !! i0) as [c'|] eqn:Hold.
    + destruct (Nat.eqb_spec x c') as [-> | Hne]; simpl.
      * rewrite IH. split.
        -- intros Hall [|j] c Hj; simpl in Hj.
           ++ injection Hj as <-. now rewrite Nat.add_0_r.
           ++ rewrite <- Nat.add_succ_comm. now apply Hall.
        -- intros Hall j c Hj. rewrite Nat.add_succ_comm. now apply Hall.
      * split; [discriminate|]. intros Hall.
        specialize (Hall 0 x eq_refl). rewrite Nat.add_0_r in Hall. congruence.
    + split; [discriminate|]. intros Hall.
      specialize (Hall 0 x eq_refl). rewrite Nat.add_0_r in Hall. congruence.
Qed.

(** For assignments of one length, [changed] is false exactly when the two
    are the same list. *)
Lemma assignment_changed_false (new old : list nat) :
  length new = length old ->
  assignment_changed new old = false <-> new = old.
Proof.
  intros Hlen. unfold assignment_changed. rewrite some_i_differs. split.
  - intros Hall. apply list_eq. intros j.
    destruct (new !! j) as [c|] eqn:Hj.
    + symmetry. exact (Hall j c Hj).
    + symmetry. apply lookup_ge_None. apply lookup_ge_None in Hj. lia.
  - intros -> j c Hj. exact Hj.
Qed.

Lemma kMeans_loop_passes (embeddings : list vec) (dim fuel : nat) :
  forall (cl : list nat) (ce : list vec),
    length cl = length embeddings ->
    exists j,
      j <= fuel /\
      kMeans_loop embeddings dim fuel cl ce =
        (repeat true j ++ (if (j <? fuel)%nat then [false] else []),
         (after_updates embeddings dim j cl ce).1,
         (after_updates embeddings dim j cl ce).2) /\
      (forall i, i < j ->
         assign_clusters embeddings (after_updates embeddings dim i cl ce).2
         <> (after_updates embeddings dim i cl ce).1) /\
      (j < fuel ->
         assign_clusters embeddings (after_updates embeddings dim j cl ce).2
         = (after_updates embeddings dim j cl ce).1).
Proof.
  induction fuel as [|fuel IH]; intros cl ce Hcl.
  - exists 0. split; [lia|]. split; [reflexivity|]. split; intros; lia.
  - simpl kMeans_loop.
    destruct (assignment_changed (assign_clusters embeddings ce) cl) eqn:Hch.
    + destruct (IH (assign_clusters embeddings ce)
                   (update_centroids embeddings (assign_clusters embeddings ce) dim ce))
        as (j & Hj & Hloop & Hbefore & Hlast); [apply assign_clusters_length|].
      exists (S j). split; [lia|]. split; [|split].
      * rewrite Hloop. simpl.
        change (S j <=? fuel)%nat with (j <? fuel)%nat. reflexivity.
      * intros [|i] Hi.
        -- simpl. intros Heq.
           apply (assignment_changed_false (assign_clusters embeddings ce) cl) in Heq;
             [congruence|].
           now rewrite assign_clusters_length.
        -- simpl. apply Hbefore. lia.
      * intros Hlt. simpl. apply Hlast. lia.
    + apply assignment_changed_false in Hch; [|now rewrite assign_clusters_length].
      exists 0. split; [lia|]. split; [|split].
      * simpl. now rewrite Hch.
      * intros i Hi. lia.
      * intros _. exact Hch.
Qed.

(** C3, amended: for every list of vectors whose first vector is not empty
    and every [k >= 1], when the random source yields indices of the input,
    [min k n] distinct ones among them, [kMeansClustering] returns.  Its loop
    starts from the all-zero assignment and the initial centroids.  Each of
    its first [passes] passes finds an assignment that differs from the one
    before and recomputes the centroids; if [passes] is below
    [maxIterations] the next pass finds the same assignment again, for every
    vector, and the loop stops there without another update; otherwise the
    loop has made all [maxIterations] passes.  The call returns the
    assignment and the centroids reached by these [passes] updates; the
    assignment has the length of the input and all its values are below
    [k]. *)
Theorem kMeansClustering_converges (embeddings : list vec) (k maxIterations : nat) (rnd : tape) :
  dimension embeddings <> 0 ->
  1 <= k ->
  forallb (valid_draw (length embeddings)) rnd = true ->
  Nat.min k (length embeddings) <= length (remove_dups (drawn_indices (length embeddings) rnd)) ->
  exists centroids0 picks passes res rnd',
    init_centroids embeddings (Nat.min k (length embeddings)) [] [] rnd
      = Ok (centroids0, picks, rnd') /\
    kMeansClustering embeddings k maxIterations rnd = Ok (res, rnd') /\
    kMeans_run embeddings k maxIterations rnd
      = Ok (repeat true passes ++ (if (passes <? maxIterations)%nat then [false] else []),
            res, rnd') /\
    passes <= maxIterations /\
    (forall i, i < passes ->
       let '(cl, ce) := after_updates embeddings (dimension embeddings) i
                          (repeat 0 (length embeddings)) centroids0 in
       assign_clusters embeddings ce <> cl) /\
    (passes < maxIterations ->
       let '(cl, ce) := after_updates embeddings (dimension embeddings) passes
                          (repeat 0 (length embeddings)) centroids0 in
       assign_clusters embeddings ce = cl) /\
    (clusters res, centroids res)
      = after_updates embeddings (dimension embeddings) passes
          (repeat 0 (length embeddings)) centroids0 /\
    length (clusters res) = length embeddings /\
    Forall (fun c => c < k) (clusters res).
Proof.
  intros Hdim Hk Hvalid Henough.
  destruct (init_centroids_from_tape embeddings k rnd Hvalid Henough)
    as (centroids0 & picks & rnd' & Hinit & _ & Hlen & Hf2 & _).
  destruct (dimension_nonzero embeddings Hdim) as [Hguard Hn].
  pose proof (kMeans_loop_spec embeddings (dimension embeddings) k maxIterations
                (repeat 0 (length embeddings)) centroids0 Hk) as Hloop.
  destruct (kMeans_loop_passes embeddings (dimension embeddings) maxIterations
              (repeat 0 (length embeddings)) centroids0 (repeat_length _ _))
    as (passes & Hpasses & Hrun & Hbefore & Hlast).
  rewrite Hrun in Hloop.
  destruct Hloop as (_ & H2 & H3 & _ & _).
  - rewrite <- (Forall2_length _ _ _ Hf2), Hlen. lia.
  - apply repeat_length.
  - apply Forall_forall. intros c Hc. apply list_elem_of_In, repeat_spec in Hc. lia.
  - destruct (after_updates embeddings (dimension embeddings) passes
                (repeat 0 (length embeddings)) centroids0) as [cl' ce'] eqn:Hafter.
    exists centroids0, picks, passes, {| clusters := cl'; centroids := ce' |}, rnd'.
    unfold kMeansClustering, kMeans_run. rewrite Hguard, Hinit. simpl.
    rewrite Hrun. simpl.
    split; [reflexivity|]. split; [reflexivity|]. split; [reflexivity|].
    split; [exact Hpasses|]. split; [|split; [|split; [|split]]].
    + intros i Hi. specialize (Hbefore i Hi).
      now destruct (after_updates embeddings (dimension embeddings) i
                      (repeat 0 (length embeddings)) centroids0).
    + intros Hlt. rewrite Hafter. exact (Hlast Hlt).
    + now rewrite Hafter.
    + exact H2.
    + exact H3.
Qed.

Lemma kMeansClustering_converges_witness :
  exists centroids0 picks passes res rnd',
    init_centroids four_vectors (Nat.min 2 (length four_vectors)) [] [] tape_with_repeat
      = Ok (centroids0, picks, rnd') /\
    kMeansClustering four_vectors 2 default_maxIterations tape_with_repeat = Ok (res, rnd') /\
    kMeans_run four_vectors 2 default_maxIterations tape_with_repeat
      = Ok (repeat true passes ++ (if (passes <? default_maxIterations)%nat then [false] else []),
            res, rnd') /\
    passes <= default_maxIterations /\
    (forall i, i < passes ->
       let '(cl, ce) := after_updates four_vectors (dimension four_vectors) i
                          (repeat 0 (length four_vectors)) centroids0 in
       assign_clusters four_vectors ce <> cl) /\
    (passes < default_maxIterations ->
       let '(cl, ce) := after_updates four_vectors (dimension four_vectors) passes
                          (repeat 0 (length four_vectors)) centroids0 in
       assign_clusters four_vectors ce = cl) /\
    (clusters res, centroids res)
      = after_updates four_vectors (dimension four_vectors) passes
          (repeat 0 (length four_vectors)) centroids0 /\
    length (clusters res) = length four_vectors /\
    Forall (fun c => c < 2) (clusters res).
Proof.
  apply (kMeansClustering_converges four_vectors 2 default_maxIterations tape_with_repeat).
  - simpl. lia.
  - lia.
  - vm_compute. reflexivity.
  - vm_compute. lia.
Defined.

Lemma first_occurrences_skip (seen ds rest : list nat) :
  first_occurrences seen ds = [] ->
  first_occurrences seen (ds ++ rest) = first_occurrences seen rest.
Proof.
  induction ds as [|d ds IH]; intros Hds; simpl in *; [reflexivity|].
  destruct (existsb (Nat.eqb d) seen); [now apply IH | discriminate].
Qed.

(** What [draw_fresh] takes from the tape: values whose indices are all in
    the set, then one value whose index is not. *)
Lemma draw_fresh_consumes (n : nat) (used : list nat) (rnd : tape) (idx : nat) (rnd' : tape) :
  draw_fresh n used rnd = Ok (idx, rnd') ->
  exists skipped r,
    rnd = skipped ++ r :: rnd' /\
    random_index n r = Some idx /\
    existsb (Nat.eqb idx) used = false /\
    first_occurrences used (drawn_indices n skipped) = [].
Proof.
  induction rnd as [|r rnd IH]; simpl; [discriminate|].
  destruct (random_index n r) as [i|] eqn:Hr; [|discriminate].
  destruct (existsb (Nat.eqb i) used) eqn:Hused.
  - intros Hrun. destruct (IH Hrun) as (skipped & r' & -> & Hr' & Hfresh & Hskip).
    exists (r :: skipped), r'. split; [reflexivity|]. split; [exact Hr'|].
    split; [exact Hfresh|].
    unfold drawn_indices in *. simpl. rewrite Hr. simpl. now rewrite Hused.
  - intros Hrun. injection Hrun as <- <-.
    exists [], r. repeat split; assumption.
Qed.

Lemma drawn_indices_app (n : nat) (l1 l2 : tape) :
  drawn_indices n (l1 ++ l2) = drawn_indices n l1 ++ drawn_indices n l2.
Proof. apply omap_app. Qed.

(** What the initialisation loop takes from the tape and adds to the set:
    the first occurrences of the indices drawn, up to the draw that gives the
    last one. *)
Lemma init_centroids_consumes (embeddings : list vec) (count : nat) :
  forall (used : list nat) (cents : list vec) (rnd : tape)
         (cents' : list vec) (used' : list nat) (rnd' : tape),
    init_centroids embeddings count used cents rnd = Ok (cents', used', rnd') ->
    exists consumed,
      rnd = consumed ++ rnd' /\
      used' = used ++ first_occurrences used (drawn_indices (length embeddings) consumed) /\
      length (first_occurrences used (drawn_indices (length embeddings) consumed)) = count /\
      (count = 0 /\ consumed = [] \/
       exists earlier r,
         consumed = earlier ++ [r] /\
         S (length (first_occurrences used (drawn_indices (length embeddings) earlier))) = count).
Proof.
  induction count as [|count IH]; intros used cents rnd cents' used' rnd' Hrun; simpl in Hrun.
  - injection Hrun as <- <- <-. exists []. simpl. rewrite app_nil_r.
    repeat split. now left.
  - destruct (draw_fresh (length embeddings) used rnd) as [[idx rnd1]| |] eqn:Hdraw;
      simpl in Hrun; try discriminate.
    destruct (embeddings !! idx) as [e|]; [|discriminate].
    destruct (draw_fresh_consumes _ _ _ _ _ Hdraw) as (skipped & r & -> & Hr & Hfresh & Hskip).
    destruct (IH _ _ _ _ _ _ Hrun) as (consumed1 & -> & -> & Hlen & Hend).
    assert (Hpicks : forall c1,
               first_occurrences used (drawn_indices (length embeddings) (skipped ++ r :: c1))
               = idx :: first_occurrences (used ++ [idx]) (drawn_indices (length embeddings) c1)).
    { intros c1. rewrite drawn_indices_app, (first_occurrences_skip _ _ _ Hskip).
      unfold drawn_indices. simpl. rewrite Hr. simpl. now rewrite Hfresh. }
    exists (skipped ++ r :: consumed1).
    split; [now rewrite <- app_assoc|].
    rewrite Hpicks. split; [now rewrite <- app_assoc|].
    split; [simpl; now rewrite Hlen|].
    right. destruct Hend as [[-> ->] | (earlier & r1 & -> & Hearlier)].
    + exists skipped, r. split; [reflexivity|]. now rewrite Hskip.
    + exists (skipped ++ r :: earlier), r1.
      split; [now rewrite <- app_assoc|].
      rewrite Hpicks. simpl. now rewrite Hearlier.
Qed.

Lemma first_occurrences_app (seen l1 l2 : list nat) :
  first_occurrences seen (l1 ++ l2) =
  first_occurrences seen l1 ++ first_occurrences (seen ++ first_occurrences seen l1) l2.
Proof.
  revert seen. induction l1 as [|x l1 IH]; intros seen; simpl.
  - now rewrite app_nil_r.
  - destruct (existsb (Nat.eqb x) seen); [apply IH|].
    simpl. rewrite IH, <- app_assoc. reflexivity.
Qed.

(** C5, counterexample: on the one-vector input [[[1]]] with [k = 2] the
    call returns one centroid: there is none at index 1, which is among
    0..k-1. *)
Lemma kMeansClustering_fewer_centroids :
  exists rnd',
    kMeansClustering [[1%float]] 2 default_maxIterations seven_draws
      = Ok ({| clusters := [0]; centroids := [[1%float]] |}, rnd') /\
    [[1%float]] !! 1 = None /\ 1 < 2.
Proof. eexists. split; [vm_compute; reflexivity|]. split; [reflexivity | lia]. Qed.

(** C5, amended: past the guard for empty input, when the random source
    yields indices of the input, [min k n] distinct ones among them,
    [kMeansClustering] takes the values of the tape up to the one that gives
    the [min k n]-th distinct index and no further; the indices it picks are
    the first occurrences among the indices drawn, in the order drawn (an
    index already in the set is drawn again), the first [min k n] distinct
    indices of the whole tape; the initial centroids are the input vectors at
    these indices, and the centroids it returns are [min k n] many, at the
    indices below [min k n] and at no other. *)
Theorem kMeansClustering_initialisation (embeddings : list vec) (k maxIterations : nat) (rnd : tape) :
  dimension embeddings <> 0 ->
  forallb (valid_draw (length embeddings)) rnd = true ->
  Nat.min k (length embeddings) <= length (remove_dups (drawn_indices (length embeddings) rnd)) ->
  exists consumed rnd' picks centroids0 trace res,
    rnd = consumed ++ rnd' /\
    picks = first_occurrences [] (drawn_indices (length embeddings) consumed) /\
    picks = take (Nat.min k (length embeddings))
              (first_occurrences [] (drawn_indices (length embeddings) rnd)) /\
    length picks = Nat.min k (length embeddings) /\
    NoDup picks /\
    (Nat.min k (length embeddings) = 0 /\ consumed = [] \/
     exists earlier r,
       consumed = earlier ++ [r] /\
       length (first_occurrences [] (drawn_indices (length embeddings) earlier))
       < Nat.min k (length embeddings)) /\
    init_centroids embeddings (Nat.min k (length embeddings)) [] [] rnd
      = Ok (centroids0, picks, rnd') /\
    Forall2 (fun idx c => embeddings !! idx = Some c) picks centroids0 /\
    kMeans_loop embeddings (dimension embeddings) maxIterations
      (repeat 0 (length embeddings)) centroids0 = (trace, clusters res, centroids res) /\
    kMeansClustering embeddings k maxIterations rnd = Ok (res, rnd') /\
    length (centroids res) = Nat.min k (length embeddings) /\
    (forall ci, ci < Nat.min k (length embeddings) <-> is_Some (centroids res !! ci)).
Proof.
  intros Hdim Hvalid Henough.
  destruct (init_centroids_from_tape embeddings k rnd Hvalid Henough)
    as (centroids0 & picks & rnd' & Hinit & Hnd & Hlen & Hf2 & _).
  destruct (init_centroids_consumes _ _ _ _ _ _ _ _ Hinit)
    as (consumed & Hrnd & Hpicks & Hcount & Hend).
  simpl in Hpicks.
  destruct (dimension_nonzero embeddings Hdim) as [Hguard Hn].
  assert (Hlen0 : length centroids0 = Nat.min k (length embeddings)).
  { now rewrite <- (Forall2_length _ _ _ Hf2). }
  assert (Hfinal : forall fuel cl ce,
             length (kMeans_loop embeddings (dimension embeddings) fuel cl ce).2 = length ce).
  { induction fuel as [|fuel IH]; intros cl ce; simpl; [reflexivity|].
    destruct (assignment_changed _ _); [|reflexivity].
    specialize (IH (assign_clusters embeddings ce)
                   (update_centroids embeddings (assign_clusters embeddings ce)
                      (dimension embeddings) ce)).
    destruct (kMeans_loop _ _ fuel _ _) as [[tr cl'] ce']. simpl in *.
    now rewrite IH, update_centroids_length. }
  specialize (Hfinal maxIterations (repeat 0 (length embeddings)) centroids0).
  unfold kMeansClustering, kMeans_run. rewrite Hguard, Hinit. simpl.
  destruct (kMeans_loop embeddings (dimension embeddings) maxIterations
              (repeat 0 (length embeddings)) centroids0) as [[trace cl'] ce'] eqn:Hloop.
  simpl in Hfinal.
  exists consumed, rnd', picks, centroids0, trace, {| clusters := cl'; centroids := ce' |}.
  simpl.
  split; [exact Hrnd|]. split; [exact Hpicks|].
  split.
  { rewrite Hrnd, drawn_indices_app, first_occurrences_app. simpl.
    rewrite <- Hpicks, <- Hlen. now rewrite take_app_length. }
  split; [exact Hlen|]. split; [exact Hnd|].
  split.
  { destruct Hend as [Hzero | (earlier & r & Hc & He)]; [now left | right].
    exists earlier, r. split; [exact Hc | lia]. }
  split; [reflexivity|]. split; [exact Hf2|]. split; [exact Hloop|].
  split; [reflexivity|]. split; [congruence|].
  intros ci. rewrite lookup_lt_is_Some. lia.
Qed.

Lemma kMeansClustering_initialisation_witness :
  exists consumed rnd' picks centroids0 trace res,
    tape_with_repeat = consumed ++ rnd' /\
    picks = first_occurrences [] (drawn_indices (length four_vectors) consumed) /\
    picks = take (Nat.min 7 (length four_vectors))
              (first_occurrences [] (drawn_indices (length four_vectors) tape_with_repeat)) /\
    length picks = Nat.min 7 (length four_vectors) /\
    NoDup picks /\
    (Nat.min 7 (length four_vectors) = 0 /\ consumed = [] \/
     exists earlier r,
       consumed = earlier ++ [r] /\
       length (first_occurrences [] (drawn_indices (length four_vectors) earlier))
       < Nat.min 7 (length four_vectors)) /\
    init_centroids four_vectors (Nat.min 7 (length four_vectors)) [] [] tape_with_repeat
      = Ok (centroids0, picks, rnd') /\
    Forall2 (fun idx c => four_vectors !! idx = Some c) picks centroids0 /\
    kMeans_loop four_vectors (dimension four_vectors) 3
      (repeat 0 (length four_vectors)) centroids0 = (trace, clusters res, centroids res) /\
    kMeansClustering four_vectors 7 3 tape_with_repeat = Ok (res, rnd') /\
    length (centroids res) = Nat.min 7 (length four_vectors) /\
    (forall ci, ci < Nat.min 7 (length four_vectors) <-> is_Some (centroids res !! ci)).
Proof.
  apply (kMeansClustering_initialisation four_vectors 7 3 tape_with_repeat).
  - simpl. lia.
  - vm_compute. reflexivity.
  - vm_compute. lia.
Defined.

(** *** The centroid update *)

Lemma filter_i_none {A : Type} (p : A -> nat -> bool) (l : list A) (i : nat) :
  (forall x j, p x j = false) -> filter_i p l i = [].
Proof.
  intros Hp. revert i. induction l as [|x l IH]; intros i; simpl; [reflexivity|].
  now rewrite Hp.
Qed.

Lemma cluster_points_unassigned (embeddings : list vec) (cl : list nat) (ci : nat) :
  ci ∉ cl -> cluster_points embeddings cl ci = [].
Proof.
  intros Hci. apply filter_i_none. intros _ j.
  destruct (cl !! j) as [c|] eqn:Hc; [|reflexivity].
  apply Nat.eqb_neq. intros ->. apply Hci. eapply list_elem_of_lookup_2, Hc.
Qed.

Lemma update_centroid_unassigned (embeddings : list vec) (cl : list nat) (dim : nat)
    (old : vec) (ci : nat) :
  ci ∉ cl -> update_centroid embeddings cl dim old ci = old.
Proof.
  intros Hci. unfold update_centroid. now rewrite cluster_points_unassigned.
Qed.

Lemma add_point_length (acc point : vec) :
  length acc = length point -> length (add_point acc point) = length acc.
Proof.
  revert acc. induction point as [|v point IH]; intros [|c acc] Hlen; simpl in *;
    try reflexivity; try discriminate.
  injection Hlen as Hlen. now rewrite IH.
Qed.

Lemma sum_points_length (dim : nat) (points : list vec) :
  Forall (fun p => length p = dim) points -> length (sum_points dim points) = dim.
Proof.
  intros Hpts. unfold sum_points.
  assert (Hgen : forall acc, length acc = dim -> length (fold_left add_point points acc) = dim).
  { induction Hpts as [|p points Hp Hpts IH]; intros acc Hacc; simpl; [exact Hacc|].
    apply IH. rewrite add_point_length; congruence. }
  apply Hgen, repeat_length.
Qed.

Lemma update_centroid_length (embeddings : list vec) (cl : list nat) (dim : nat)
    (old : vec) (ci : nat) :
  Forall (fun e => length e = dim) embeddings -> length old = dim ->
  length (update_centroid embeddings cl dim old ci) = dim.
Proof.
  intros Hemb Hold. unfold update_centroid.
  destruct (length (cluster_points embeddings cl ci) =? 0); [exact Hold|].
  rewrite length_map. apply sum_points_length.
  unfold cluster_points. now apply filter_i_Forall.
Qed.

Lemma update_centroids_dimension (embeddings : list vec) (cl : list nat) (dim : nat)
    (cents : list vec) :
  Forall (fun e => length e = dim) embeddings ->
  Forall (fun c => length c = dim) cents ->
  Forall (fun c => length c = dim) (update_centroids embeddings cl dim cents).
Proof.
  intros Hemb Hcents. unfold update_centroids. apply map_i_Forall.
  intros old ci Hold. apply update_centroid_length; [exact Hemb|].
  rewrite Forall_forall in Hcents. now apply Hcents.
Qed.

Lemma kMeans_loop_dimension (embeddings : list vec) (dim fuel : nat) (cl : list nat)
    (cents : list vec) :
  Forall (fun e => length e = dim) embeddings ->
  Forall (fun c => length c = dim) cents ->
  Forall (fun c => length c = dim) (kMeans_loop embeddings dim fuel cl cents).2.
Proof.
  intros Hemb. revert cl cents. induction fuel as [|fuel IH]; intros cl cents Hcents; simpl;
    [exact Hcents|].
  destruct (assignment_changed _ _); [|exact Hcents].
  specialize (IH (assign_clusters embeddings cents)
                 (update_centroids embeddings (assign_clusters embeddings cents) dim cents)
                 (update_centroids_dimension _ _ _ _ Hemb Hcents)).
  now destruct (kMeans_loop embeddings dim fuel _ _) as [[tr cl'] ce'].
Qed.

Lemma init_centroids_Forall (P : vec -> Prop) (embeddings : list vec) (count : nat) :
  Forall P embeddings ->
  forall used cents rnd cents' used' rnd',
    Forall P cents ->
    init_centroids embeddings count used cents rnd = Ok (cents', used', rnd') ->
    Forall P cents'.
Proof.
  intros Hemb. induction count as [|count IH]; intros used cents rnd cents' used' rnd' Hc Hrun;
    simpl in Hrun.
  - now injection Hrun as <- _ _.
  - destruct (draw_fresh (length embeddings) used rnd) as [[idx rnd1]| |]; simpl in Hrun;
      try discriminate.
    destruct (embeddings !! idx) as [e|] eqn:He; [|discriminate].
    eapply IH; [|exact Hrun].
    apply Forall_app. split; [exact Hc|]. constructor; [|constructor].
    rewrite Forall_forall in Hemb. apply Hemb. eapply list_elem_of_lookup_2, He.
Qed.

Lemma add_point_length_ge (acc point : vec) :
  length acc <= length (add_point acc point).
Proof.
  revert acc. induction point as [|v point IH]; intros [|c acc]; simpl; try lia.
  specialize (IH acc). lia.
Qed.

Lemma sum_points_length_ge (dim : nat) (points : list vec) :
  dim <= length (sum_points dim points).
Proof.
  unfold sum_points.
  assert (Hgen : forall acc, length acc <= length (fold_left add_point points acc)).
  { induction points as [|p points IH]; intros acc; simpl; [lia|].
    specialize (IH (add_point acc p)). pose proof (add_point_length_ge acc p). lia. }
  specialize (Hgen (repeat 0%float dim)). now rewrite repeat_length in Hgen.
Qed.

Lemma update_centroid_nonempty (embeddings : list vec) (cl : list nat) (dim : nat)
    (old : vec) (ci : nat) :
  dim <> 0 -> old <> [] -> update_centroid embeddings cl dim old ci <> [].
Proof.
  intros Hdim Hold. unfold update_centroid.
  destruct (length (cluster_points embeddings cl ci) =? 0); [exact Hold|].
  intros Hnil. apply (f_equal length) in Hnil. rewrite length_map in Hnil.
  pose proof (sum_points_length_ge dim (cluster_points embeddings cl ci)).
  simpl in Hnil. lia.
Qed.

Lemma update_centroids_nonempty (embeddings : list vec) (cl : list nat) (dim : nat)
    (cents : list vec) :
  dim <> 0 -> Forall (fun c => c <> []) cents ->
  Forall (fun c => c <> []) (update_centroids embeddings cl dim cents).
Proof.
  intros Hdim Hcents. unfold update_centroids. apply map_i_Forall.
  intros old ci Hold. apply update_centroid_nonempty; [exact Hdim|].
  rewrite Forall_forall in Hcents. now apply Hcents.
Qed.

Lemma kMeans_loop_nonempty (embeddings : list vec) (dim fuel : nat) (cl : list nat)
    (cents : list vec) :
  dim <> 0 -> Forall (fun c => c <> []) cents ->
  Forall (fun c => c <> []) (kMeans_loop embeddings dim fuel cl cents).2.
Proof.
  intros Hdim. revert cl cents. induction fuel as [|fuel IH]; intros cl cents Hcents; simpl;
    [exact Hcents|].
  destruct (assignment_changed _ _); [|exact Hcents].
  specialize (IH (assign_clusters embeddings cents)
                 (update_centroids embeddings (assign_clusters embeddings cents) dim cents)
                 (update_centroids_nonempty _ _ _ _ Hdim Hcents)).
  now destruct (kMeans_loop embeddings dim fuel _ _) as [[tr cl'] ce'].
Qed.

(** C4: in a centroid-update pass a centroid to which the assignment gives no
    vector keeps its previous value, and a centroid that is recomputed is the
    sum of a non-empty set of vectors divided by their number: no average of
    an empty set is ever taken.  A pass leaves no centroid empty, and on
    non-empty vectors no centroid returned is empty. *)
Theorem empty_cluster_keeps_centroid :
  (forall (embeddings : list vec) (cl : list nat) (dim : nat) (cents : list vec)
          (ci : nat) (old : vec),
      cents !! ci = Some old -> ci ∉ cl ->
      update_centroids embeddings cl dim cents !! ci = Some old) /\
  (forall (embeddings : list vec) (cl : list nat) (dim : nat) (old : vec) (ci : nat),
      let points := cluster_points embeddings cl ci in
      (points = [] /\ update_centroid embeddings cl dim old ci = old) \/
      (0 < length points /\
       update_centroid embeddings cl dim old ci =
       map (fun val => (val / float_of_nat (length points))%float) (sum_points dim points))) /\
  (forall (embeddings : list vec) (cl : list nat) (dim : nat) (cents : list vec),
      dim <> 0 ->
      Forall (fun c => c <> []) cents ->
      Forall (fun c => c <> []) (update_centroids embeddings cl dim cents)) /\
  (forall (embeddings : list vec) (k maxIterations : nat) (rnd : tape)
          (trace : list bool) (res : KMeans) (rnd' : tape),
      Forall (fun e => e <> []) embeddings ->
      kMeans_run embeddings k maxIterations rnd = Ok (trace, res, rnd') ->
      Forall (fun c => c <> []) (centroids res)).
Proof.
  split; [|split; [|split]].
  - intros embeddings cl dim cents ci old Hold Hci.
    unfold update_centroids. rewrite (map_i_lookup _ _ 0 ci old Hold). simpl.
    now rewrite update_centroid_unassigned.
  - intros embeddings cl dim old ci points. unfold update_centroid. fold points.
    destruct points as [|p points']; [left | right]; simpl; split; reflexivity || lia.
  - exact update_centroids_nonempty.
  - intros embeddings k maxIterations rnd trace res rnd' Hemb Hrun.
    unfold kMeans_run in Hrun.
    destruct ((length embeddings =? 0) || (dimension embeddings =? 0))%bool eqn:Hguard.
    + injection Hrun as _ <- _. constructor.
    + destruct (init_centroids embeddings _ [] [] rnd) as [[[c0 used] rnd1]| |] eqn:Hinit;
        simpl in Hrun; try discriminate.
      apply orb_false_iff in Hguard as [_ Hdim]. apply Nat.eqb_neq in Hdim.
      pose proof (kMeans_loop_nonempty embeddings (dimension embeddings) maxIterations
                    (repeat 0 (length embeddings)) c0 Hdim) as Hloop.
      destruct (kMeans_loop _ _ _ _ c0) as [[tr cl'] ce'].
      injection Hrun as _ <- _. simpl in *.
      apply Hloop.
      eapply (init_centroids_Forall _ embeddings); [exact Hemb | | exact Hinit].
      constructor.
Qed.

Lemma empty_cluster_keeps_centroid_witness :
  update_centroids four_vectors [0; 0; 0; 0] 2 [[1; 0]; [0; 1]]%float !! 1
    = Some [0; 1]%float /\
  Forall (fun c => c <> [])
         (update_centroids four_vectors [0; 0; 1; 1] 2 [[1; 0]; [0; 1]]%float) /\
  Forall (fun c => c <> []) [[0.875; 0.125]; [0.125; 0.875]]%float.
Proof.
  destruct empty_cluster_keeps_centroid as (Hkeep & _ & Hpass & Hrun).
  split; [|split].
  - apply Hkeep; [reflexivity|].
    intros Hin. repeat (apply elem_of_cons in Hin as [Hin | Hin]; [discriminate|]).
    inversion Hin.
  - apply Hpass; [discriminate|]. repeat constructor; discriminate.
  - apply (Hrun four_vectors 2 default_maxIterations tape_with_repeat
             [true; false]
             {| clusters := [0; 0; 1; 1]; centroids := [[0.875; 0.125]; [0.125; 0.875]]%float |}
             [0.25; 0.5; 0.75; 0.375]%float).
    + repeat constructor; discriminate.
    + vm_compute. reflexivity.
Defined.

(** C6: [kMeansClustering] on an empty list, or on a list whose first vector
    is empty (as on vectors of dimension 0), returns empty clusters and empty
    centroids and draws nothing; [embedTo3D] on an empty list returns an empty
    list.  No error is raised. *)
Theorem empty_input_safe :
  (forall (k maxIterations : nat) (rnd : tape),
      kMeansClustering [] k maxIterations rnd
        = Ok ({| clusters := []; centroids := [] |}, rnd)) /\
  (forall (embeddings : list vec) (k maxIterations : nat) (rnd : tape),
      dimension embeddings = 0 ->
      kMeansClustering embeddings k maxIterations rnd
        = Ok ({| clusters := []; centroids := [] |}, rnd)) /\
  (forall rnd : tape, embedTo3D [] rnd = Ok ([], rnd)).
Proof.
  split; [|split].
  - reflexivity.
  - intros embeddings k maxIterations rnd Hdim.
    unfold kMeansClustering, kMeans_run. rewrite Hdim. simpl.
    now rewrite orb_true_r.
  - reflexivity.
Qed.

Lemma empty_input_safe_witness :
  kMeansClustering [[]; []] 3 default_maxIterations []
    = Ok ({| clusters := []; centroids := [] |}, []).
Proof.
  destruct empty_input_safe as (_ & Hzero & _).
  apply Hzero. reflexivity.
Defined.

(** ** embedTo3D *)

Lemma random_vector_eq (dim : nat) (rnd : tape) :
  random_vector dim rnd =
  if (dim <=? length rnd)%nat
  then Ok (map projection_component (take dim rnd), drop dim rnd)
  else Pending.
Proof.
  revert rnd. induction dim as [|dim IH]; intros rnd; simpl.
  - now rewrite drop_0.
  - destruct rnd as [|r rnd]; [reflexivity|]. simpl. rewrite IH.
    now destruct (dim <=? length rnd)%nat.
Qed.

Lemma draw_projection_eq (dim : nat) (rnd : tape) :
  draw_projection dim rnd =
  if (3 * dim <=? length rnd)%nat
  then Ok (basis_of_draws dim rnd, drop (3 * dim) rnd)
  else Pending.
Proof.
  unfold draw_projection, basis_of_draws.
  rewrite !random_vector_eq.
  remember (3 * dim) as d3 eqn:Hd3. remember (2 * dim) as d2 eqn:Hd2.
  destruct (Nat.leb_spec dim (length rnd)) as [H1 | H1]; simpl.
  2: { destruct (Nat.leb_spec d3 (length rnd)); [lia | reflexivity]. }
  rewrite random_vector_eq, length_drop.
  destruct (Nat.leb_spec dim (length rnd - dim)) as [H2 | H2]; simpl.
  2: { destruct (Nat.leb_spec d3 (length rnd)); [lia | reflexivity]. }
  rewrite random_vector_eq, !length_drop.
  destruct (Nat.leb_spec dim (length rnd - dim - dim)) as [H3 | H3]; simpl.
  2: { destruct (Nat.leb_spec d3 (length rnd)); [lia | reflexivity]. }
  destruct (Nat.leb_spec d3 (length rnd)); [|lia].
  rewrite !drop_drop.
  replace (dim + dim) with d2 by lia.
  replace (d2 + dim) with d3 by lia.
  reflexivity.
Qed.

Lemma embedTo3D_run_eq (e0 : vec) (rest : list vec) (rnd : tape) :
  embedTo3D_run (e0 :: rest) rnd =
  if (3 * length e0 <=? length rnd)%nat
  then Ok (Some (basis_of_draws (length e0) rnd),
           map (project_point (basis_of_draws (length e0) rnd)) (e0 :: rest),
           drop (3 * length e0) rnd)
  else Pending.
Proof.
  unfold embedTo3D_run. rewrite draw_projection_eq.
  now destruct (3 * length e0 <=? length rnd)%nat.
Qed.

(** The dot product of an all-zero vector with finite numbers is positive
    zero. *)
Lemma reduce_dot_zeros (emb p : vec) :
  Forall is_zero emb -> Forall (fun w => is_finite w = true) p ->
  length emb <= length p ->
  reduce_dot emb p 0%float = 0%float.
Proof.
  intros Hemb. revert p. induction Hemb as [|val emb Hval Hemb IH]; intros p Hp Hlen;
    [reflexivity|].
  destruct Hp as [|w p Hw Hp]; simpl in *; [lia|].
  change (@nadd float float_arith) with PrimFloat.add.
  change (@nmul float float_arith) with PrimFloat.mul.
  rewrite (zero_add_zero (val * w)) by now apply zero_mul_finite.
  apply IH; [exact Hp | lia].
Qed.

Lemma project_point_zeros (b : Basis) (emb : vec) :
  Forall is_zero emb -> finite_basis b ->
  length emb <= length (row0 b) -> length emb <= length (row1 b) ->
  length emb <= length (row2 b) ->
  project_point b emb = {| px := 0; py := 0; pz := 0 |}.
Proof.
  intros Hemb (H0 & H1 & H2) L0 L1 L2. unfold project_point, coordinate.
  change (@nzero float float_arith) with 0%float.
  now rewrite !reduce_dot_zeros.
Qed.

Lemma basis_of_draws_finite (dim : nat) (rnd : tape) :
  Forall (fun r => is_finite (projection_component r) = true) rnd ->
  finite_basis (basis_of_draws dim rnd).
Proof.
  intros Hrnd. unfold finite_basis, basis_of_draws. simpl.
  repeat split; apply Forall_map; repeat (apply Forall_take || apply Forall_drop); exact Hrnd.
Qed.

Lemma basis_of_draws_rows (dim : nat) (rnd : tape) :
  3 * dim <= length rnd ->
  length (row0 (basis_of_draws dim rnd)) = dim /\
  length (row1 (basis_of_draws dim rnd)) = dim /\
  length (row2 (basis_of_draws dim rnd)) = dim.
Proof.
  intros Hlen. unfold basis_of_draws. simpl.
  rewrite !length_map, !length_take, !length_drop. lia.
Qed.

Lemma lookup_map {A B : Type} (f : A -> B) (l : list A) (i : nat) (x : A) :
  l !! i = Some x -> map f l !! i = Some (f x).
Proof.
  revert i. induction l as [|y l IH]; intros [|i] Hi; simpl in *; try discriminate.
  - now injection Hi as ->.
  - now apply IH.
Qed.

Lemma mul_nan (x : float) : (x * nan = nan)%float.
Proof.
  apply float_of_spec_nan. rewrite FloatAxioms.mul_spec.
  change (Prim2SF nan) with S754_nan. now destruct (Prim2SF x).
Qed.

Lemma add_nan (x : float) : (x + nan = nan)%float.
Proof.
  apply float_of_spec_nan. rewrite FloatAxioms.add_spec.
  change (Prim2SF nan) with S754_nan. now destruct (Prim2SF x).
Qed.

(** Once the sum is NaN it stays NaN. *)
Lemma reduce_dot_nan (emb p : vec) : reduce_dot emb p nan = nan.
Proof.
  revert p. induction emb as [|val emb IH]; intros p; [reflexivity|].
  destruct p as [|w p]; simpl;
    change (@nadd float float_arith) with PrimFloat.add; now rewrite nan_add.
Qed.

(** A vector longer than the projection vector meets an undefined component,
    and the sum is NaN. *)
Lemma reduce_dot_past_end (emb p : vec) (sum : float) :
  length p < length emb -> reduce_dot emb p sum = nan.
Proof.
  revert p sum. induction emb as [|val emb IH]; intros p sum Hlen; simpl in *; [lia|].
  destruct p as [|w p]; simpl in *.
  - change (@nadd float float_arith) with PrimFloat.add.
    change (@nmul float float_arith) with PrimFloat.mul.
    change (@nundef float float_arith) with nan.
    rewrite mul_nan, add_nan. apply reduce_dot_nan.
  - apply IH. lia.
Qed.

Lemma project_point_past_end (b : Basis) (emb : vec) :
  length (row0 b) < length emb -> length (row1 b) < length emb ->
  length (row2 b) < length emb ->
  project_point b emb = {| px := nan; py := nan; pz := nan |}.
Proof.
  intros L0 L1 L2. unfold project_point, coordinate.
  now rewrite !reduce_dot_past_end.
Qed.

(** Within the projection vector the reduction is the sum of the products. *)
Lemma reduce_dot_sum_products (emb p : vec) (sum : float) :
  length emb <= length p -> reduce_dot emb p sum = sum_products emb p sum.
Proof.
  revert p sum. induction emb as [|val emb IH]; intros p sum Hlen; [reflexivity|].
  destruct p as [|w p]; simpl in *; [lia|]. apply IH. lia.
Qed.

(** C10, counterexample: with the draws 0.1, 0.7 and 0.3 the vectors [[1]],
    [[2]] and [[3]] of one call map to x-coordinates -40, -80 and
    -120.00000000000001.  The third vector is the sum of the first two and
    three times the first, and its x-coordinate is neither the sum of theirs
    nor three times the first one's, which are both -120. *)
Lemma embedTo3D_not_linear :
  exists p1 p2 p3 rnd',
    embedTo3D [[1]; [2]; [3]]%float decimal_draws = Ok ([p1; p2; p3], rnd') /\
    zip_with PrimFloat.add [1]%float [2]%float = [3]%float /\
    map (PrimFloat.mul 3) [1]%float = [3]%float /\
    px p1 = (-40)%float /\ px p2 = (-80)%float /\
    px p3 = (-0x1.e000000000001p+6)%float /\
    (px p1 + px p2 = -120)%float /\ (3 * px p1 = -120)%float /\
    (px p3 =? px p1 + px p2)%float = false /\
    (px p3 =? 3 * px p1)%float = false.
Proof.
  eexists _, _, _, _. split; [vm_compute; reflexivity|].
  repeat split; reflexivity.
Qed.

(** C10, amended: a call of [embedTo3D] on a non-empty list draws [3 * dim]
    values, [dim] being the length of the first vector, builds one projection
    from them and maps every input vector through it, so the output has the
    length of the input.  For a vector no longer than the first one (as every
    vector of an equal-dimension list is) each coordinate is the binary64
    number [(0 + v[0] * p[0] + v[1] * p[1] + ...) * 50], the sum taken from
    left to right with one projection vector [p], and an all-zero such vector
    maps to exactly (0, 0, 0) whatever finite components were drawn.  A
    vector longer than the first one maps to (NaN, NaN, NaN). *)
Theorem embedTo3D_one_projection :
  (forall (e0 : vec) (rest : list vec) (rnd : tape),
      3 * length e0 <= length rnd ->
      let projection := basis_of_draws (length e0) rnd in
      embedTo3D (e0 :: rest) rnd
        = Ok (map (project_point projection) (e0 :: rest), drop (3 * length e0) rnd)) /\
  (forall (embeddings : list vec) (rnd : tape) (out : list Point3) (rnd' : tape),
      embedTo3D embeddings rnd = Ok (out, rnd') ->
      length out = length embeddings /\
      exists projection, out = map (project_point projection) embeddings) /\
  (forall (projection : Basis) (emb : vec),
      project_point projection emb =
      {| px := (reduce_dot emb (row0 projection) 0 * 50)%float;
         py := (reduce_dot emb (row1 projection) 0 * 50)%float;
         pz := (reduce_dot emb (row2 projection) 0 * 50)%float |}) /\
  (forall (embeddings : list vec) (rnd : tape) (out : list Point3) (rnd' : tape)
          (i : nat) (emb : vec),
      embedTo3D embeddings rnd = Ok (out, rnd') ->
      embeddings !! i = Some emb ->
      length emb <= dimension embeddings ->
      let projection := basis_of_draws (dimension embeddings) rnd in
      out !! i = Some {| px := (sum_products emb (row0 projection) 0 * 50)%float;
                         py := (sum_products emb (row1 projection) 0 * 50)%float;
                         pz := (sum_products emb (row2 projection) 0 * 50)%float |}) /\
  (forall (embeddings : list vec) (rnd : tape) (out : list Point3) (rnd' : tape)
          (i : nat) (emb : vec),
      embedTo3D embeddings rnd = Ok (out, rnd') ->
      Forall (fun r => is_finite (projection_component r) = true) rnd ->
      embeddings !! i = Some emb ->
      Forall is_zero emb ->
      length emb <= dimension embeddings ->
      out !! i = Some {| px := 0; py := 0; pz := 0 |}) /\
  (forall (embeddings : list vec) (rnd : tape) (out : list Point3) (rnd' : tape)
          (i : nat) (emb : vec),
      embedTo3D embeddings rnd = Ok (out, rnd') ->
      embeddings !! i = Some emb ->
      dimension embeddings < length emb ->
      out !! i = Some {| px := nan; py := nan; pz := nan |}).
Proof.
  split; [|split; [|split; [|split; [|split]]]].
  - intros e0 rest rnd Hlen projection. unfold embedTo3D.
    rewrite embedTo3D_run_eq.
    destruct (Nat.leb_spec (3 * length e0) (length rnd)); [reflexivity | lia].
  - intros embeddings rnd out rnd' Hrun. unfold embedTo3D in Hrun.
    destruct embeddings as [|e0 rest].
    + injection Hrun as <- _. split; [reflexivity|].
      exists {| row0 := []; row1 := []; row2 := [] |}. reflexivity.
    + rewrite embedTo3D_run_eq in Hrun.
      destruct (3 * length e0 <=? length rnd)%nat; [|discriminate].
      injection Hrun as <- _. split; [simpl; now rewrite length_map|]. eauto.
  - reflexivity.
  - intros embeddings rnd out rnd' i emb Hrun Hi Hlen projection.
    unfold embedTo3D in Hrun.
    destruct embeddings as [|e0 rest]; [discriminate|].
    rewrite embedTo3D_run_eq in Hrun.
    destruct (Nat.leb_spec (3 * length e0) (length rnd)) as [Hdraws|]; [|discriminate].
    assert (Hout : out = map (project_point (basis_of_draws (length e0) rnd)) (e0 :: rest))
      by now injection Hrun.
    rewrite Hout, (lookup_map _ _ i emb Hi). f_equal.
    destruct (basis_of_draws_rows (length e0) rnd Hdraws) as (R0 & R1 & R2).
    simpl in Hlen. unfold projection, project_point, coordinate. simpl dimension.
    change (@nzero float float_arith) with 0%float.
    change (@nmul float float_arith) with PrimFloat.mul.
    rewrite !reduce_dot_sum_products by lia. reflexivity.
  - intros embeddings rnd out rnd' i emb Hrun Hfin Hi Hzero Hlen.
    unfold embedTo3D in Hrun.
    destruct embeddings as [|e0 rest]; [discriminate|].
    rewrite embedTo3D_run_eq in Hrun.
    destruct (Nat.leb_spec (3 * length e0) (length rnd)) as [Hdraws|]; [|discriminate].
    assert (Hout : out = map (project_point (basis_of_draws (length e0) rnd)) (e0 :: rest))
      by now injection Hrun.
    rewrite Hout, (lookup_map _ _ i emb Hi). f_equal.
    destruct (basis_of_draws_rows (length e0) rnd Hdraws) as (R0 & R1 & R2).
    simpl in Hlen.
    apply project_point_zeros; [exact Hzero | now apply basis_of_draws_finite | lia..].
  - intros embeddings rnd out rnd' i emb Hrun Hi Hlen.
    unfold embedTo3D in Hrun.
    destruct embeddings as [|e0 rest]; [discriminate|].
    rewrite embedTo3D_run_eq in Hrun.
    destruct (Nat.leb_spec (3 * length e0) (length rnd)) as [Hdraws|]; [|discriminate].
    assert (Hout : out = map (project_point (basis_of_draws (length e0) rnd)) (e0 :: rest))
      by now injection Hrun.
    rewrite Hout, (lookup_map _ _ i emb Hi). f_equal.
    destruct (basis_of_draws_rows (length e0) rnd Hdraws) as (R0 & R1 & R2).
    simpl in Hlen.
    apply project_point_past_end; lia.
Qed.

Lemma embedTo3D_one_projection_witness :
  embedTo3D [[1; 2]; [0; -0]]%float seven_draws
    = Ok (map (project_point (basis_of_draws 2 seven_draws)) [[1; 2]; [0; -0]]%float,
          drop 6 seven_draws) /\
  (map (project_point (basis_of_draws 2 seven_draws)) [[1; 2]; [0; -0]]%float) !! 0
    = Some {| px := ((0 + 1 * -0.75 + 2 * -0.5) * 50)%float;
              py := ((0 + 1 * 0 + 2 * 0.5) * 50)%float;
              pz := ((0 + 1 * 0.25 + 2 * 0.75) * 50)%float |} /\
  (map (project_point (basis_of_draws 2 seven_draws)) [[1; 2]; [0; -0]]%float) !! 1
    = Some {| px := 0; py := 0; pz := 0 |} /\
  (map (project_point (basis_of_draws 1 seven_draws)) [[1]; [0; 0]]%float) !! 1
    = Some {| px := nan; py := nan; pz := nan |}.
Proof.
  destruct embedTo3D_one_projection as (Hrun & _ & _ & Hsum & Hzero & Hnan).
  split; [|split; [|split]].
  - apply (Hrun [1; 2]%float [[0; -0]%float] seven_draws). simpl. lia.
  - apply (Hsum [[1; 2]; [0; -0]]%float seven_draws _ (drop 6 seven_draws) 0 [1; 2]%float).
    + reflexivity.
    + reflexivity.
    + simpl. lia.
  - apply (Hzero [[1; 2]; [0; -0]]%float seven_draws _ (drop 6 seven_draws) 1 [0; -0]%float).
    + reflexivity.
    + repeat constructor.
    + reflexivity.
    + repeat constructor; (left; reflexivity) || (right; reflexivity).
    + simpl. lia.
  - apply (Hnan [[1]; [0; 0]]%float seven_draws _ (drop 3 seven_draws) 1 [0; 0]%float).
    + reflexivity.
    + reflexivity.
    + simpl. lia.
Defined.

(** ** The clustering step of the ingestion route *)





(** ** generateClusterLabel *)

(** Once the provider has answered, [generateClusterLabel] returns a label:
    everything that can raise sits inside the [try] block. *)
Lemma generateClusterLabel_returns
    (JSON_parse : string -> option jsval)
    (create_completion : string -> result ChatCompletion)
    (postContents : list string) (response : ChatCompletion) :
  create_completion (sample_posts postContents) = Ok response ->
  generateClusterLabel JSON_parse create_completion postContents
    = Ok (label_of_response JSON_parse response).
Proof. intros Hresp. unfold generateClusterLabel. now rewrite Hresp. Qed.

(** C8, counterexample: to an answer that parses to an object without a name,
    [generateClusterLabel] returns the description of the answer, not the
    empty one; to an answer whose name is the number 7 it returns the name 7,
    not ["Uncategorized"]. *)
Lemma malformed_output_not_defaulted :
  generateClusterLabel sample_parse
    (fun _ => Ok {| choices := [Some description_only] |}) ["a"; "b"]%string
  = Ok {| label_name := JStr "Uncategorized"; label_description := JStr "about cats" |} /\
  JStr "about cats" <> JStr "" /\
  generateClusterLabel sample_parse
    (fun _ => Ok {| choices := [Some numeric_name] |}) ["a"; "b"]%string
  = Ok {| label_name := JNum 7; label_description := JStr "" |} /\
  JNum 7 <> JStr "Uncategorized".
Proof. repeat split; (reflexivity || discriminate). Qed.

(** C8, amended: once the provider has answered, [generateClusterLabel]
    raises nothing.  It returns the name ["Uncategorized"] with the empty
    description when the answer has no choice, when its text (["{}"] for a
    null or empty one) does not parse, and when it parses to anything but an
    object.  When the text parses to an object each field is defaulted on its
    own: the name returned is the [name] of the object when that is truthy,
    whatever its type, and ["Uncategorized"] otherwise; the description
    returned is the [description] of the object when that is truthy, and the
    empty string otherwise. *)
Theorem malformed_output_falls_back
    (JSON_parse : string -> option jsval)
    (create_completion : string -> result ChatCompletion)
    (postContents : list string) (response : ChatCompletion) :
  create_completion (sample_posts postContents) = Ok response ->
  generateClusterLabel JSON_parse create_completion postContents =
  Ok match first_text response with
     | None => fallback_label
     | Some text =>
         match JSON_parse text with
         | Some (JObj props) =>
             {| label_name :=
                  if truthy (field "name" props) then field "name" props
                  else JStr "Uncategorized";
                label_description :=
                  if truthy (field "description" props) then field "description" props
                  else JStr "" |}
         | Some _ | None => fallback_label
         end
     end.
Proof.
  intros Hresp.
  rewrite (generateClusterLabel_returns _ _ _ response Hresp). f_equal.
  unfold label_of_response, parse_label, first_text.
  destruct (choices response) as [|content rest]; [reflexivity|].
  match goal with |- context [JSON_parse ?t] => destruct (JSON_parse t) as [parsed|] end;
    [|reflexivity].
  now destruct parsed.
Qed.

Lemma malformed_output_falls_back_witness :
  generateClusterLabel toy_parse
    (fun _ => Ok {| choices := [Some "Sorry, no JSON today"%string] |})
    ["a"; "b"]%string
  = Ok fallback_label /\
  generateClusterLabel sample_parse
    (fun _ => Ok {| choices := [Some numeric_name] |}) ["a"; "b"]%string
  = Ok {| label_name := JNum 7; label_description := JStr "" |}.
Proof.
  split.
  - apply (malformed_output_falls_back toy_parse _ _
             {| choices := [Some "Sorry, no JSON today"%string] |}).
    reflexivity.
  - apply (malformed_output_falls_back sample_parse _ _
             {| choices := [Some numeric_name] |}).
    reflexivity.
Defined.

(** ** kMeansClustering over the heap *)

Lemma prefix_insert_beyond (h0 h : heap) (l : loc) (o : object) :
  h0 `prefix_of` h -> length h0 <= l -> h0 `prefix_of` <[l := o]> h.
Proof.
  intros [k ->] Hl. exists (<[l - length h0 := o]> k).
  now apply insert_app_r_alt.
Qed.

Section Frame.
Variable h0 : heap.

Lemma frame_ret {A : Type} (a : A) (Q : A -> Prop) : Q a -> frame h0 (mret a) Q.
Proof. intros HQ h Hh. split; [exact Hh|]. intros a' [= <-]. exact HQ. Qed.

Lemma frame_throw {A : Type} (e : error) (Q : A -> Prop) : frame h0 (throw e) Q.
Proof. intros h Hh. split; [exact Hh | discriminate]. Qed.

Lemma frame_pending {A : Type} (Q : A -> Prop) : frame h0 pending Q.
Proof. intros h Hh. split; [exact Hh | discriminate]. Qed.

Lemma frame_bind {A B : Type} (m : M A) (f : A -> M B) (Q : A -> Prop) (R : B -> Prop) :
  frame h0 m Q -> (forall a, Q a -> frame h0 (f a) R) -> frame h0 (m ≫= f) R.
Proof.
  intros Hm Hf h Hh. destruct (Hm h Hh) as [Hpre HQ].
  unfold mbind, M_bind. destruct (m h) as [[a|e|] h']; simpl in *.
  - apply (Hf a (HQ a eq_refl) h' Hpre).
  - split; [exact Hpre | discriminate].
  - split; [exact Hpre | discriminate].
Qed.

Lemma frame_weaken {A : Type} (m : M A) (Q R : A -> Prop) :
  frame h0 m Q -> (forall a, Q a -> R a) -> frame h0 m R.
Proof.
  intros Hm HQR h Hh. destruct (Hm h Hh) as [Hpre HQ]. split; [exact Hpre|].
  intros a Ha. apply HQR, HQ, Ha.
Qed.

Lemma frame_alloc (o : object) : frame h0 (alloc o) (fun l => length h0 <= l).
Proof.
  intros h Hh. simpl. split; [now apply prefix_app_r|].
  intros a [= <-]. now apply prefix_length.
Qed.

Lemma frame_read_nums (l : loc) : frame h0 (read_nums l) (fun _ => True).
Proof.
  intros h Hh. unfold read_nums.
  destruct (h !! l) as [[v|refs]|]; simpl; (split; [exact Hh | intros; exact I]).
Qed.

Lemma frame_read_refs (l : loc) : frame h0 (read_refs l) (fun _ => True).
Proof.
  intros h Hh. unfold read_refs.
  destruct (h !! l) as [[v|refs]|]; simpl; (split; [exact Hh | intros; exact I]).
Qed.

Lemma frame_store (l : loc) (o : object) :
  length h0 <= l -> frame h0 (store l o) (fun _ => True).
Proof.
  intros Hl h Hh. simpl. split; [now apply prefix_insert_beyond | intros; exact I].
Qed.

Lemma frame_push_ref (arr x : loc) :
  length h0 <= arr -> frame h0 (push_ref arr x) (fun _ => True).
Proof.
  intros Harr. unfold push_ref.
  eapply frame_bind; [apply frame_read_refs|]. intros refs _. now apply frame_store.
Qed.

Lemma frame_add_at (arr : loc) (i : nat) (val : float) :
  length h0 <= arr -> frame h0 (add_at arr i val) (fun _ => True).
Proof.
  intros Harr. unfold add_at.
  eapply frame_bind; [apply frame_read_nums|]. intros v _.
  destruct (v !! i); now apply frame_store.
Qed.

Lemma frame_forEachM {A : Type} (f : A -> nat -> M unit) (l : list A) (i : nat) :
  (forall x j, frame h0 (f x j) (fun _ => True)) ->
  frame h0 (forEachM f l i) (fun _ => True).
Proof.
  intros Hf. revert i. induction l as [|x l IH]; intros i; simpl.
  - now apply frame_ret.
  - eapply frame_bind; [apply Hf|]. intros _ _. apply IH.
Qed.

Lemma frame_mapM_i {A B : Type} (f : A -> nat -> M B) (Q : B -> Prop) (l : list A) (i : nat) :
  (forall x j, frame h0 (f x j) Q) ->
  frame h0 (mapM_i f l i) (Forall Q).
Proof.
  intros Hf. revert i. induction l as [|x l IH]; intros i; simpl.
  - apply frame_ret. constructor.
  - eapply frame_bind; [apply Hf|]. intros y Hy.
    eapply frame_bind; [apply IH|]. intros ys Hys.
    apply frame_ret. now constructor.
Qed.

Lemma frame_read_vectors (arr : loc) : frame h0 (read_vectors arr) (fun _ => True).
Proof.
  unfold read_vectors. eapply frame_bind; [apply frame_read_refs|]. intros refs _.
  eapply frame_weaken; [apply (frame_mapM_i _ (fun _ => True))|trivial].
  intros r _. apply frame_read_nums.
Qed.

Lemma frame_assign_clusters_h (embeddings cents : loc) :
  frame h0 (assign_clusters_h embeddings cents) (fun _ => True).
Proof.
  unfold assign_clusters_h.
  eapply frame_bind; [apply frame_read_vectors|]. intros es _.
  eapply frame_bind; [apply frame_read_vectors|]. intros cs _.
  now apply frame_ret.
Qed.

Lemma frame_update_centroid_h (embeddings : loc) (cl : list nat) (dim : nat)
    (old : loc) (ci : nat) :
  frame h0 (update_centroid_h embeddings cl dim old ci) (fun _ => True).
Proof.
  unfold update_centroid_h.
  eapply frame_bind; [apply frame_read_refs|]. intros es _.
  eapply frame_bind; [apply frame_alloc|]. intros clusterPoints _.
  eapply frame_bind; [apply frame_read_refs|]. intros points _.
  destruct (length points =? 0); [now apply frame_ret|].
  eapply frame_bind; [apply frame_alloc|]. intros newCentroid Hfresh.
  eapply frame_bind.
  { apply frame_forEachM. intros point _.
    eapply frame_bind; [apply frame_read_nums|]. intros vals _.
    apply frame_forEachM. intros val i. now apply frame_add_at. }
  intros _ _.
  eapply frame_bind; [apply frame_read_nums|]. intros sums _.
  eapply frame_weaken; [apply frame_alloc | trivial].
Qed.

Lemma frame_update_centroids_h (embeddings : loc) (cl : list nat) (dim : nat) (cents : loc) :
  frame h0 (update_centroids_h embeddings cl dim cents) (fun l => length h0 <= l).
Proof.
  unfold update_centroids_h.
  eapply frame_bind; [apply frame_read_refs|]. intros olds _.
  eapply frame_bind.
  { apply (frame_mapM_i _ (fun _ => True)). intros old ci. apply frame_update_centroid_h. }
  intros news _. apply frame_alloc.
Qed.

Lemma frame_kMeans_loop_h (embeddings : loc) (dim fuel : nat) (cl : list nat) (cents : loc) :
  length h0 <= cents ->
  frame h0 (kMeans_loop_h embeddings dim fuel cl cents) (fun r => length h0 <= r.2).
Proof.
  revert cl cents. induction fuel as [|fuel IH]; intros cl cents Hc; simpl.
  - now apply frame_ret.
  - eapply frame_bind; [apply frame_assign_clusters_h|]. intros newClusters _.
    destruct (assignment_changed newClusters cl); [|now apply frame_ret].
    eapply frame_bind; [apply frame_update_centroids_h|]. intros cents' Hc'.
    now apply IH.
Qed.

Lemma frame_init_centroids_h (embeddings : loc) (n count : nat) (used : list nat)
    (cents : loc) (rnd : tape) :
  length h0 <= cents ->
  frame h0 (init_centroids_h embeddings n count used cents rnd) (fun _ => True).
Proof.
  intros Hc. revert used rnd. induction count as [|count IH]; intros used rnd; simpl.
  - now apply frame_ret.
  - destruct (draw_fresh n used rnd) as [[idx rnd']|e|];
      [|apply frame_throw | apply frame_pending].
    eapply frame_bind; [apply frame_read_refs|]. intros es _.
    destruct (es !! idx) as [e|]; [|apply frame_throw].
    eapply frame_bind; [apply frame_read_nums|]. intros v _.
    eapply frame_bind; [apply frame_alloc|]. intros copy _.
    eapply frame_bind; [now apply frame_push_ref|]. intros _ _.
    apply IH.
Qed.

Lemma frame_kMeansClustering_h (embeddings : loc) (k maxIterations : nat) (rnd : tape) :
  frame h0 (kMeansClustering_h embeddings k maxIterations rnd)
        (fun r => length h0 <= centroids_h r.1).
Proof.
  unfold kMeansClustering_h.
  eapply frame_bind; [apply frame_read_refs|]. intros es _.
  eapply (frame_bind _ _ (fun _ => True)).
  { destruct es as [|e0 rest]; [now apply frame_ret|].
    eapply frame_bind; [apply frame_read_nums|]. intros v _. now apply frame_ret. }
  intros dim _.
  destruct ((length es =? 0) || (dim =? 0))%bool.
  - eapply frame_bind; [apply frame_alloc|]. intros empty Hempty. now apply frame_ret.
  - eapply frame_bind; [apply frame_alloc|]. intros centroids0 Hc0.
    eapply frame_bind; [now apply frame_init_centroids_h|]. intros rnd' _.
    eapply frame_bind; [now apply frame_kMeans_loop_h|]. intros [cl' ce'] Hce.
    now apply frame_ret.
Qed.

End Frame.

(** *** The heap computation returns what the pure one does *)

Lemma read_refs_at (h : heap) (l : loc) (refs : list loc) :
  h !! l = Some (RefArray refs) -> read_refs l h = (Ok refs, h).
Proof. intros Hl. unfold read_refs. now rewrite Hl. Qed.

Lemma read_nums_at (h : heap) (l : loc) (v : vec) :
  h !! l = Some (NumArray v) -> read_nums l h = (Ok v, h).
Proof. intros Hl. unfold read_nums. now rewrite Hl. Qed.

Lemma lookup_alloc (h : heap) (o : object) : (h ++ [o]) !! length h = Some o.
Proof. now rewrite lookup_app_r, Nat.sub_diag by lia. Qed.

Lemma holds_vectors_prefix (h h' : heap) (arr : loc) (vs : list vec) :
  holds_vectors h arr vs -> h `prefix_of` h' -> holds_vectors h' arr vs.
Proof.
  intros (refs & Harr & Hrefs) Hpre. exists refs. split.
  - eapply prefix_lookup_Some; eassumption.
  - eapply Forall2_impl; [exact Hrefs|]. intros r v Hr. simpl in *.
    eapply prefix_lookup_Some; eassumption.
Qed.

Lemma read_each (h : heap) (refs : list loc) (vs : list vec) (i : nat) :
  Forall2 (fun r v => h !! r = Some (NumArray v)) refs vs ->
  mapM_i (fun r _ => read_nums r) refs i h = (Ok vs, h).
Proof.
  intros Hrefs. revert i. induction Hrefs as [|r v refs vs Hr Hrefs IH]; intros i; simpl;
    [reflexivity|].
  run (read_nums_at h r v Hr). now run (IH (S i)).
Qed.

Lemma read_vectors_at (h : heap) (arr : loc) (vs : list vec) :
  holds_vectors h arr vs -> read_vectors arr h = (Ok vs, h).
Proof.
  intros (refs & Harr & Hrefs). unfold read_vectors.
  run (read_refs_at h arr refs Harr). now apply read_each.
Qed.

Lemma assign_clusters_h_at (h : heap) (embeddings cents : loc) (es cs : list vec) :
  holds_vectors h embeddings es -> holds_vectors h cents cs ->
  assign_clusters_h embeddings cents h = (Ok (assign_clusters es cs), h).
Proof.
  intros He Hc. unfold assign_clusters_h.
  run (read_vectors_at h embeddings es He). now run (read_vectors_at h cents cs Hc).
Qed.

Lemma add_at_eq (h : heap) (nc : loc) (i : nat) (val : float) (v : vec) :
  h !! nc = Some (NumArray v) ->
  add_at nc i val h =
  (Ok tt, <[nc := NumArray (match v !! i with
                            | Some c => <[i := (c + val)%float]> v
                            | None => v ++ [(nan + val)%float]
                            end)]> h).
Proof.
  intros Hnc. unfold add_at. run (read_nums_at h nc v Hnc).
  now destruct (v !! i).
Qed.

(** The inner loop of the update: the cell of [newCentroid] goes from
    [pre ++ acc] to [pre ++ add_point acc vals]. *)
Lemma add_each_at (nc : loc) (vals : vec) :
  forall (h : heap) (pre acc : vec),
    h !! nc = Some (NumArray (pre ++ acc)) ->
    forEachM (fun val i => add_at nc i val) vals (length pre) h
    = (Ok tt, <[nc := NumArray (pre ++ add_point acc vals)]> h).
Proof.
  induction vals as [|val vals IH]; intros h pre acc Hnc; simpl.
  - now rewrite list_insert_id.
  - assert (Hlt : nc < length h) by (eapply lookup_lt_Some; eassumption).
    run (add_at_eq h nc (length pre) val _ Hnc).
    destruct acc as [|c acc].
    + rewrite app_nil_r, lookup_ge_None_2 by lia.
      replace (S (length pre)) with (length (pre ++ [(nan + val)%float]))
        by (rewrite length_app; simpl; lia).
      rewrite (IH _ (pre ++ [(nan + val)%float]) []).
      * now rewrite list_insert_insert_eq, <- !app_assoc.
      * now rewrite app_nil_r, list_lookup_insert_eq.
    + rewrite lookup_app_r, Nat.sub_diag by lia. simpl.
      rewrite insert_app_r_alt, Nat.sub_diag by lia. simpl.
      replace (S (length pre)) with (length (pre ++ [(c + val)%float]))
        by (rewrite length_app; simpl; lia).
      rewrite (IH _ (pre ++ [(c + val)%float]) acc).
      * now rewrite list_insert_insert_eq, <- !app_assoc.
      * now rewrite list_lookup_insert_eq, <- app_assoc.
Qed.

(** The outer loop of the update: the cell of [newCentroid] goes from [acc]
    to the sum of [acc] and the points. *)
Lemma add_points_at (nc : loc) (refs : list loc) (vs : list vec) :
  forall (h : heap) (acc : vec) (j : nat),
    h !! nc = Some (NumArray acc) ->
    Forall2 (fun r v => r <> nc /\ h !! r = Some (NumArray v)) refs vs ->
    forEachM (fun point _ =>
                vals ← read_nums point;
                forEachM (fun val i => add_at nc i val) vals 0) refs j h
    = (Ok tt, <[nc := NumArray (fold_left add_point vs acc)]> h).
Proof.
  revert vs. induction refs as [|r refs IH]; intros vs h acc j Hnc Hrefs;
    inversion Hrefs as [|? v ? vs' [Hne Hr] Hrest]; subst; simpl.
  - now rewrite list_insert_id.
  - assert (Hlt : nc < length h) by (eapply lookup_lt_Some; eassumption).
    run (read_nums_at h r v Hr).
    pose proof (add_each_at nc v h [] acc Hnc) as Hinner. simpl in Hinner.
    run Hinner.
    rewrite (IH vs' _ (add_point acc v) (S j)).
    + now rewrite list_insert_insert_eq.
    + now rewrite list_lookup_insert_eq.
    + eapply Forall2_impl; [exact Hrest|]. intros r' v' [Hne' Hr']. simpl.
      split; [exact Hne'|]. now rewrite list_lookup_insert_ne.
Qed.

Lemma alloc_eq (h : heap) (o : object) : alloc o h = (Ok (length h), h ++ [o]).
Proof. reflexivity. Qed.

Lemma filter_i_Forall2 {A B : Type} (R : A -> B -> Prop) (q : nat -> bool)
    (l : list A) (k : list B) (j : nat) :
  Forall2 R l k ->
  Forall2 R (filter_i (fun _ => q) l j) (filter_i (fun _ => q) k j).
Proof.
  intros HR. revert j. induction HR as [|x y l k Hxy HR IH]; intros j; simpl.
  - constructor.
  - destruct (q j); [constructor; [exact Hxy|] |]; apply IH.
Qed.

Lemma update_centroid_h_at (h : heap) (embeddings : loc) (es : list vec) (cl : list nat)
    (dim : nat) (old : loc) (oldv : vec) (ci : nat) :
  holds_vectors h embeddings es ->
  h !! old = Some (NumArray oldv) ->
  exists l' h',
    update_centroid_h embeddings cl dim old ci h = (Ok l', h') /\
    h `prefix_of` h' /\
    h' !! l' = Some (NumArray (update_centroid es cl dim oldv ci)).
Proof.
  intros (refs & He & Hrefs) Hold. unfold update_centroid_h, update_centroid, cluster_points.
  set (q := fun i : nat => match cl !! i with Some c => c =? ci | None => false end).
  pose proof (filter_i_Forall2 _ q refs es 0 Hrefs) as Hpts.
  set (pts := filter_i (fun _ => q) refs 0) in *.
  set (vs := filter_i (fun _ => q) es 0) in *.
  set (h1 := h ++ [RefArray pts]).
  assert (Hstart : forall k : loc -> M loc,
             (alloc (RefArray pts) ≫= k) h = k (length h) h1) by reflexivity.
  destruct (length vs =? 0) eqn:Hlen.
  - exists old, h1. split; [|split].
    + run (read_refs_at h embeddings refs He). rewrite Hstart.
      run (read_refs_at h1 (length h) pts (lookup_alloc h (RefArray pts))).
      now rewrite (Forall2_length _ _ _ Hpts), Hlen.
    + now apply prefix_app_r.
    + unfold h1. rewrite lookup_app_l; [exact Hold|]. eapply lookup_lt_Some; eassumption.
  - set (zeros := repeat 0%float dim).
    set (h2 := h1 ++ [NumArray zeros]).
    set (nc := length h1).
    set (sums := fold_left add_point vs zeros).
    set (h3 := <[nc := NumArray sums]> h2).
    assert (Hnc : length h <= nc) by (unfold nc, h1; rewrite length_app; lia).
    assert (Hh2 : h `prefix_of` h2) by now apply prefix_app_r, prefix_app_r.
    assert (Hloop : forEachM (fun point _ =>
                                vals ← read_nums point;
                                forEachM (fun val i => add_at nc i val) vals 0) pts 0 h2
                    = (Ok tt, h3)).
    { apply add_points_at; [apply lookup_alloc|].
      eapply Forall2_impl; [exact Hpts|]. intros r v Hr. simpl in Hr.
      pose proof (lookup_lt_Some _ _ _ Hr). split; [lia|].
      eapply prefix_lookup_Some; eassumption. }
    assert (Hsums : h3 !! nc = Some (NumArray sums)).
    { apply list_lookup_insert_eq. unfold h2. rewrite length_app. simpl. lia. }
    eexists _, _. split; [|split].
    + run (read_refs_at h embeddings refs He). rewrite Hstart.
      run (read_refs_at h1 (length h) pts (lookup_alloc h (RefArray pts))).
      rewrite (Forall2_length _ _ _ Hpts), Hlen.
      subst h3 sums h2 nc zeros.
      run (alloc_eq h1 (NumArray (repeat 0%float dim))).
      run Hloop. run (read_nums_at _ _ _ Hsums).
      apply alloc_eq.
    + apply prefix_app_r. now apply prefix_insert_beyond.
    + apply lookup_alloc.
Qed.

Lemma update_each_at (embeddings : loc) (es : list vec) (cl : list nat) (dim : nat)
    (olds : list loc) :
  forall (vs : list vec) (j : nat) (h : heap),
    holds_vectors h embeddings es ->
    Forall2 (fun r v => h !! r = Some (NumArray v)) olds vs ->
    exists news h',
      mapM_i (update_centroid_h embeddings cl dim) olds j h = (Ok news, h') /\
      h `prefix_of` h' /\
      Forall2 (fun r v => h' !! r = Some (NumArray v)) news
              (map_i (update_centroid es cl dim) vs j).
Proof.
  induction olds as [|old olds IH]; intros vs j h He Holds;
    inversion Holds as [|? oldv ? vs' Hold Hrest]; subst; simpl.
  - exists [], h. repeat split; [reflexivity | constructor].
  - destruct (update_centroid_h_at h embeddings es cl dim old oldv j He Hold)
      as (l1 & h1 & Hrun1 & Hpre1 & Hl1).
    destruct (IH vs' (S j) h1) as (news & h2 & Hrun2 & Hpre2 & Hnews).
    { eapply holds_vectors_prefix; eassumption. }
    { eapply Forall2_impl; [exact Hrest|]. intros r v Hr. simpl in *.
      eapply prefix_lookup_Some; eassumption. }
    run Hrun1. run Hrun2.
    exists (l1 :: news), h2. split; [reflexivity|]. split; [etransitivity; eassumption|].
    constructor; [|exact Hnews]. eapply prefix_lookup_Some; eassumption.
Qed.

Lemma update_centroids_h_at (h : heap) (embeddings cents : loc) (es cs : list vec)
    (cl : list nat) (dim : nat) :
  holds_vectors h embeddings es -> holds_vectors h cents cs ->
  exists l' h',
    update_centroids_h embeddings cl dim cents h = (Ok l', h') /\
    h `prefix_of` h' /\
    holds_vectors h' l' (update_centroids es cl dim cs).
Proof.
  intros He (olds & Hc & Holds). unfold update_centroids_h, update_centroids.
  destruct (update_each_at embeddings es cl dim olds cs 0 h He Holds)
    as (news & h1 & Hrun & Hpre & Hnews).
  run (read_refs_at h cents olds Hc). run Hrun.
  exists (length h1), (h1 ++ [RefArray news]). split; [reflexivity|]. split.
  - now apply prefix_app_r.
  - exists news. split; [apply lookup_alloc|].
    eapply Forall2_impl; [exact Hnews|]. intros r v Hr. simpl in *.
    rewrite lookup_app_l; [exact Hr|]. eapply lookup_lt_Some; eassumption.
Qed.

Lemma kMeans_loop_h_at (embeddings : loc) (es : list vec) (dim fuel : nat) :
  forall (cl : list nat) (cents : loc) (cs : list vec) (h : heap),
    holds_vectors h embeddings es -> holds_vectors h cents cs ->
    exists l' h',
      kMeans_loop_h embeddings dim fuel cl cents h
        = (Ok ((kMeans_loop es dim fuel cl cs).1.2, l'), h') /\
      h `prefix_of` h' /\
      holds_vectors h' l' (kMeans_loop es dim fuel cl cs).2.
Proof.
  induction fuel as [|fuel IH]; intros cl cents cs h He Hc; simpl.
  - exists cents, h. repeat split; [reflexivity | exact Hc].
  - run (assign_clusters_h_at h embeddings cents es cs He Hc).
    destruct (assignment_changed (assign_clusters es cs) cl).
    + destruct (update_centroids_h_at h embeddings cents es cs (assign_clusters es cs) dim He Hc)
        as (l1 & h1 & Hrun1 & Hpre1 & Hl1).
      run Hrun1.
      destruct (IH (assign_clusters es cs) l1
                  (update_centroids es (assign_clusters es cs) dim cs) h1)
        as (l2 & h2 & Hrun2 & Hpre2 & Hl2);
        [eapply holds_vectors_prefix; eassumption | exact Hl1 |].
      exists l2, h2.
      destruct (kMeans_loop es dim fuel _ _) as [[tr cl'] ce']. simpl in *.
      split; [exact Hrun2|]. split; [etransitivity; eassumption | exact Hl2].
    + exists cents, h. repeat split; [reflexivity | exact Hc].
Qed.

Lemma push_ref_eq (h : heap) (arr x : loc) (refs : list loc) :
  h !! arr = Some (RefArray refs) ->
  push_ref arr x h = (Ok tt, <[arr := RefArray (refs ++ [x])]> h).
Proof. intros Harr. unfold push_ref. now run (read_refs_at h arr refs Harr). Qed.

Lemma init_centroids_h_at (embeddings : loc) (es : list vec) (cents : loc) (count : nat) :
  forall (used : list nat) (cs : list vec) (rnd : tape) (h : heap),
    holds_vectors h embeddings es -> holds_vectors h cents cs -> embeddings <> cents ->
    match init_centroids es count used cs rnd with
    | Ok (cs', _, rnd') =>
        exists h',
          init_centroids_h embeddings (length es) count used cents rnd h = (Ok rnd', h') /\
          holds_vectors h' embeddings es /\ holds_vectors h' cents cs'
    | Throw e =>
        exists h', init_centroids_h embeddings (length es) count used cents rnd h = (Throw e, h')
    | Pending =>
        exists h', init_centroids_h embeddings (length es) count used cents rnd h = (Pending, h')
    end.
Proof.
  induction count as [|count IH]; intros used cs rnd h He Hc Hne; simpl.
  - exists h. split; [reflexivity|]. split; assumption.
  - destruct (draw_fresh (length es) used rnd) as [[idx rnd1]|e|]; simpl;
      [|exists h; reflexivity..].
    destruct He as (refs & He & Hrefs). destruct Hc as (crefs & Hc & Hcrefs).
    pose proof (Forall2_length _ _ _ Hrefs) as Hlen.
    destruct (es !! idx) as [v|] eqn:Hv.
    2: { exists h. run (read_refs_at h embeddings refs He).
         rewrite (lookup_ge_None_2 refs idx); [reflexivity|].
         apply lookup_ge_None_1 in Hv. lia. }
    destruct (Forall2_lookup_r _ _ _ _ _ Hrefs Hv) as (r & Hr & Hrv).
    set (h1 := h ++ [NumArray v]).
    set (h2 := <[cents := RefArray (crefs ++ [length h])]> h1).
    assert (Hcl : cents < length h) by (eapply lookup_lt_Some; eassumption).
    assert (Hkeep : forall (l : loc) (o : object), l <> cents -> h !! l = Some o -> h2 !! l = Some o).
    { intros l o Hl Ho. unfold h2, h1. rewrite list_lookup_insert_ne by congruence.
      rewrite lookup_app_l; [exact Ho|]. eapply lookup_lt_Some; eassumption. }
    assert (Hnum : forall (l : loc) (w : vec), h !! l = Some (NumArray w) -> l <> cents).
    { intros l w Hl ->. congruence. }
    specialize (IH (used ++ [idx]) (cs ++ [v]) rnd1 h2).
    assert (Hrun : (es' ← read_refs embeddings;
                    match es' !! idx with
                    | Some e =>
                        v' ← read_nums e;
                        copy ← alloc (NumArray v');
                        _ ← push_ref cents copy;
                        init_centroids_h embeddings (length es) count (used ++ [idx])
                          cents rnd1
                    | None => throw TypeError
                    end) h
                   = init_centroids_h embeddings (length es) count (used ++ [idx])
                       cents rnd1 h2).
    { assert (Hpush : push_ref cents (length h) h1 = (Ok tt, h2)).
      { apply push_ref_eq. unfold h1. now rewrite lookup_app_l. }
      subst h2 h1.
      run (read_refs_at h embeddings refs He). rewrite Hr.
      run (read_nums_at h r v Hrv). run (alloc_eq h (NumArray v)).
      now run Hpush. }
    rewrite Hrun. apply IH; [| |exact Hne].
    + exists refs. split; [now apply Hkeep|].
      eapply Forall2_impl; [exact Hrefs|]. intros r' v' Hr'. simpl in *.
      apply Hkeep; [eapply Hnum; eassumption | exact Hr'].
    + exists (crefs ++ [length h]). split.
      * unfold h2, h1. apply list_lookup_insert_eq. rewrite length_app. simpl. lia.
      * apply Forall2_app.
        -- eapply Forall2_impl; [exact Hcrefs|]. intros r' v' Hr'. simpl in *.
           apply Hkeep; [eapply Hnum; eassumption | exact Hr'].
        -- constructor; [|constructor]. unfold h2.
           rewrite list_lookup_insert_ne by lia. apply lookup_alloc.
Qed.

(** The heap computation and the pure one have the same outcome: from a heap
    in which [embeddings] holds the vectors [es], [kMeansClustering_h] returns
    the assignment [kMeansClustering] returns on [es] and an array that holds
    the centroids it returns, and raises or waits when it does. *)
Theorem kMeansClustering_h_refines
    (h : heap) (embeddings : loc) (es : list vec) (k maxIterations : nat) (rnd : tape) :
  holds_vectors h embeddings es ->
  let run := kMeansClustering_h embeddings k maxIterations rnd h in
  match kMeansClustering es k maxIterations rnd with
  | Ok (res, rnd') =>
      exists res_h,
        run.1 = Ok (res_h, rnd') /\
        clusters_h res_h = clusters res /\
        holds_vectors run.2 (centroids_h res_h) (centroids res)
  | Throw e => run.1 = Throw e
  | Pending => run.1 = Pending
  end.
Proof.
  intros He run. subst run.
  pose proof He as (refs & Hrefs & Hall).
  pose proof (Forall2_length _ _ _ Hall) as Hlen.
  assert (Hel : embeddings < length h) by (eapply lookup_lt_Some; eassumption).
  assert (Hheap :
    kMeansClustering_h embeddings k maxIterations rnd h =
    if ((length es =? 0) || (dimension es =? 0))%bool
    then (Ok ({| clusters_h := []; centroids_h := length h |}, rnd), h ++ [RefArray []])
    else (rnd' ← init_centroids_h embeddings (length es) (Nat.min k (length es)) []
                   (length h) rnd;
          '(clusters', centroids') ←
            kMeans_loop_h embeddings (dimension es) maxIterations (repeat 0 (length es))
              (length h);
          mret ({| clusters_h := clusters'; centroids_h := centroids' |}, rnd'))
         (h ++ [RefArray []])).
  { unfold kMeansClustering_h.
    run (read_refs_at h embeddings refs Hrefs).
    assert (Hdim : match refs with
                   | [] => mret 0
                   | e0 :: _ => v ← read_nums e0; mret (length v)
                   end h = (Ok (dimension es), h)).
    { destruct Hall as [|r v refs' es' Hr _]; [reflexivity|]. simpl.
      now run (read_nums_at h r v Hr). }
    run Hdim. rewrite Hlen.
    destruct ((length es =? 0) || (dimension es =? 0))%bool.
    - now run (alloc_eq h (RefArray [])).
    - now run (alloc_eq h (RefArray [])). }
  rewrite Hheap. clear Hheap.
  unfold kMeansClustering, kMeans_run.
  destruct ((length es =? 0) || (dimension es =? 0))%bool.
  - simpl. eexists. split; [reflexivity|]. split; [reflexivity|].
    exists []. split; [apply lookup_alloc | constructor].
  - set (h1 := h ++ [RefArray []]).
    assert (He1 : holds_vectors h1 embeddings es).
    { eapply holds_vectors_prefix; [exact He|]. now apply prefix_app_r. }
    assert (Hc1 : holds_vectors h1 (length h) []).
    { exists []. split; [apply lookup_alloc | constructor]. }
    pose proof (init_centroids_h_at embeddings es (length h) (Nat.min k (length es))
                  [] [] rnd h1 He1 Hc1 ltac:(lia)) as Hinit.
    destruct (init_centroids es (Nat.min k (length es)) [] [] rnd)
      as [[[c0 used] rnd']|e|]; simpl.
    + destruct Hinit as (h2 & Hrun2 & He2 & Hc2).
      destruct (kMeans_loop_h_at embeddings es (dimension es) maxIterations
                  (repeat 0 (length es)) (length h) c0 h2 He2 Hc2)
        as (l3 & h3 & Hrun3 & _ & Hc3).
      destruct (kMeans_loop es (dimension es) maxIterations (repeat 0 (length es)) c0)
        as [[trace cl'] ce']. simpl in *.
      match goal with
      | |- context [(?m h1).1] =>
          assert (Hfinal : m h1 = (Ok ({| clusters_h := cl'; centroids_h := l3 |}, rnd'), h3))
            by (run Hrun2; now run Hrun3);
          rewrite Hfinal
      end.
      eexists. split; [reflexivity|]. split; [reflexivity | exact Hc3].
    + destruct Hinit as (h2 & Hrun2).
      match goal with
      | |- (?m h1).1 = _ => assert (Hfinal : m h1 = (Throw e, h2)) by now run Hrun2
      end.
      now rewrite Hfinal.
    + destruct Hinit as (h2 & Hrun2).
      match goal with
      | |- (?m h1).1 = _ => assert (Hfinal : m h1 = (Pending, h2)) by now run Hrun2
      end.
      now rewrite Hfinal.
Qed.

Lemma kMeansClustering_h_refines_witness :
  let run := kMeansClustering_h 4 2 default_maxIterations tape_with_repeat
               (heap_of four_vectors).1 in
  exists res_h,
    run.1 = Ok (res_h, [0.25; 0.5; 0.75; 0.375]%float) /\
    clusters_h res_h = [0; 0; 1; 1] /\
    holds_vectors run.2 (centroids_h res_h) [[0.875; 0.125]; [0.125; 0.875]]%float.
Proof.
  apply (kMeansClustering_h_refines (heap_of four_vectors).1 4 four_vectors 2
           default_maxIterations tape_with_repeat).
  exists [0; 1; 2; 3]. split; [reflexivity|]. repeat constructor.
Defined.

(** C9: a call of [kMeansClustering] from any heap leaves every array that
    existed before the call as it was, whatever the outcome: the heap after
    the call is the heap before it followed by the arrays the call allocated.
    In particular the array [embeddings] still holds the same vectors, and the
    array of centroids returned is a new one. *)
Theorem kMeansClustering_preserves_input
    (h : heap) (embeddings : loc) (k maxIterations : nat) (rnd : tape) :
  let run := kMeansClustering_h embeddings k maxIterations rnd h in
  h `prefix_of` run.2 /\
  take (length h) run.2 = h /\
  (forall es : list vec,
      holds_vectors h embeddings es -> holds_vectors run.2 embeddings es) /\
  match run.1 with
  | Ok (res, _) => length h <= centroids_h res
  | Throw _ | Pending => True
  end.
Proof.
  intros run.
  destruct (frame_kMeansClustering_h h embeddings k maxIterations rnd h) as [Hpre Hres];
    [reflexivity|].
  fold run in Hpre, Hres. split; [exact Hpre | split; [|split]].
  - destruct Hpre as [k' ->]. now rewrite take_app_length.
  - intros es Hes. eapply holds_vectors_prefix; eassumption.
  - destruct run.1 as [[res rnd']| |]; [|trivial..]. now apply (Hres (res, rnd')).
Qed.

Lemma kMeansClustering_preserves_input_witness :
  let run := kMeansClustering_h 4 2 default_maxIterations tape_with_repeat
               (heap_of four_vectors).1 in
  holds_vectors run.2 4 four_vectors.
Proof.
  intros run.
  destruct (kMeansClustering_preserves_input (heap_of four_vectors).1 4 2
              default_maxIterations tape_with_repeat) as (_ & _ & Hkeep & _).
  apply Hkeep.
  exists [0; 1; 2; 3]. split; [reflexivity|]. repeat constructor.
Defined.

(** ** Conjunctions *)

Ltac split_ands := repeat match goal with |- _ /\ _ => split end.

(** ** getTopicColor *)

Lemma getTopicColor_rem (i : Z) :
  (0 <= i)%Z -> getTopicColor i = TOPIC_COLORS !! Z.to_nat (i mod 10).
Proof.
  intros Hi. unfold getTopicColor.
  change (Z.of_nat (length TOPIC_COLORS)) with 10%Z.
  rewrite Z.rem_mod_nonneg by lia.
  destruct (Z.ltb_spec (i mod 10) 0) as [Hneg|_]; [|reflexivity].
  pose proof (Z.mod_pos_bound i 10). lia.
Qed.

Lemma palette_cases (r : Z) :
  (0 <= r < 10)%Z ->
  r = 0%Z \/ r = 1%Z \/ r = 2%Z \/ r = 3%Z \/ r = 4%Z \/
  r = 5%Z \/ r = 6%Z \/ r = 7%Z \/ r = 8%Z \/ r = 9%Z.
Proof. lia. Qed.

(** X1: for an index that is not negative [getTopicColor] returns a
    colour of the palette, the same for two indices exactly when they are
    congruent modulo 10; for a negative index that is no multiple of 10 it
    returns undefined. *)
Theorem getTopicColor_palette :
  (forall i : Z, (0 <= i)%Z ->
     (exists c, getTopicColor i = Some c /\ In c TOPIC_COLORS) /\
     getTopicColor (i + 10) = getTopicColor i) /\
  (forall i j : Z, (0 <= i)%Z -> (0 <= j)%Z ->
     getTopicColor i = getTopicColor j <-> (i mod 10 = j mod 10)%Z) /\
  (forall i : Z, (i < 0)%Z -> Z.rem i 10 <> 0%Z -> getTopicColor i = None).
Proof.
  split; [|split].
  - intros i Hi. split.
    + rewrite getTopicColor_rem by assumption.
      pose proof (Z.mod_pos_bound i 10 eq_refl) as Hr.
      destruct (palette_cases _ Hr) as [-> | [-> | [-> | [-> | [-> | [-> | [-> | [-> | [-> | ->]]]]]]]]];
        (eexists; split; [reflexivity | simpl; tauto]).
    + rewrite !getTopicColor_rem by lia.
      replace ((i + 10) mod 10)%Z with (i mod 10)%Z; [reflexivity|].
      now rewrite <- (Z.mul_1_l 10) at 2; rewrite Z.mod_add.
  - intros i j Hi Hj. rewrite !getTopicColor_rem by assumption.
    pose proof (Z.mod_pos_bound i 10 eq_refl) as Hri.
    pose proof (Z.mod_pos_bound j 10 eq_refl) as Hrj.
    split; [|now intros ->].
    destruct (palette_cases _ Hri) as [-> | [-> | [-> | [-> | [-> | [-> | [-> | [-> | [-> | ->]]]]]]]]];
      destruct (palette_cases _ Hrj) as [-> | [-> | [-> | [-> | [-> | [-> | [-> | [-> | [-> | ->]]]]]]]]];
      first [reflexivity | intros Heq; vm_compute in Heq; discriminate].
  - intros i Hi Hrem. unfold getTopicColor.
    change (Z.of_nat (length TOPIC_COLORS)) with 10%Z.
    pose proof (Z.rem_nonpos i 10) as Hle.
    destruct (Z.ltb_spec (Z.rem i 10) 0) as [_|Hge]; [reflexivity | lia].
Qed.



Section GraphFacts.
Variable Math_log : float -> float.

Ltac keep := intros s Hs; congruence.

Lemma topic_node_ok (topic : Topic) (rnd : tape) :
  topic_missing topic <= length rnd ->
  exists n, topic_node Math_log topic rnd = Ok (n, drop (topic_missing topic) rnd) /\
            topic_node_of topic n /\
            node_size n = Math_max 1 (Math_log (topic_postCount topic + 1) * 2).
Proof.
  unfold topic_node, topic_missing, missing, topic_node_of, keeps_stored.
  destruct (topic_posX topic), (topic_posY topic), (topic_posZ topic);
    destruct rnd as [|r1 [|r2 [|r3 rnd]]]; simpl; intros Hlen; try lia;
    (eexists; split; [reflexivity|]; simpl;
     repeat split; try reflexivity; intros s Hs; congruence).
Qed.

Lemma topic_node_pending (topic : Topic) (rnd : tape) :
  length rnd < topic_missing topic -> topic_node Math_log topic rnd = Pending.
Proof.
  unfold topic_node, topic_missing, missing.
  destruct (topic_posX topic), (topic_posY topic), (topic_posZ topic);
    destruct rnd as [|r1 [|r2 [|r3 rnd]]]; simpl; intros Hlen; try lia; reflexivity.
Qed.

Lemma post_node_ok (post : Post) (rnd : tape) :
  post_missing post <= length rnd ->
  exists n, post_node post rnd = Ok (n, drop (post_missing post) rnd) /\ post_node_of post n.
Proof.
  unfold post_node, post_missing, missing, post_node_of, keeps_stored.
  destruct (post_posX post), (post_posY post), (post_posZ post);
    destruct rnd as [|r1 [|r2 [|r3 rnd]]]; simpl; intros Hlen; try lia;
    (eexists; split; [reflexivity|]; simpl;
     repeat split; try reflexivity; intros s Hs; congruence).
Qed.

Lemma post_node_pending (post : Post) (rnd : tape) :
  length rnd < post_missing post -> post_node post rnd = Pending.
Proof.
  unfold post_node, post_missing, missing.
  destruct (post_posX post), (post_posY post), (post_posZ post);
    destruct rnd as [|r1 [|r2 [|r3 rnd]]]; simpl; intros Hlen; try lia; reflexivity.
Qed.

Lemma push_topic_nodes_ok (topics : list Topic) (nodes : list GraphNode) (rnd : tape) :
  list_sum (map topic_missing topics) <= length rnd ->
  exists new,
    push_topic_nodes Math_log topics nodes rnd
      = Ok (nodes ++ new, drop (list_sum (map topic_missing topics)) rnd) /\
    Forall2 topic_node_of topics new /\
    Forall2 (fun topic n =>
               node_size n = Math_max 1 (Math_log (topic_postCount topic + 1) * 2))
            topics new.
Proof.
  revert nodes rnd. induction topics as [|topic topics IH]; intros nodes rnd Hlen; simpl in *.
  - exists []. rewrite app_nil_r, drop_0. repeat split; constructor.
  - destruct (topic_node_ok topic rnd) as (n & Hn & Hof & Hsize); [lia|].
    rewrite Hn. simpl.
    destruct (IH (nodes ++ [n]) (drop (topic_missing topic) rnd)) as (new & Hnew & Hall & Hsizes).
    { rewrite length_drop. lia. }
    exists (n :: new). rewrite Hnew, <- app_assoc, drop_drop. simpl.
    repeat split; try constructor; assumption.
Qed.

Lemma push_topic_nodes_pending (topics : list Topic) (nodes : list GraphNode) (rnd : tape) :
  length rnd < list_sum (map topic_missing topics) ->
  push_topic_nodes Math_log topics nodes rnd = Pending.
Proof.
  revert nodes rnd. induction topics as [|topic topics IH]; intros nodes rnd Hlen; simpl in *.
  - lia.
  - destruct (Nat.le_gt_cases (topic_missing topic) (length rnd)) as [Hle|Hgt].
    + destruct (topic_node_ok topic rnd Hle) as (n & Hn & _). rewrite Hn. simpl.
      apply IH. rewrite length_drop. lia.
    + now rewrite topic_node_pending.
Qed.

Lemma push_links_app (post : Post) (topics : list TopicRef) (links : list GraphLink) :
  push_links post topics links =
  links ++ map (fun topic => {| link_source := post_id post;
                                link_target := ref_id topic;
                                link_strength := ref_relevance topic |}) topics.
Proof.
  unfold push_links. revert links. induction topics as [|t topics IH]; intros links; simpl.
  - now rewrite app_nil_r.
  - rewrite IH, <- app_assoc. reflexivity.
Qed.

Lemma push_post_nodes_ok (mode : Mode) (posts : list Post)
    (nodes : list GraphNode) (links : list GraphLink) (rnd : tape) :
  list_sum (map post_missing posts) <= length rnd ->
  exists new,
    push_post_nodes mode posts nodes links rnd
      = Ok (nodes ++ new,
            links ++ match mode with
                     | ModeAll => flat_map links_of_post posts
                     | _ => []
                     end,
            drop (list_sum (map post_missing posts)) rnd) /\
    Forall2 post_node_of posts new.
Proof.
  revert nodes links rnd.
  induction posts as [|post posts IH]; intros nodes links rnd Hlen; simpl in *.
  - exists []. rewrite !app_nil_r, drop_0. split; [|constructor].
    destruct mode; now rewrite ?app_nil_r.
  - destruct (post_node_ok post rnd) as (n & Hn & Hof); [lia|].
    rewrite Hn. simpl.
    match goal with
    | |- context [push_post_nodes mode posts (nodes ++ [n]) ?ls _] =>
        destruct (IH (nodes ++ [n]) ls (drop (post_missing post) rnd))
          as (new & Hnew & Hall)
    end.
    { rewrite length_drop. lia. }
    exists (n :: new). rewrite Hnew, <- app_assoc, drop_drop. simpl.
    split; [|now constructor].
    f_equal. f_equal. unfold links_of_post at 2.
    destruct mode; try reflexivity.
    destruct (post_topics post) as [topics|]; simpl.
    + now rewrite push_links_app, <- app_assoc.
    + reflexivity.
Qed.

Lemma push_post_nodes_pending (mode : Mode) (posts : list Post)
    (nodes : list GraphNode) (links : list GraphLink) (rnd : tape) :
  length rnd < list_sum (map post_missing posts) ->
  push_post_nodes mode posts nodes links rnd = Pending.
Proof.
  revert nodes links rnd.
  induction posts as [|post posts IH]; intros nodes links rnd Hlen; simpl in *.
  - lia.
  - destruct (Nat.le_gt_cases (post_missing post) (length rnd)) as [Hle|Hgt].
    + destruct (post_node_ok post rnd Hle) as (n & Hn & _). rewrite Hn. simpl.
      apply IH. rewrite length_drop. lia.
    + now rewrite post_node_pending.
Qed.

(** What a call returns when the tape is long enough. *)
Lemma buildGraphData_ok (topics : list Topic) (posts : list Post) (mode : Mode) (rnd : tape) :
  draws_needed topics posts mode <= length rnd ->
  exists tn pn,
    buildGraphData Math_log topics posts mode rnd
      = Ok ({| nodes := tn ++ pn;
               links := match mode with
                        | ModeAll => flat_map links_of_post posts
                        | _ => []
                        end |},
            drop (draws_needed topics posts mode) rnd) /\
    Forall2 topic_node_of (if uses_topics mode then topics else []) tn /\
    Forall2 (fun topic n =>
               node_size n = Math_max 1 (Math_log (topic_postCount topic + 1) * 2))
            (if uses_topics mode then topics else []) tn /\
    Forall2 post_node_of (if uses_posts mode then posts else []) pn.
Proof.
  unfold draws_needed, buildGraphData. intros Hlen.
  destruct mode; simpl in *.
  - destruct (push_topic_nodes_ok topics [] rnd) as (tn & Htn & Hall & Hsizes); [lia|].
    rewrite Htn. simpl. exists tn, []. rewrite Nat.add_0_r, app_nil_r.
    repeat split; try assumption; constructor.
  - destruct (push_post_nodes_ok ModePosts posts [] [] rnd) as (pn & Hpn & Hall); [lia|].
    rewrite Hpn. simpl. exists [], pn. repeat split; try assumption; constructor.
  - destruct (push_topic_nodes_ok topics [] rnd) as (tn & Htn & Hall & Hsizes); [lia|].
    rewrite Htn. simpl.
    destruct (push_post_nodes_ok ModeAll posts tn []
                (drop (list_sum (map topic_missing topics)) rnd)) as (pn & Hpn & Hallp).
    { rewrite length_drop. lia. }
    rewrite Hpn. simpl. exists tn, pn. rewrite drop_drop.
    repeat split; assumption.
Qed.

Lemma buildGraphData_pending (topics : list Topic) (posts : list Post) (mode : Mode) (rnd : tape) :
  length rnd < draws_needed topics posts mode ->
  buildGraphData Math_log topics posts mode rnd = Pending.
Proof.
  unfold draws_needed, buildGraphData. intros Hlen.
  destruct mode; simpl in *.
  - rewrite push_topic_nodes_pending by lia. reflexivity.
  - rewrite push_post_nodes_pending by lia. reflexivity.
  - destruct (Nat.le_gt_cases (list_sum (map topic_missing topics)) (length rnd)) as [Hle|Hgt].
    + destruct (push_topic_nodes_ok topics [] rnd Hle) as (tn & Htn & _).
      rewrite Htn. simpl. rewrite push_post_nodes_pending; [reflexivity|].
      rewrite length_drop. lia.
    + now rewrite push_topic_nodes_pending.
Qed.

End GraphFacts.



Lemma Forall2_topic_data (topics : list Topic) (tn : list GraphNode) :
  Forall2 topic_node_of topics tn -> map node_data tn = map inl topics.
Proof.
  induction 1 as [|t n ts ns Hof _ IH]; simpl; [reflexivity|].
  destruct Hof as (-> & _). now rewrite IH.
Qed.

Lemma Forall2_post_data (posts : list Post) (pn : list GraphNode) :
  Forall2 post_node_of posts pn -> map node_data pn = map inr posts.
Proof.
  induction 1 as [|p n ps ns Hof _ IH]; simpl; [reflexivity|].
  destruct Hof as (-> & _). now rewrite IH.
Qed.

Lemma Forall2_topic_Forall (P : GraphNode -> Prop) (topics : list Topic) (tn : list GraphNode) :
  (forall t n, topic_node_of t n -> P n) ->
  Forall2 topic_node_of topics tn -> Forall P tn.
Proof. intros HP. induction 1; constructor; eauto. Qed.

Lemma Forall2_post_Forall (P : GraphNode -> Prop) (posts : list Post) (pn : list GraphNode) :
  (forall p n, post_node_of p n -> P n) ->
  Forall2 post_node_of posts pn -> Forall P pn.
Proof. intros HP. induction 1; constructor; eauto. Qed.

(** X2: when the random source has a value for every missing position,
    [buildGraphData] returns a graph whose nodes are, in order, one node per
    topic (in the modes "topics" and "all") followed by one node per post
    (in the modes "posts" and "all"); each node carries its record, and its
    id, type, label and colour are those of the record. *)
Theorem buildGraphData_nodes_in_order (Math_log : float -> float)
    (topics : list Topic) (posts : list Post) (mode : Mode) (rnd : tape) :
  draws_needed topics posts mode <= length rnd ->
  exists g rnd',
    buildGraphData Math_log topics posts mode rnd = Ok (g, rnd') /\
    map node_data (nodes g)
      = map inl (if uses_topics mode then topics else []) ++
        map inr (if uses_posts mode then posts else []) /\
    Forall node_matches_record (nodes g).
Proof.
  intros Hlen.
  destruct (buildGraphData_ok Math_log topics posts mode rnd Hlen)
    as (tn & pn & Hrun & Htn & _ & Hpn).
  eexists _, _. split; [exact Hrun|]. simpl. split.
  - rewrite map_app. f_equal; [now apply Forall2_topic_data | now apply Forall2_post_data].
  - apply Forall_app. split.
    + eapply Forall2_topic_Forall; [|exact Htn].
      intros t n (Hd & Hid & Hty & Hl & Hc & _). unfold node_matches_record.
      rewrite Hd. auto.
    + eapply Forall2_post_Forall; [|exact Hpn].
      intros p n (Hd & Hid & Hty & Hl & Hc & _). unfold node_matches_record.
      rewrite Hd. auto.
Qed.

Lemma buildGraphData_nodes_in_order_witness :
  exists g rnd',
    buildGraphData (fun x => x) [sample_topic] [sample_post] ModeAll seven_draws = Ok (g, rnd') /\
    map node_data (nodes g) = map inl [sample_topic] ++ map inr [sample_post] /\
    Forall node_matches_record (nodes g).
Proof.
  apply (buildGraphData_nodes_in_order (fun x => x) [sample_topic] [sample_post] ModeAll seven_draws).
  vm_compute. lia.
Defined.

(** X3: [buildGraphData] returns links only in the mode "all": one link
    per post and topic of the post, in the order of the posts and of their
    topics, from the id of the post to the id of the topic with the relevance
    as strength; in the other modes there is no link.  The source of every
    link is the id of one of the posts. *)
Theorem buildGraphData_links (Math_log : float -> float)
    (topics : list Topic) (posts : list Post) (mode : Mode) (rnd : tape) :
  draws_needed topics posts mode <= length rnd ->
  exists g rnd',
    buildGraphData Math_log topics posts mode rnd = Ok (g, rnd') /\
    links g = match mode with
              | ModeAll => flat_map links_of_post posts
              | ModeTopics | ModePosts => []
              end /\
    Forall (fun l => exists post, In post posts /\ link_source l = post_id post) (links g).
Proof.
  intros Hlen.
  destruct (buildGraphData_ok Math_log topics posts mode rnd Hlen)
    as (tn & pn & Hrun & _).
  eexists _, _. split; [exact Hrun|]. simpl. split; [reflexivity|].
  destruct mode; try constructor.
  apply Forall_forall. intros l Hl. apply list_elem_of_In, in_flat_map in Hl.
  destruct Hl as (post & Hpost & Hl). exists post. split; [exact Hpost|].
  unfold links_of_post in Hl. apply in_map_iff in Hl. destruct Hl as (t & <- & _).
  reflexivity.
Qed.

Lemma buildGraphData_links_witness :
  exists g rnd',
    buildGraphData (fun x => x) [sample_topic] [sample_post] ModeAll seven_draws = Ok (g, rnd') /\
    links g = flat_map links_of_post [sample_post] /\
    Forall (fun l => exists post, In post [sample_post] /\ link_source l = post_id post) (links g).
Proof.
  apply (buildGraphData_links (fun x => x) [sample_topic] [sample_post] ModeAll seven_draws).
  vm_compute. lia.
Defined.

(** X4: a stored coordinate of a topic or a post is the coordinate of its
    node, also when it is 0; and when no coordinate is missing
    [buildGraphData] asks the random source for nothing. *)
Theorem buildGraphData_keeps_stored_positions (Math_log : float -> float)
    (topics : list Topic) (posts : list Post) (mode : Mode) (rnd : tape) :
  draws_needed topics posts mode <= length rnd ->
  exists g rnd',
    buildGraphData Math_log topics posts mode rnd = Ok (g, rnd') /\
    Forall node_at_stored_position (nodes g) /\
    (draws_needed topics posts mode = 0 -> rnd' = rnd).
Proof.
  intros Hlen.
  destruct (buildGraphData_ok Math_log topics posts mode rnd Hlen)
    as (tn & pn & Hrun & Htn & _ & Hpn).
  eexists _, _. split; [exact Hrun|]. simpl. split.
  - apply Forall_app. split.
    + eapply Forall2_topic_Forall; [|exact Htn].
      intros t n (Hd & _ & _ & _ & _ & Hx & Hy & Hz). unfold node_at_stored_position.
      rewrite Hd. auto.
    + eapply Forall2_post_Forall; [|exact Hpn].
      intros p n (Hd & _ & _ & _ & _ & _ & Hx & Hy & Hz). unfold node_at_stored_position.
      rewrite Hd. auto.
  - intros ->. apply drop_0.
Qed.

Lemma buildGraphData_keeps_stored_positions_witness :
  exists g rnd',
    buildGraphData (fun x => x) [sample_topic] [sample_post] ModeAll seven_draws = Ok (g, rnd') /\
    Forall node_at_stored_position (nodes g) /\
    (draws_needed [sample_topic] [sample_post] ModeAll = 0 -> rnd' = seven_draws).
Proof.
  apply (buildGraphData_keeps_stored_positions (fun x => x) [sample_topic] [sample_post]
           ModeAll seven_draws).
  vm_compute. lia.
Defined.

(** X5: [buildGraphData] asks the random source for exactly one value per
    missing coordinate of the records its mode uses: it returns, having used
    that many values, when the source has them, and it is still waiting for a
    value otherwise.  It never raises. *)
Theorem buildGraphData_draws (Math_log : float -> float)
    (topics : list Topic) (posts : list Post) (mode : Mode) (rnd : tape) :
  (draws_needed topics posts mode <= length rnd ->
   exists g, buildGraphData Math_log topics posts mode rnd
             = Ok (g, drop (draws_needed topics posts mode) rnd)) /\
  (length rnd < draws_needed topics posts mode ->
   buildGraphData Math_log topics posts mode rnd = Pending).
Proof.
  split.
  - intros Hlen.
    destruct (buildGraphData_ok Math_log topics posts mode rnd Hlen) as (tn & pn & Hrun & _).
    eexists. exact Hrun.
  - apply buildGraphData_pending.
Qed.

Lemma buildGraphData_draws_witness :
  (exists g, buildGraphData (fun x => x) [sample_topic] [sample_post] ModeAll seven_draws
             = Ok (g, drop 3 seven_draws)) /\
  buildGraphData (fun x => x) [sample_topic] [sample_post] ModeAll [0.5%float; 0.25%float] = Pending.
Proof.
  split.
  - apply (buildGraphData_draws (fun x => x) [sample_topic] [sample_post] ModeAll seven_draws).
    vm_compute. lia.
  - apply (buildGraphData_draws (fun x => x) [sample_topic] [sample_post] ModeAll
             [0.5%float; 0.25%float]).
    vm_compute. lia.
Defined.

(** *** The size of a node *)

Lemma ltb_leb (x y : float) : (x <? y)%float = true -> (x <=? y)%float = true.
Proof.
  rewrite FloatAxioms.ltb_spec, FloatAxioms.leb_spec. unfold SFltb, SFleb.
  destruct (SFcompare (Prim2SF x) (Prim2SF y)) as [[]|]; congruence.
Qed.

Lemma Math_max_one (x : float) :
  Math_max 1 x = nan \/ (1 <=? Math_max 1 x)%float = true.
Proof.
  unfold Math_max. change (PrimFloat.is_nan 1) with false. simpl orb.
  destruct (PrimFloat.is_nan x); [now left|]. right.
  destruct (1 <? x)%float eqn:Hlt; [now apply ltb_leb|].
  destruct (x <? 1)%float; reflexivity.
Qed.

(** X6: the size of a topic node is NaN or at least 1, whatever [Math.log]
    gives, and the size of a post node is 0.5. *)
Theorem buildGraphData_node_sizes (Math_log : float -> float)
    (topics : list Topic) (posts : list Post) (mode : Mode) (rnd : tape) :
  draws_needed topics posts mode <= length rnd ->
  exists g rnd',
    buildGraphData Math_log topics posts mode rnd = Ok (g, rnd') /\
    Forall (fun n =>
              match node_type n with
              | TopicNode => node_size n = nan \/ (1 <=? node_size n)%float = true
              | PostNode => node_size n = 0.5%float
              end) (nodes g).
Proof.
  intros Hlen.
  destruct (buildGraphData_ok Math_log topics posts mode rnd Hlen)
    as (tn & pn & Hrun & Htn & Hsizes & Hpn).
  eexists _, _. split; [exact Hrun|]. simpl.
  apply Forall_app. split.
  - clear Hrun Hpn. revert Hsizes.
    induction Htn as [|t n ts ns Hof _ IH]; intros Hsizes; [constructor|].
    inversion Hsizes as [|? ? ? ? Hsize Hrest]; subst. constructor; [|now apply IH].
    destruct Hof as (_ & _ & -> & _). rewrite Hsize. apply Math_max_one.
  - eapply Forall2_post_Forall; [|exact Hpn].
    intros p n (_ & _ & -> & _ & _ & Hsize & _). exact Hsize.
Qed.

Lemma buildGraphData_node_sizes_witness :
  exists g rnd',
    buildGraphData (fun x => x) [sample_topic] [sample_post] ModeAll seven_draws = Ok (g, rnd') /\
    Forall (fun n =>
              match node_type n with
              | TopicNode => node_size n = nan \/ (1 <=? node_size n)%float = true
              | PostNode => node_size n = 0.5%float
              end) (nodes g).
Proof.
  apply (buildGraphData_node_sizes (fun x => x) [sample_topic] [sample_post] ModeAll seven_draws).
  vm_compute. lia.
Defined.

(** *** The label of a post *)

(** X7: the label of a post is its title when the title is a non-empty
    string; otherwise it is the first 50 UTF-16 code units of the content
    (the whole content when it has no more) followed by three dots. *)
Theorem title_or_excerpt_label (title : option code_units) (content : code_units) :
  (forall t, title = Some t -> t <> [] -> title_or_excerpt title content = t) /\
  (title = None \/ title = Some [] ->
   exists excerpt,
     title_or_excerpt title content = excerpt ++ [46; 46; 46]%N /\
     excerpt `prefix_of` content /\
     length excerpt = Nat.min 50 (length content)).
Proof.
  split.
  - intros t -> Ht. simpl. destruct t; [contradiction | reflexivity].
  - intros Hnone. exists (take 50 content). split; [|split].
    + destruct Hnone as [-> | ->]; reflexivity.
    + apply prefix_take.
    + apply length_take.
Qed.

Lemma title_or_excerpt_label_witness :
  title_or_excerpt (Some (code_units_of "Hello")) [20320; 22909]%N = code_units_of "Hello" /\
  exists excerpt,
    title_or_excerpt (Some []) [20320; 22909; 55357; 56832]%N = excerpt ++ [46; 46; 46]%N /\
    excerpt `prefix_of` [20320; 22909; 55357; 56832]%N /\
    length excerpt = Nat.min 50 (length [20320; 22909; 55357; 56832]%N).
Proof.
  split.
  - apply (title_or_excerpt_label (Some (code_units_of "Hello")) [20320; 22909]%N);
      [reflexivity | discriminate].
  - apply (title_or_excerpt_label (Some []) [20320; 22909; 55357; 56832]%N). now right.
Defined.

(** ** extractTopics *)

(** X8: once the provider has answered, [extractTopics] raises nothing
    and its result is fixed by the text of the first choice of the answer
    (["{}"] for a null or empty one): it is the [topics] property of the
    object this text parses to, as it is, when that property is truthy; it is
    the empty list when the property is missing or falsy, when the text
    parses to anything but an object, when the text does not parse, and when
    the answer has no choice. *)
Theorem extractTopics_falls_back
    (JSON_parse : string -> option jsval)
    (create_completion : string -> result ChatCompletion)
    (content : string) (response : ChatCompletion) :
  create_completion content = Ok response ->
  extractTopics JSON_parse create_completion content =
  Ok match first_text response with
     | None => JArr []
     | Some text =>
         match JSON_parse text with
         | Some (JObj props) =>
             if truthy (field "topics" props) then field "topics" props else JArr []
         | Some _ | None => JArr []
         end
     end.
Proof.
  intros Hresp. unfold extractTopics. rewrite Hresp. simpl. f_equal.
  unfold topics_of_response, parse_topics, first_text.
  destruct (choices response) as [|c rest]; [reflexivity|].
  match goal with |- context [JSON_parse ?t] => destruct (JSON_parse t) as [parsed|] end;
    [|reflexivity].
  now destruct parsed.
Qed.

Lemma extractTopics_falls_back_witness :
  extractTopics sample_parse (fun _ => Ok {| choices := [Some one_topic] |}) "post"
  = Ok (JArr [JStr "ai"]) /\
  extractTopics sample_parse (fun _ => Ok {| choices := [Some "no json"%string] |}) "post"
  = Ok (JArr []) /\
  extractTopics sample_parse (fun _ => Ok {| choices := [None] |}) "post"
  = Ok (JArr []).
Proof.
  split; [|split].
  - apply (extractTopics_falls_back sample_parse _ "post" {| choices := [Some one_topic] |}).
    reflexivity.
  - apply (extractTopics_falls_back sample_parse _ "post"
             {| choices := [Some "no json"%string] |}).
    reflexivity.
  - apply (extractTopics_falls_back sample_parse _ "post" {| choices := [None] |}).
    reflexivity.
Defined.

(** ** generateClusterLabel and the provider *)

(** X9: [generateClusterLabel] raises exactly the errors of its call of
    the provider, and its result depends on the post contents only through
    the first ten of them. *)
Theorem generateClusterLabel_provider_call
    (JSON_parse : string -> option jsval)
    (create_completion : string -> result ChatCompletion) :
  (forall postContents e,
     generateClusterLabel JSON_parse create_completion postContents = Throw e <->
     create_completion (sample_posts postContents) = Throw e) /\
  (forall postContents,
     generateClusterLabel JSON_parse create_completion postContents
     = generateClusterLabel JSON_parse create_completion (take 10 postContents)) /\
  (forall postContents extra,
     10 <= length postContents ->
     generateClusterLabel JSON_parse create_completion (postContents ++ extra)
     = generateClusterLabel JSON_parse create_completion postContents).
Proof.
  assert (Hsample : forall l, sample_posts (take 10 l) = sample_posts l).
  { intros l. unfold sample_posts. now rewrite take_take, Nat.min_id. }
  split; [|split].
  - intros postContents e. unfold generateClusterLabel.
    destruct (create_completion (sample_posts postContents)); simpl;
      split; intros Heq; congruence.
  - intros postContents. unfold generateClusterLabel. now rewrite Hsample.
  - intros postContents extra Hlen. unfold generateClusterLabel, sample_posts.
    now rewrite take_app_le by lia.
Qed.





(** ** The order of binary64 numbers *)

Ltac fold_pos_compare :=
  repeat match goal with
         | |- context [Pos.compare_cont Eq ?a ?b] =>
             change (Pos.compare_cont Eq a b) with (Pos.compare a b)
         end.

Lemma SFcompare_flip (x y : spec_float) :
  SFcompare y x = option_map CompOpp (SFcompare x y).
Proof.
  destruct x as [sx|sx| |sx mx ex], y as [sy|sy| |sy my ey]; simpl;
    try reflexivity; try (destruct sx; reflexivity); try (destruct sy; reflexivity);
    try (destruct sx, sy; reflexivity).
  destruct sx, sy; simpl; try reflexivity.
  - fold_pos_compare. rewrite (Z.compare_antisym ex ey), (Pos.compare_antisym mx my).
    destruct (ex ?= ey)%Z; simpl; try reflexivity; now destruct (mx ?= my)%positive.
  - fold_pos_compare. rewrite (Z.compare_antisym ex ey), (Pos.compare_antisym mx my).
    destruct (ex ?= ey)%Z; simpl; try reflexivity; now destruct (mx ?= my)%positive.
Qed.

Lemma SFcompare_Lt_trans (x y z : spec_float) :
  SFcompare x y = Some Lt -> SFcompare y z = Some Lt -> SFcompare x z = Some Lt.
Proof.
  destruct x as [sx|sx| |sx mx ex], y as [sy|sy| |sy my ey], z as [sz|sz| |sz mz ez]; simpl;
    try discriminate; try reflexivity;
    try (destruct sx; try discriminate; try reflexivity);
    try (destruct sy; try discriminate; try reflexivity);
    try (destruct sz; try discriminate; try reflexivity).
  all: fold_pos_compare.
  all: destruct (Z.compare_spec ex ey), (Z.compare_spec ey ez), (Z.compare_spec ex ez);
    try discriminate; try reflexivity; try lia; subst.
  all: destruct (Pos.compare_spec mx my), (Pos.compare_spec my mz), (Pos.compare_spec mx mz);
    simpl; try discriminate; try reflexivity; try lia.
Qed.

Lemma SFcompare_refl (x : spec_float) : SFcompare x x = Some Eq \/ SFcompare x x = None.
Proof.
  destruct x as [s|s| |s m e]; simpl; auto.
  - destruct s; auto.
  - fold_pos_compare. rewrite Z.compare_refl, Pos.compare_refl. destruct s; auto.
Qed.

Lemma ltb_trans (x y z : float) :
  (x <? y)%float = true -> (y <? z)%float = true -> (x <? z)%float = true.
Proof.
  rewrite !FloatAxioms.ltb_spec. unfold SFltb.
  destruct (SFcompare (Prim2SF x) (Prim2SF y)) as [[]|] eqn:Hxy; try discriminate.
  destruct (SFcompare (Prim2SF y) (Prim2SF z)) as [[]|] eqn:Hyz; try discriminate.
  now rewrite (SFcompare_Lt_trans _ _ _ Hxy Hyz).
Qed.

Lemma ltb_irrefl (x : float) : (x <? x)%float = false.
Proof.
  rewrite FloatAxioms.ltb_spec. unfold SFltb.
  now destruct (SFcompare_refl (Prim2SF x)) as [-> | ->].
Qed.

(** A number not below infinity is infinity or NaN, and nothing that is not
    below infinity is below it. *)
Lemma not_below_infinity (x y : float) :
  (x <? infinity)%float = false -> (y <? infinity)%float = false -> (y <? x)%float = false.
Proof.
  rewrite !FloatAxioms.ltb_spec. unfold SFltb. change (Prim2SF infinity) with (S754_infinity false).
  destruct (Prim2SF x) as [sx|[|]| |sx mx ex], (Prim2SF y) as [sy|[|]| |sy my ey]; simpl;
    try discriminate; try reflexivity;
    try (destruct sx; discriminate); try (destruct sy; discriminate).
Qed.

Lemma SFcompare_Lt_below (a b c : spec_float) :
  SFcompare a b = Some Lt -> SFcompare c b <> Some Lt ->
  c = S754_nan \/ SFcompare a c = Some Lt.
Proof.
  destruct a as [sa|sa| |sa ma ea], b as [sb|sb| |sb mb eb], c as [sc|sc| |sc mc ec]; simpl;
    try discriminate; auto;
    try (destruct sa; try discriminate; auto);
    try (destruct sb; try discriminate; auto);
    try (destruct sc; try discriminate; auto);
    try (intros _ Hne; now contradiction Hne).
  all: fold_pos_compare.
  all: destruct (Z.compare_spec ea eb), (Z.compare_spec ec eb), (Z.compare_spec ea ec);
    try discriminate; auto; try lia; subst;
    try (intros _ Hne; now contradiction Hne).
  all: destruct (Pos.compare_spec ma mb), (Pos.compare_spec mc mb), (Pos.compare_spec ma mc);
    simpl; try discriminate; auto; try lia;
    try (intros _ Hne; now contradiction Hne).
Qed.

(** Below [b] and [c] not below [b]: [c] is NaN or above. *)
Lemma ltb_below (a b c : float) :
  (a <? b)%float = true -> (c <? b)%float = false -> c = nan \/ (a <? c)%float = true.
Proof.
  rewrite !FloatAxioms.ltb_spec. unfold SFltb. intros Hab Hcb.
  destruct (SFcompare (Prim2SF a) (Prim2SF b)) as [[]|] eqn:Hcmp; try discriminate.
  destruct (SFcompare_Lt_below _ _ (Prim2SF c) Hcmp) as [Hnan | ->].
  - destruct (SFcompare (Prim2SF c) (Prim2SF b)) as [[]|]; congruence.
  - left. now apply float_of_spec_nan.
  - now right.
Qed.

Lemma ltb_asym (x y : float) : (x <? y)%float = true -> (y <? x)%float = false.
Proof.
  intros Hxy. destruct (y <? x)%float eqn:Hyx; [|reflexivity].
  pose proof (ltb_trans _ _ _ Hxy Hyx) as Hxx. now rewrite ltb_irrefl in Hxx.
Qed.

(** ** The assignment pass picks a nearest centroid *)

Lemma scan_spec (emb : vec) (cents : list vec) :
  forall (i : nat) (m : float) (nearest : nat),
  (scan emb cents i (m, nearest) = (m, nearest) /\
   forall c, c ∈ cents -> (cosine_distance emb c <? m)%float = false) \/
  (exists j c,
     (scan emb cents i (m, nearest)).2 = i + j /\
     cents !! j = Some c /\
     (scan emb cents i (m, nearest)).1 = cosine_distance emb c /\
     (cosine_distance emb c <? m)%float = true /\
     (forall c', c' ∈ cents -> (cosine_distance emb c' <? cosine_distance emb c)%float = false) /\
     (forall j' c', j' < j -> cents !! j' = Some c' ->
        cosine_distance emb c' = nan \/
        (cosine_distance emb c <? cosine_distance emb c')%float = true)).
Proof.
  induction cents as [|c0 cents IH]; intros i m nearest.
  - left. split; [reflexivity|]. intros c Hc. inversion Hc.
  - unfold scan. simpl. fold (cosine_distance emb c0).
    destruct (cosine_distance emb c0 <? m)%float eqn:Hlt.
    + right.
      destruct (IH (S i) (cosine_distance emb c0) i) as [[Hsame Hnone] | (j & c & Hj & Hc & Hmin & Hbelow & Hall & Hfirst)];
        unfold scan in *.
      * exists 0, c0. rewrite Hsame. simpl. split_ands; try reflexivity; try assumption.
        -- lia.
        -- intros c' Hc'. apply elem_of_cons in Hc'. destruct Hc' as [-> | Hc'];
             [apply ltb_irrefl | now apply Hnone].
        -- intros j' c' Hj'. lia.
      * exists (S j), c. rewrite Hj, Hmin. simpl. split_ands; try reflexivity; try assumption.
        -- lia.
        -- now apply (ltb_trans _ (cosine_distance emb c0)).
        -- intros c' Hc'. apply elem_of_cons in Hc'. destruct Hc' as [-> | Hc'];
             [now apply ltb_asym | now apply Hall].
        -- intros [|j'] c' Hj' Hc'; simpl in Hc'.
           ++ injection Hc' as <-. now right.
           ++ apply (Hfirst j'); [lia | assumption].
    + destruct (IH (S i) m nearest) as [[Hsame Hnone] | (j & c & Hj & Hc & Hmin & Hbelow & Hall & Hfirst)];
        unfold scan in *.
      * left. split; [exact Hsame|].
        intros c' Hc'. apply elem_of_cons in Hc'. destruct Hc' as [-> | Hc'];
          [assumption | now apply Hnone].
      * right. exists (S j), c. rewrite Hj, Hmin. simpl.
        destruct (ltb_below _ _ _ Hbelow Hlt) as [Hnan | Habove].
        -- split_ands; try reflexivity; try assumption.
           ++ lia.
           ++ intros c' Hc'. apply elem_of_cons in Hc'. destruct Hc' as [-> | Hc'];
                [|now apply Hall].
              rewrite Hnan, FloatAxioms.ltb_spec. reflexivity.
           ++ intros [|j'] c' Hj' Hc'; simpl in Hc'.
              ** injection Hc' as <-. now left.
              ** apply (Hfirst j'); [lia | assumption].
        -- split_ands; try reflexivity; try assumption.
           ++ lia.
           ++ intros c' Hc'. apply elem_of_cons in Hc'. destruct Hc' as [-> | Hc'];
                [now apply ltb_asym | now apply Hall].
           ++ intros [|j'] c' Hj' Hc'; simpl in Hc'.
              ** injection Hc' as <-. now right.
              ** apply (Hfirst j'); [lia | assumption].
Qed.

(** X10: the centroid the assignment pass picks is a nearest one, and the
    first among the nearest: no centroid is at a smaller cosine distance from
    the vector, and every centroid before it is at a larger distance or at
    the distance NaN. *)
Theorem nearest_centroid_is_nearest (cents : list vec) (emb : vec) (cj : vec) :
  cents !! nearest_centroid cents emb = Some cj ->
  forall i c, cents !! i = Some c ->
    (cosine_distance emb c <? cosine_distance emb cj)%float = false /\
    (i < nearest_centroid cents emb ->
       cosine_distance emb c = nan \/
       (cosine_distance emb cj <? cosine_distance emb c)%float = true).
Proof.
  intros Hcj i c Hc.
  change (nearest_centroid cents emb) with (scan emb cents 0 (infinity, 0)).2 in *.
  destruct (scan_spec emb cents 0 infinity 0)
    as [[Hsame Hnone] | (j & c1 & Hj & Hc1 & _ & _ & Hall & Hfirst)].
  - rewrite Hsame in *. simpl in *. split; [|lia].
    apply not_below_infinity; apply Hnone; eapply list_elem_of_lookup_2; eassumption.
  - rewrite Hj in *. simpl in *. rewrite Hc1 in Hcj. injection Hcj as <-. split.
    + apply Hall. eapply list_elem_of_lookup_2; eassumption.
    + intros Hi. now apply (Hfirst i).
Qed.

Lemma nearest_centroid_is_nearest_witness :
  four_vectors !! nearest_centroid four_vectors [0.5; 0.5]%float = Some [0.75; 0.25]%float /\
  forall i c, four_vectors !! i = Some c ->
    (cosine_distance [0.5; 0.5]%float c <? cosine_distance [0.5; 0.5]%float [0.75; 0.25]%float)%float = false /\
    (i < nearest_centroid four_vectors [0.5; 0.5]%float ->
       cosine_distance [0.5; 0.5]%float c = nan \/
       (cosine_distance [0.5; 0.5]%float [0.75; 0.25]%float <? cosine_distance [0.5; 0.5]%float c)%float = true).
Proof.
  split; [vm_compute; reflexivity|].
  apply (nearest_centroid_is_nearest four_vectors [0.5; 0.5]%float [0.75; 0.25]%float).
  vm_compute. reflexivity.
Defined.

(** ** A vector of zeros goes to cluster 0 *)

Lemma nan_ltb (m : float) : (nan <? m)%float = false.
Proof. rewrite FloatAxioms.ltb_spec. reflexivity. Qed.

Lemma scan_all_nan (emb : vec) (cents : list vec) (i : nat) (s : float * nat) :
  Forall (fun c => cosineSimilarity emb c = nan) cents ->
  scan emb cents i s = s.
Proof.
  intros Hall. revert i s. induction Hall as [|c cents Hc _ IH]; intros i [m nearest].
  - reflexivity.
  - unfold scan in *. simpl. rewrite Hc.
    change (1 - nan)%float with nan. rewrite nan_ltb. apply IH.
Qed.

Lemma nearest_centroid_zeros (cents : list vec) (emb : vec) :
  Forall is_zero emb -> Forall (fun c => length c = length emb) cents ->
  nearest_centroid cents emb = 0.
Proof.
  intros Hzero Hlen.
  change (nearest_centroid cents emb) with (scan emb cents 0 (infinity, 0)).2.
  rewrite scan_all_nan; [reflexivity|].
  eapply Forall_impl; [exact Hlen|]. intros c Hc. simpl in Hc.
  apply cosineSimilarity_zero_vector; [now symmetry | now left].
Qed.

Lemma lookup_repeat {A : Type} (x : A) (n i : nat) : i < n -> repeat x n !! i = Some x.
Proof.
  revert i. induction n as [|n IH]; intros [|i] Hi; simpl; try lia; [reflexivity|].
  apply IH. lia.
Qed.

Lemma kMeans_loop_assignment (embeddings : list vec) (dim fuel : nat) :
  Forall (fun e => length e = dim) embeddings ->
  forall (cl : list nat) (ce : list vec),
  Forall (fun c => length c = dim) ce ->
  let cl' := (kMeans_loop embeddings dim fuel cl ce).1.2 in
  cl' = cl \/
  exists cents, Forall (fun c => length c = dim) cents /\ cl' = assign_clusters embeddings cents.
Proof.
  intros Hemb. induction fuel as [|fuel IH]; intros cl ce Hce; simpl.
  - now left.
  - destruct (assignment_changed (assign_clusters embeddings ce) cl).
    + specialize (IH (assign_clusters embeddings ce)
                     (update_centroids embeddings (assign_clusters embeddings ce) dim ce)).
      destruct (kMeans_loop embeddings dim fuel _ _) as [[trace cl'] ce']. simpl in *.
      destruct IH as [-> | Hex].
      * now apply update_centroids_dimension.
      * right. exists ce. split; [assumption | reflexivity].
      * right. exact Hex.
    + simpl. right. exists ce. split; [assumption | reflexivity].
Qed.

(** X11: on vectors of one non-zero dimension, a vector of zeros is
    assigned to cluster 0 in the result of [kMeansClustering]: its similarity
    to every centroid is NaN. *)
Theorem zero_vector_in_cluster_0 (embeddings : list vec) (k maxIterations : nat) (rnd : tape)
    (res : KMeans) (rnd' : tape) (i : nat) (emb : vec) :
  Forall (fun e => length e = dimension embeddings) embeddings ->
  kMeansClustering embeddings k maxIterations rnd = Ok (res, rnd') ->
  dimension embeddings <> 0 ->
  embeddings !! i = Some emb ->
  Forall is_zero emb ->
  clusters res !! i = Some 0.
Proof.
  intros Hdim Hrun Hne Hi Hzero.
  destruct (dimension_nonzero embeddings Hne) as [Hguard _].
  unfold kMeansClustering, kMeans_run in Hrun. rewrite Hguard in Hrun.
  destruct (init_centroids embeddings (Nat.min k (length embeddings)) [] [] rnd)
    as [[[centroids0 picks] rnd1]| |] eqn:Hinit; simpl in Hrun; try discriminate.
  pose proof (kMeans_loop_assignment embeddings (dimension embeddings) maxIterations Hdim
                (repeat 0 (length embeddings)) centroids0) as Hloop.
  destruct (kMeans_loop embeddings (dimension embeddings) maxIterations
              (repeat 0 (length embeddings)) centroids0) as [[trace cl'] ce'].
  simpl in *. injection Hrun as <- <-. simpl.
  destruct Hloop as [-> | (cents & Hcents & ->)].
  - eapply init_centroids_Forall; [exact Hdim | constructor | exact Hinit].
  - apply lookup_repeat. eapply lookup_lt_Some, Hi.
  - unfold assign_clusters. rewrite (lookup_map _ _ _ _ Hi). f_equal.
    apply nearest_centroid_zeros; [assumption|].
    eapply Forall_impl; [exact Hcents|]. intros c Hc. simpl in Hc.
    rewrite Hc. symmetry.
    eapply (proj1 (Forall_forall _ _) Hdim). eapply list_elem_of_lookup_2, Hi.
Qed.

Lemma zero_vector_in_cluster_0_witness :
  exists res rnd',
    kMeansClustering [[1; 0]; [0; 0]; [0; 1]]%float 2 default_maxIterations tape_with_repeat
      = Ok (res, rnd') /\
    clusters res !! 1 = Some 0.
Proof.
  eexists _, _. split; [vm_compute; reflexivity|].
  eapply (zero_vector_in_cluster_0 [[1; 0]; [0; 0]; [0; 1]]%float 2 default_maxIterations
            tape_with_repeat) with (emb := [0; 0]%float).
  - repeat constructor.
  - vm_compute. reflexivity.
  - simpl. lia.
  - reflexivity.
  - repeat constructor; now left.
Defined.

(** ** numClusters *)

(** X12: the number of clusters the ingestion asks for lies between 5 and
    50 and grows with the number of posts: it is 5 up to 100 posts, 50 from
    981 posts on, and between them the least number of groups of 20 that
    hold the posts. *)
Theorem numClusters_bounds :
  (forall n, 5 <= numClusters n <= 50) /\
  (forall n m, n <= m -> numClusters n <= numClusters m) /\
  (forall n, n <= 100 -> numClusters n = 5) /\
  (forall n, 981 <= n -> numClusters n = 50) /\
  (forall n, 100 <= n <= 1000 -> 20 * (numClusters n - 1) < n <= 20 * numClusters n).
Proof.
  unfold numClusters. split_ands.
  - intros n. lia.
  - intros n m Hle.
    assert ((n + 19) / 20 <= (m + 19) / 20) by (apply Nat.Div0.div_le_mono; lia). lia.
  - intros n Hn.
    assert ((n + 19) / 20 < 6) by (apply Nat.Div0.div_lt_upper_bound; lia). lia.
  - intros n Hn.
    assert (50 <= (n + 19) / 20) by (apply Nat.div_le_lower_bound; lia). lia.
  - intros n Hn.
    pose proof (Nat.div_mod_eq (n + 19) 20) as Hdiv.
    pose proof (Nat.mod_upper_bound (n + 19) 20 ltac:(lia)) as Hmod.
    assert (5 <= (n + 19) / 20) by (apply Nat.div_le_lower_bound; lia).
    assert ((n + 19) / 20 < 51) by (apply Nat.Div0.div_lt_upper_bound; lia).
    lia.
Qed.


(** ** fetchWithRetry *)

Lemma attempt_body_done (outcome : fetch_outcome) (attempt retries : nat) (r : Response) :
  attempt_body outcome attempt retries = Done r ->
  outcome = FetchResolved r /\
  (resp_ok r = true -> body_accepted r) /\
  (resp_ok r = false -> resp_status r < 500 \/ retries <= attempt).
Proof.
  unfold attempt_body, body_accepted. destruct outcome as [reason|response].
  - destruct (attempt <? retries)%nat; discriminate.
  - destruct (resp_ok response) eqn:Hok.
    + destruct (resp_json response) as [data|] eqn:Hjson;
        [|destruct (attempt <? retries)%nat; discriminate].
      destruct (get_property data "success") as [v| |] eqn:Hsuccess;
        try (destruct (attempt <? retries)%nat; discriminate).
      destruct v as [| | [|] | | | |];
        try (intros [= <-]; rewrite Hok; split; [reflexivity|];
             split; [intros _; eexists _, _; repeat split; eauto; discriminate | discriminate]).
      destruct (get_property data "error"); destruct (attempt <? retries)%nat; discriminate.
    + destruct (500 <=? resp_status response)%nat eqn:Hstatus; simpl.
      * destruct (Nat.ltb_spec attempt retries); [discriminate|].
        intros [= <-]. rewrite Hok. split; [reflexivity|]. split; [discriminate|]. now right.
      * intros [= <-]. rewrite Hok. split; [reflexivity|]. split; [discriminate|].
        left. now apply Nat.leb_gt in Hstatus.
Qed.

Lemma attempt_body_again (outcome : fetch_outcome) (attempt retries : nat) :
  attempt_body outcome attempt retries = Again -> attempt < retries.
Proof.
  unfold attempt_body. destruct outcome as [reason|response].
  - destruct (Nat.ltb_spec attempt retries); [trivial | discriminate].
  - destruct (resp_ok response).
    + destruct (resp_json response) as [data|];
        [|destruct (Nat.ltb_spec attempt retries); [trivial | discriminate]].
      destruct (get_property data "success") as [v| |];
        try (destruct (Nat.ltb_spec attempt retries); [trivial | discriminate]).
      destruct v as [| | [|] | | | |]; try discriminate.
      destruct (get_property data "error");
        destruct (Nat.ltb_spec attempt retries); trivial; discriminate.
    + destruct (500 <=? resp_status response)%nat; simpl; [|discriminate].
      destruct (Nat.ltb_spec attempt retries); [trivial | discriminate].
Qed.

Lemma attempt_body_fail (outcome : fetch_outcome) (attempt retries : nat) (e : fetch_error) :
  attempt_body outcome attempt retries = Rethrow e ->
  retries <= attempt /\ e <> MaxRetriesExceeded.
Proof.
  unfold attempt_body. destruct outcome as [reason|response].
  - destruct (Nat.ltb_spec attempt retries); [discriminate|].
    intros [= <-]. split; [assumption | discriminate].
  - destruct (resp_ok response).
    + destruct (resp_json response) as [data|].
      2:{ destruct (Nat.ltb_spec attempt retries); [discriminate|].
          intros [= <-]. split; [assumption | discriminate]. }
      destruct (get_property data "success") as [v| |].
      2,3: destruct (Nat.ltb_spec attempt retries); [discriminate|];
           intros [= <-]; split; [assumption | discriminate].
      destruct v as [| | [|] | | | |]; try discriminate.
      destruct (get_property data "error");
        (destruct (Nat.ltb_spec attempt retries); [discriminate|];
         intros [= <-]; split; [assumption | discriminate]).
    + destruct (500 <=? resp_status response)%nat; simpl; [|discriminate].
      destruct (attempt <? retries)%nat; discriminate.
Qed.

Section FetchFacts.
Variable world : Type.
Variable fetch : PageUrl -> string -> world -> fetch_outcome * world.

Lemma fetchWithRetry_from_spec (left : nat) :
  forall (attempt retries : nat) (url : PageUrl) (apiKey : string) (w : world)
         (seen : list fetch_outcome) (slept : list nat),
  attempt + left = retries + 1 ->
  exists got w' new,
    fetchWithRetry_from world fetch left attempt retries url apiKey w seen slept
      = (got, w', seen ++ new,
         slept ++ map (fun a => a * 2000) (seq attempt (length new - 1))) /\
    length new <= left /\
    (left = 0 -> got = Raised MaxRetriesExceeded /\ w' = w) /\
    (1 <= left -> 1 <= length new /\ got <> Raised MaxRetriesExceeded) /\
    (forall r, got = Returned r ->
       last new = Some (FetchResolved r) /\
       (exists w0, (fetch url apiKey w0).1 = FetchResolved r) /\
       (resp_ok r = true -> body_accepted r) /\
       (resp_ok r = false -> resp_status r < 500 \/ length new = left)) /\
    (forall e, got = Raised e -> length new = left).
Proof.
  induction left as [|left IH]; intros attempt retries url apiKey w seen slept Hleft; simpl.
  - exists (Raised MaxRetriesExceeded), w, []. rewrite !app_nil_r. simpl.
    split_ands; try reflexivity; try lia; try discriminate; auto.
  - destruct (fetch url apiKey w) as [outcome w1] eqn:Hfetch.
    destruct (attempt_body outcome attempt retries) as [r| |e] eqn:Hbody.
    + apply attempt_body_done in Hbody. destruct Hbody as (-> & Hok & Hnot).
      exists (Returned r), w1, [FetchResolved r]. simpl. rewrite app_nil_r.
      split_ands; try reflexivity; try lia; try discriminate.
      * intros _. split; [lia | discriminate].
      * intros r' [= <-]. split_ands.
        -- reflexivity.
        -- exists w. now rewrite Hfetch.
        -- exact Hok.
        -- intros Hfalse. destruct (Hnot Hfalse); [now left | right; lia].
    + apply attempt_body_again in Hbody.
      destruct (IH (S attempt) retries url apiKey w1 (seen ++ [outcome])
                  (slept ++ [attempt * 2000])) as (got & w' & new & Hrun & Hlen & H0 & H1 & Hret & Hraise);
        [lia|].
      exists got, w', (outcome :: new). rewrite Hrun, <- !app_assoc. simpl.
      assert (Hnew : 1 <= length new) by (apply H1; lia).
      split_ands.
      * f_equal. f_equal. destruct (length new) as [|m] eqn:Hm; [lia|]. simpl.
        now rewrite Nat.sub_0_r.
      * lia.
      * discriminate.
      * intros _. split; [lia|]. apply H1. lia.
      * intros r Hgot. destruct (Hret r Hgot) as (Hlast & Hfrom & Hok & Hnot).
        split_ands; try assumption.
        -- destruct new as [|o new]; [simpl in Hnew; lia | exact Hlast].
        -- intros Hfalse. destruct (Hnot Hfalse); [now left | right; lia].
      * intros e Hgot. rewrite (Hraise e Hgot). reflexivity.
    + apply attempt_body_fail in Hbody. destruct Hbody as (Hlast & Hne).
      exists (Raised e), w1, [outcome]. simpl. rewrite app_nil_r.
      split_ands; try reflexivity; try lia; try discriminate.
      intros _. split; [lia | congruence].
Qed.

Lemma fetchWithRetry_spec (url : PageUrl) (apiKey : string) (retries : nat) (w : world) :
  exists got w' seen,
    fetchWithRetry world fetch url apiKey retries w
      = (got, w', seen, map (fun a => a * 2000) (seq 1 (length seen - 1))) /\
    length seen <= retries /\
    (retries = 0 -> got = Raised MaxRetriesExceeded /\ w' = w) /\
    (1 <= retries -> 1 <= length seen /\ got <> Raised MaxRetriesExceeded) /\
    (forall r, got = Returned r ->
       last seen = Some (FetchResolved r) /\
       (exists w0, (fetch url apiKey w0).1 = FetchResolved r) /\
       (resp_ok r = true -> body_accepted r) /\
       (resp_ok r = false -> resp_status r < 500 \/ length seen = retries)) /\
    (forall e, got = Raised e -> length seen = retries).
Proof.
  unfold fetchWithRetry.
  destruct (fetchWithRetry_from_spec retries 1 retries url apiKey w [] []) as
    (got & w' & new & Hrun & Hrest); [lia|].
  exists got, w', new. split; [exact Hrun | exact Hrest].
Qed.

End FetchFacts.



(** X15: when the first answer is an ok response with an accepted body,
    or a response that is not ok with a status below 500, [fetchWithRetry]
    returns it after that one call, without waiting. *)
Theorem fetchWithRetry_no_retry (world : Type)
    (fetch : PageUrl -> string -> world -> fetch_outcome * world)
    (url : PageUrl) (apiKey : string) (retries : nat) (w : world) (r : Response) :
  1 <= retries ->
  (fetch url apiKey w).1 = FetchResolved r ->
  (resp_ok r = true /\ body_accepted r) \/ (resp_ok r = false /\ resp_status r < 500) ->
  fetchWithRetry world fetch url apiKey retries w
    = (Returned r, (fetch url apiKey w).2, [FetchResolved r], []).
Proof.
  intros Hretries Hfetch Hgood. unfold fetchWithRetry.
  destruct retries as [|retries]; [lia|]. simpl.
  destruct (fetch url apiKey w) as [outcome w1]. simpl in *. subst outcome.
  assert (Hbody : attempt_body (FetchResolved r) 1 (S retries) = Done r).
  { unfold attempt_body.
    destruct Hgood as [(-> & data & v & -> & -> & Hv) | (-> & Hstatus)].
    - destruct v as [| | [|] | | | |]; try reflexivity. contradiction.
    - apply Nat.leb_gt in Hstatus. now rewrite Hstatus. }
  now rewrite Hbody.
Qed.

Lemma fetchWithRetry_no_retry_witness :
  fetchWithRetry nat toy_fetch {| url_base := "u"; url_limit := 2; url_offset := 0 |} "key" 3 1
  = (Returned
       {| resp_ok := true; resp_status := 200;
          resp_json := Some (JObj [("posts"%string, JArr [toy_post "a"; toy_post "b"])]) |},
     2,
     [FetchResolved
        {| resp_ok := true; resp_status := 200;
           resp_json := Some (JObj [("posts"%string, JArr [toy_post "a"; toy_post "b"])]) |}],
     []).
Proof.
  apply (fetchWithRetry_no_retry nat toy_fetch
           {| url_base := "u"; url_limit := 2; url_offset := 0 |} "key" 3 1).
  - lia.
  - reflexivity.
  - left. split; [reflexivity|].
    eexists _, _. split; [reflexivity|]. split; [reflexivity | discriminate].
Defined.

(** ** fetchAllPosts *)

Lemma filter_new_length (existingIds posts newPosts : list jsval) :
  filter_new existingIds posts = Ok newPosts -> length newPosts <= length posts.
Proof.
  revert newPosts. induction posts as [|p posts IH]; intros newPosts; simpl.
  - intros [= <-]. simpl. lia.
  - destruct (get_property p "id") as [id| |]; simpl; try discriminate.
    destruct (filter_new existingIds posts) as [rest| |]; simpl; try discriminate.
    specialize (IH rest eq_refl).
    destruct (existsb (same_value_zero id) existingIds); intros [= <-]; simpl; lia.
Qed.

Lemma next_page_continue (got : fetched) (allPosts : list jsval) (offset : nat)
    (allPosts' : list jsval) (offset' : nat) :
  next_page got allPosts offset = Continue allPosts' offset' ->
  exists response data posts existingIds newPosts,
    got = Returned response /\
    resp_json response = Some data /\
    posts_of_body data = Ok (JArr posts) /\
    post_ids allPosts = Ok existingIds /\
    filter_new existingIds posts = Ok newPosts /\
    1 <= length newPosts <= length posts /\
    allPosts' = allPosts ++ newPosts /\
    offset' = offset + length posts.
Proof.
  unfold next_page. destruct got as [response|e]; [|discriminate].
  destruct (resp_ok response); simpl; [|discriminate].
  destruct (resp_json response) as [data|] eqn:Hjson; [|discriminate].
  destruct (posts_of_body data) as [[| | | | | posts |]| |] eqn:Hbody; try discriminate.
  destruct (length posts =? 0)%nat; [discriminate|].
  destruct (post_ids allPosts) as [existingIds| |] eqn:Hids; try discriminate.
  destruct (filter_new existingIds posts) as [newPosts| |] eqn:Hfilter; try discriminate.
  destruct (Nat.eqb_spec (length newPosts) 0) as [|Hne]; [discriminate|].
  intros [= <- <-]. exists response, data, posts, existingIds, newPosts.
  pose proof (filter_new_length _ _ _ Hfilter).
  repeat split; try reflexivity; try assumption; lia.
Qed.

Section FetchAllFacts.
Variable world : Type.
Variable fetch : PageUrl -> string -> world -> fetch_outcome * world.
Variables baseUrl apiKey : string.
Variable effectiveLimit : Z.

(** The loop ends: every pass that does not end it adds a post, and it runs
    only below the limit. *)
Lemma fetchAllPosts_loop_ends (fuel : nat) :
  forall (allPosts : list jsval) (offset : nat) (w : world) (requests : list PageUrl),
  Z.to_nat (effectiveLimit - Z.of_nat (length allPosts)) <= fuel ->
  exists posts w' new,
    fetchAllPosts_loop world fetch fuel baseUrl apiKey effectiveLimit allPosts offset w requests
      = Some (posts, w', requests ++ new) /\
    length new <= Z.to_nat (effectiveLimit - Z.of_nat (length allPosts)) /\
    (new = [] -> posts = allPosts /\ w' = w).
Proof.
  induction fuel as [|fuel IH]; intros allPosts offset w requests Hfuel; simpl.
  - destruct (Z.ltb_spec (Z.of_nat (length allPosts)) effectiveLimit) as [Hlt|Hge]; [lia|].
    simpl. exists allPosts, w, []. rewrite app_nil_r. simpl. split; [reflexivity|]. split; [lia|auto].
  - destruct (Z.ltb_spec (Z.of_nat (length allPosts)) effectiveLimit) as [Hlt|Hge]; simpl.
    2:{ exists allPosts, w, []. rewrite app_nil_r. simpl. split; [reflexivity|]. split; [lia|auto]. }
    destruct (offset <=? MAX_OFFSET)%nat.
    2:{ exists allPosts, w, []. rewrite app_nil_r. simpl. split; [reflexivity|]. split; [lia|auto]. }
    match goal with |- context [fetchWithRetry world fetch ?u _ _ _] => set (url := u) end.
    destruct (fetchWithRetry world fetch url apiKey MAX_RETRIES w) as [[[got w1] seen] slept].
    destruct (next_page got allPosts offset) as [|allPosts' offset'] eqn:Hnext.
    + exists allPosts, w1, [url]. split; [reflexivity|]. simpl. split; [lia | discriminate].
    + apply next_page_continue in Hnext.
      destruct Hnext as (r & data & posts & ids & newPosts & _ & _ & _ & _ & _ & Hlen & -> & ->).
      destruct (IH (allPosts ++ newPosts) (offset + length posts) w1 (requests ++ [url]))
        as (res & w' & new & Hrun & Hnew & _).
      { rewrite length_app. lia. }
      exists res, w', (url :: new). rewrite Hrun, <- app_assoc. split; [reflexivity|].
      rewrite length_app in Hnew. simpl. split; [lia | discriminate].
Qed.


(** With a server that honours the limit, the posts collected stay within the
    limit. *)
Lemma fetchAllPosts_loop_cap (fuel : nat) :
  honours_limit world fetch ->
  forall (allPosts : list jsval) (offset : nat) (w : world) (requests : list PageUrl)
         (posts : list jsval) (w' : world) (requests' : list PageUrl),
  fetchAllPosts_loop world fetch fuel baseUrl apiKey effectiveLimit allPosts offset w requests
    = Some (posts, w', requests') ->
  (Z.of_nat (length allPosts) <= Z.max 0 effectiveLimit)%Z ->
  (Z.of_nat (length posts) <= Z.max 0 effectiveLimit)%Z.
Proof.
  intros Hserver.
  induction fuel as [|fuel IH]; intros allPosts offset w requests posts w' requests'; simpl.
  - destruct ((Z.of_nat (length allPosts) <? effectiveLimit)%Z && (offset <=? MAX_OFFSET)%nat)%bool;
      [discriminate|]. now intros [= <- <- <-].
  - destruct (Z.ltb_spec (Z.of_nat (length allPosts)) effectiveLimit) as [Hlt|Hge]; simpl;
      [|now intros [= <- <- <-]].
    destruct (offset <=? MAX_OFFSET)%nat; [|now intros [= <- <- <-]].
    match goal with |- context [fetchWithRetry world fetch ?u _ _ _] => set (url := u) end.
    destruct (fetchWithRetry_spec world fetch url apiKey MAX_RETRIES w)
      as (got & w1 & seen & Hretry & _ & _ & _ & Hret & _).
    rewrite Hretry.
    destruct (next_page got allPosts offset) as [|allPosts' offset'] eqn:Hnext.
    + now intros [= <- <- <-].
    + apply next_page_continue in Hnext.
      destruct Hnext as (r & data & page & ids & newPosts & -> & Hjson & Hbody & _ & _ & Hlen & -> & ->).
      destruct (Hret r eq_refl) as (_ & (w0 & Hfrom) & _).
      assert (Hpage : (Z.of_nat (length page) <= url_limit url)%Z).
      { apply (Hserver url apiKey w0 r data page); try assumption.
        unfold url, MOLTBOOK_PAGE_SIZE. simpl. lia. }
      intros Hrun _. eapply IH; [exact Hrun|].
      rewrite length_app. unfold url in Hpage. simpl in Hpage. lia.
Qed.

End FetchAllFacts.

(** *** Distinct ids *)

Lemma post_ids_app (a b : list jsval) (ia ib : list jsval) :
  post_ids a = Ok ia -> post_ids b = Ok ib -> post_ids (a ++ b) = Ok (ia ++ ib).
Proof.
  revert ia. induction a as [|p a IH]; intros ia; simpl.
  - now intros [= <-].
  - destruct (get_property p "id") as [id| |]; simpl; try discriminate.
    destruct (post_ids a) as [ids| |]; simpl; try discriminate.
    intros [= <-] Hb. now rewrite (IH ids eq_refl Hb).
Qed.

Lemma has_string (id : string) (existing : list string) :
  existsb (same_value_zero (JStr id)) (map JStr existing) = existsb (String.eqb id) existing.
Proof. induction existing as [|x existing IH]; simpl; [reflexivity | now rewrite IH]. Qed.

Lemma filter_new_strings (existing ids : list string) (posts : list jsval) :
  post_ids posts = Ok (map JStr ids) ->
  exists newPosts,
    filter_new (map JStr existing) posts = Ok newPosts /\
    post_ids newPosts
      = Ok (map JStr (List.filter (fun id => negb (existsb (String.eqb id) existing)) ids)).
Proof.
  revert ids. induction posts as [|p posts IH]; intros ids; simpl.
  - destruct ids; [|discriminate]. intros _. exists []. split; reflexivity.
  - destruct (get_property p "id") as [id| |] eqn:Hid; simpl; try discriminate.
    destruct (post_ids posts) as [rest| |] eqn:Hrest; simpl; try discriminate.
    destruct ids as [|id0 ids]; [discriminate|]. simpl. intros [= -> ->].
    destruct (IH ids eq_refl) as (newPosts & Hnew & Hids).
    rewrite Hnew. simpl. rewrite has_string.
    destruct (existsb (String.eqb id0) existing); simpl.
    + exists newPosts. split; [reflexivity | exact Hids].
    + exists (p :: newPosts). split; [reflexivity|]. simpl. now rewrite Hid, Hids.
Qed.

Lemma map_JStr_inj (a b : list string) : map JStr a = map JStr b -> a = b.
Proof.
  revert b. induction a as [|x a IH]; intros [|y b]; simpl; try discriminate; [reflexivity|].
  intros [= -> Hrest]. now rewrite (IH b Hrest).
Qed.

Lemma distinct_ids_extend (allPosts page newPosts existingIds : list jsval) :
  distinct_ids allPosts -> distinct_ids page ->
  post_ids allPosts = Ok existingIds ->
  filter_new existingIds page = Ok newPosts ->
  distinct_ids (allPosts ++ newPosts).
Proof.
  intros (existing & Hall & Hnodup) (ids & Hpage & Hnodup') Hids Hfilter.
  rewrite Hall in Hids. injection Hids as <-.
  destruct (filter_new_strings existing ids page Hpage) as (new' & Hnew & Hnewids).
  rewrite Hfilter in Hnew. injection Hnew as <-.
  exists (existing ++ List.filter (fun id => negb (existsb (String.eqb id) existing)) ids).
  split.
  - rewrite map_app. now apply post_ids_app.
  - apply NoDup_app. split; [assumption|]. split.
    + intros x Hx Hin. apply list_elem_of_In, filter_In in Hin. destruct Hin as (_ & Hnot).
      apply negb_true_iff in Hnot.
      assert (Hex : existsb (String.eqb x) existing = true).
      { apply existsb_exists. exists x. split; [now apply list_elem_of_In | apply String.eqb_refl]. }
      congruence.
    + apply NoDup_ListNoDup, List.NoDup_filter, NoDup_ListNoDup, Hnodup'.
Qed.

Section DistinctFacts.
Variable world : Type.
Variable fetch : PageUrl -> string -> world -> fetch_outcome * world.
Variables baseUrl apiKey : string.
Variable effectiveLimit : Z.

Lemma fetchAllPosts_loop_distinct (fuel : nat) :
  serves_distinct_ids world fetch ->
  forall (allPosts : list jsval) (offset : nat) (w : world) (requests : list PageUrl)
         (posts : list jsval) (w' : world) (requests' : list PageUrl),
  fetchAllPosts_loop world fetch fuel baseUrl apiKey effectiveLimit allPosts offset w requests
    = Some (posts, w', requests') ->
  distinct_ids allPosts -> distinct_ids posts.
Proof.
  intros Hserver.
  induction fuel as [|fuel IH]; intros allPosts offset w requests posts w' requests'; simpl.
  - destruct ((Z.of_nat (length allPosts) <? effectiveLimit)%Z && (offset <=? MAX_OFFSET)%nat)%bool;
      [discriminate|]. now intros [= <- <- <-].
  - destruct ((Z.of_nat (length allPosts) <? effectiveLimit)%Z && (offset <=? MAX_OFFSET)%nat)%bool;
      [|now intros [= <- <- <-]].
    match goal with |- context [fetchWithRetry world fetch ?u _ _ _] => set (url := u) end.
    destruct (fetchWithRetry_spec world fetch url apiKey MAX_RETRIES w)
      as (got & w1 & seen & Hretry & _ & _ & _ & Hret & _).
    rewrite Hretry.
    destruct (next_page got allPosts offset) as [|allPosts' offset'] eqn:Hnext.
    + now intros [= <- <- <-].
    + apply next_page_continue in Hnext.
      destruct Hnext as (r & data & page & ids & newPosts & -> & Hjson & Hbody & Hids & Hfilter & _ & -> & ->).
      destruct (Hret r eq_refl) as (_ & (w0 & Hfrom) & _).
      intros Hrun Hall. eapply IH; [exact Hrun|].
      apply (distinct_ids_extend allPosts page newPosts ids); try assumption.
      exact (Hserver url apiKey w0 r data page Hfrom Hjson Hbody).
Qed.

End DistinctFacts.


Lemma effective_limit_bound (totalLimit : Z) :
  Z.to_nat (effective_limit totalLimit) <= MAX_OFFSET + MOLTBOOK_PAGE_SIZE /\
  (effective_limit totalLimit <= totalLimit)%Z.
Proof. unfold effective_limit, MAX_OFFSET, MOLTBOOK_PAGE_SIZE. lia. Qed.

Section FetchAllPosts.
Variable world : Type.
Variable fetch : PageUrl -> string -> world -> fetch_outcome * world.

Lemma fetchAllPosts_ends (fuel : nat) (baseUrl apiKey : string) (totalLimit : Z) (w : world) :
  MAX_OFFSET + MOLTBOOK_PAGE_SIZE <= fuel ->
  exists posts w' requests,
    fetchAllPosts world fetch fuel baseUrl apiKey totalLimit w = Some (posts, w', requests) /\
    length requests <= Z.to_nat (effective_limit totalLimit) /\
    (requests = [] -> posts = [] /\ w' = w).
Proof.
  intros Hfuel. unfold fetchAllPosts.
  destruct (fetchAllPosts_loop_ends world fetch baseUrl apiKey (effective_limit totalLimit)
              fuel [] 0 w []) as (posts & w' & new & Hrun & Hlen & Hnone).
  { pose proof (effective_limit_bound totalLimit). simpl. lia. }
  exists posts, w', new. simpl in *. rewrite Z.sub_0_r in Hlen. auto.
Qed.

End FetchAllPosts.





(** *** The server of the examples *)

Lemma post_ids_toy (ids : list string) : post_ids (map toy_post ids) = Ok (map JStr ids).
Proof. induction ids as [|id ids IH]; simpl; [reflexivity | now rewrite IH]. Qed.

Lemma toy_fetch_page (url : PageUrl) (apiKey : string) (calls : nat)
    (response : Response) (data posts : jsval) :
  (toy_fetch url apiKey calls).1 = FetchResolved response ->
  resp_json response = Some data ->
  posts_of_body data = Ok posts ->
  posts = JArr (map toy_post (take (Z.to_nat (url_limit url)) ["a"; "b"; "c"]%string)).
Proof.
  unfold toy_fetch. simpl. destruct (calls =? 0)%nat; [discriminate|].
  intros [= <-]. simpl. intros [= <-]. now intros [= <-].
Qed.

Lemma toy_honours_limit : honours_limit nat toy_fetch.
Proof.
  intros url apiKey w response data posts Hlimit Hfetch Hjson Hbody.
  apply (toy_fetch_page _ _ _ _ _ _ Hfetch Hjson) in Hbody. injection Hbody as ->.
  rewrite length_map, length_take. simpl. lia.
Qed.

Lemma toy_serves_distinct_ids : serves_distinct_ids nat toy_fetch.
Proof.
  intros url apiKey w response data posts Hfetch Hjson Hbody.
  apply (toy_fetch_page _ _ _ _ _ _ Hfetch Hjson) in Hbody. injection Hbody as ->.
  eexists. split; [apply post_ids_toy|].
  apply NoDup_ListNoDup.
  destruct (Z.to_nat (url_limit url)) as [|[|[|n]]]; simpl; rewrite ?take_nil;
    repeat (first [apply List.NoDup_nil | apply List.NoDup_cons]); simpl; intuition congruence.
Qed.

(** X18: when the server answers a request with at most as many posts as
    the request asks for, [fetchAllPosts] returns at most [totalLimit] posts,
    and at most 900. *)
Theorem fetchAllPosts_within_limit (world : Type)
    (fetch : PageUrl -> string -> world -> fetch_outcome * world)
    (fuel : nat) (baseUrl apiKey : string) (totalLimit : Z) (w : world) :
  honours_limit world fetch ->
  MAX_OFFSET + MOLTBOOK_PAGE_SIZE <= fuel ->
  exists posts w' requests,
    fetchAllPosts world fetch fuel baseUrl apiKey totalLimit w = Some (posts, w', requests) /\
    (Z.of_nat (length posts) <= Z.max 0 totalLimit)%Z /\
    length posts <= MAX_OFFSET + MOLTBOOK_PAGE_SIZE.
Proof.
  intros Hserver Hfuel.
  destruct (fetchAllPosts_ends world fetch fuel baseUrl apiKey totalLimit w Hfuel)
    as (posts & w' & requests & Hrun & _).
  exists posts, w', requests. split; [exact Hrun|].
  unfold fetchAllPosts in Hrun.
  apply (fetchAllPosts_loop_cap _ _ _ _ _ _ Hserver) in Hrun; [|simpl; lia].
  pose proof (effective_limit_bound totalLimit). lia.
Qed.

Lemma fetchAllPosts_within_limit_witness :
  exists posts w' requests,
    fetchAllPosts nat toy_fetch 900 "https://example.org/posts" "key" 2 0 = Some (posts, w', requests) /\
    (Z.of_nat (length posts) <= Z.max 0 2)%Z /\
    length posts <= MAX_OFFSET + MOLTBOOK_PAGE_SIZE.
Proof.
  apply (fetchAllPosts_within_limit nat toy_fetch 900 "https://example.org/posts" "key" 2 0).
  - exact toy_honours_limit.
  - vm_compute. lia.
Defined.

(** X19: when every page the server answers with has strings for ids, no
    two of them the same, the posts [fetchAllPosts] returns have pairwise
    distinct ids. *)
Theorem fetchAllPosts_distinct_ids (world : Type)
    (fetch : PageUrl -> string -> world -> fetch_outcome * world)
    (fuel : nat) (baseUrl apiKey : string) (totalLimit : Z) (w : world) :
  serves_distinct_ids world fetch ->
  MAX_OFFSET + MOLTBOOK_PAGE_SIZE <= fuel ->
  exists posts w' requests,
    fetchAllPosts world fetch fuel baseUrl apiKey totalLimit w = Some (posts, w', requests) /\
    distinct_ids posts.
Proof.
  intros Hserver Hfuel.
  destruct (fetchAllPosts_ends world fetch fuel baseUrl apiKey totalLimit w Hfuel)
    as (posts & w' & requests & Hrun & _).
  exists posts, w', requests. split; [exact Hrun|].
  unfold fetchAllPosts in Hrun.
  apply (fetchAllPosts_loop_distinct _ _ _ _ _ _ Hserver) in Hrun; [exact Hrun|].
  exists []. split; [reflexivity | constructor].
Qed.

Lemma fetchAllPosts_distinct_ids_witness :
  exists posts w' requests,
    fetchAllPosts nat toy_fetch 900 "https://example.org/posts" "key" 5 0 = Some (posts, w', requests) /\
    distinct_ids posts.
Proof.
  apply (fetchAllPosts_distinct_ids nat toy_fetch 900 "https://example.org/posts" "key" 5 0).
  - exact toy_serves_distinct_ids.
  - vm_compute. lia.
Defined.



(** ** Saving the posts *)

Section SavingFacts.
Variable world : Type.
Variable template : jsval -> jsval -> string.
Variable generateEmbeddings : list jsval -> world -> option (list vec) * world.
Variable upsert : jsval -> world -> option string * world.
Variable store_embedding : string -> vec -> world -> bool * world.
Variable update_progress : nat -> nat -> world -> bool * world.

Lemma consistent_saved (st : Progress) (embedding : vec) (id : string) :
  consistent st -> consistent (saved st embedding id).
Proof. intros [H1 H2]. unfold consistent. simpl. rewrite !length_app. simpl. lia. Qed.

Lemma consistent_add_errors (count : nat) (st : Progress) :
  consistent st -> consistent (add_errors count st).
Proof. intros H. exact H. Qed.

Lemma save_posts_counts (batch : list jsval) (embeddings : list vec) :
  forall (j : nat) (st : Progress) (w : world),
  consistent st ->
  let st' := (save_posts world upsert store_embedding batch embeddings j st w).1 in
  consistent st' /\
  processed st' + errors st' = processed st + errors st + length batch /\
  processed st <= processed st' /\
  errors st <= errors st'.
Proof.
  induction batch as [|post batch IH]; intros j st w Hst; simpl.
  - split_ands; [assumption | lia | lia | lia].
  - destruct (upsert post w) as [[id|] w1].
    + destruct (embeddings !! j) as [embedding|].
      * destruct (store_embedding id embedding w1) as [[|] w2].
        -- destruct (IH (S j) (saved st embedding id) w2 (consistent_saved _ _ _ Hst))
             as (Hc & Hsum & Hle & Hle'). simpl in *. split_ands; [assumption | lia | lia | lia].
        -- destruct (IH (S j) (add_errors 1 st) w2 Hst) as (Hc & Hsum & Hle & Hle').
           simpl in *. split_ands; [assumption | lia | lia | lia].
      * destruct (IH (S j) (add_errors 1 st) w1 Hst) as (Hc & Hsum & Hle & Hle').
        simpl in *. split_ands; [assumption | lia | lia | lia].
    + destruct (IH (S j) (add_errors 1 st) w1 Hst) as (Hc & Hsum & Hle & Hle').
      simpl in *. split_ands; [assumption | lia | lia | lia].
Qed.

Lemma process_batch_counts (batch : list jsval) (st : Progress) (w : world) :
  consistent st ->
  let st' := (process_batch world template generateEmbeddings upsert store_embedding
       update_progress batch st w).1 in
  consistent st' /\
  processed st <= processed st' /\
  processed st' - processed st <= length batch /\
  processed st + errors st + length batch <= processed st' + errors st' /\
  ((forall p e w0, (update_progress p e w0).1 = true) ->
   processed st' + errors st' = processed st + errors st + length batch).
Proof.
  intros Hst. unfold process_batch.
  destruct (map_result (text_of_post template) batch) as [texts| |]; simpl;
    try (split_ands; [assumption | lia | lia | lia | intros _; lia]).
  destruct (generateEmbeddings texts w) as [[embeddings|] w1]; simpl;
    try (split_ands; [assumption | lia | lia | lia | intros _; lia]).
  pose proof (save_posts_counts batch embeddings 0 st w1 Hst) as (Hc & Hsum & Hle & Hle').
  destruct (save_posts world upsert store_embedding batch embeddings 0 st w1) as [st' w2]. simpl in *.
  destruct (update_progress (processed st') (errors st') w2) as [[|] w3] eqn:Hupdate; simpl.
  - split_ands; [assumption | lia | lia | lia | intros _; lia].
  - split_ands; [assumption | lia | lia | lia |].
    intros Hgood. specialize (Hgood (processed st') (errors st') w2).
    rewrite Hupdate in Hgood. discriminate.
Qed.

Lemma process_from_counts (fuel : nat) :
  forall (i : nat) (posts : list jsval) (st : Progress) (w : world),
  length posts - i <= fuel ->
  consistent st ->
  exists st' w',
    process_from world template generateEmbeddings upsert store_embedding update_progress
      fuel i posts st w = Some (st', w') /\
    consistent st' /\
    processed st <= processed st' /\
    processed st' - processed st <= length posts - i /\
    processed st + errors st + (length posts - i) <= processed st' + errors st' /\
    ((forall p e w0, (update_progress p e w0).1 = true) ->
     processed st' + errors st' = processed st + errors st + (length posts - i)).
Proof.
  induction fuel as [|fuel IH]; intros i posts st w Hfuel Hst; simpl.
  - destruct (Nat.ltb_spec i (length posts)) as [Hlt|Hge]; [lia|].
    exists st, w. split_ands; [reflexivity | assumption | lia | lia | lia | intros _; lia].
  - destruct (Nat.ltb_spec i (length posts)) as [Hlt|Hge].
    2:{ exists st, w. split_ands; [reflexivity | assumption | lia | lia | lia | intros _; lia]. }
    pose proof (process_batch_counts (take BATCH_SIZE (drop i posts)) st w Hst)
      as (Hc & Hle & Hdiff & Hsum & Hexact).
    destruct (process_batch world template generateEmbeddings upsert store_embedding
       update_progress (take BATCH_SIZE (drop i posts)) st w) as [st1 w1]. simpl in *.
    assert (Hbatch : length (take BATCH_SIZE (drop i posts)) = Nat.min BATCH_SIZE (length posts - i))
      by (now rewrite length_take, length_drop).
    unfold BATCH_SIZE in *.
    destruct (IH (i + 100) posts st1 w1) as (st' & w' & Hrun & Hc' & Hle' & Hdiff' & Hsum' & Hexact');
      [lia | assumption |].
    exists st', w'. split_ands; [exact Hrun | assumption | lia | lia | lia |].
    intros Hgood. specialize (Hexact Hgood). specialize (Hexact' Hgood). lia.
Qed.

End SavingFacts.

(** X20: step 2 of [ingestDataFast] ends, and when it ends the posts
    saved, their ids and their embeddings are as many as [processed]; every
    post is counted as processed or as an error, so that
    [processed + errors] is at least the number of posts, and exactly that
    number when no update of the job fails. *)
Theorem process_batches_counts (world : Type) (template : jsval -> jsval -> string)
    (generateEmbeddings : list jsval -> world -> option (list vec) * world)
    (upsert : jsval -> world -> option string * world)
    (store_embedding : string -> vec -> world -> bool * world)
    (update_progress : nat -> nat -> world -> bool * world)
    (fuel : nat) (posts : list jsval) (w : world) :
  length posts <= fuel ->
  exists st w',
    process_from world template generateEmbeddings upsert store_embedding update_progress
      fuel 0 posts no_progress w = Some (st, w') /\
    length (allEmbeddings st) = processed st /\
    length (allPostIds st) = processed st /\
    processed st <= length posts <= processed st + errors st /\
    ((forall p e w0, (update_progress p e w0).1 = true) ->
     processed st + errors st = length posts).
Proof.
  intros Hfuel.
  destruct (process_from_counts world template generateEmbeddings upsert store_embedding
              update_progress fuel 0 posts no_progress w)
    as (st & w' & Hrun & [Hc1 Hc2] & Hle & Hdiff & Hsum & Hexact).
  { lia. }
  { split; reflexivity. }
  simpl in *. exists st, w'. split_ands; try assumption; try lia.
  intros Hgood. specialize (Hexact Hgood). lia.
Qed.


(** ** Grouping the posts by cluster *)

Lemma map_has_get (key : nat) (m : PostsMap) :
  map_has key m = match map_get key m with Some _ => true | None => false end.
Proof.
  induction m as [|[k g] m IH]; simpl; [reflexivity|].
  destruct (k =? key)%nat; simpl; [reflexivity | exact IH].
Qed.

Lemma map_get_keys (key : nat) (m : PostsMap) :
  map_get key m = None <-> key ∉ map fst m.
Proof.
  induction m as [|[k g] m IH]; simpl.
  - split; [intros _ H; inversion H | reflexivity].
  - rewrite not_elem_of_cons. destruct (Nat.eqb_spec k key) as [->|Hne].
    + split; [discriminate | intros [H _]; contradiction].
    + rewrite IH. split; [intros H; split; [congruence | exact H] | intros [_ H]; exact H].
Qed.

Lemma map_get_app_new (key c : nat) (m : PostsMap) :
  map_get key m = None ->
  map_get c (m ++ [(key, [])]) = if (key =? c)%nat then
                                    match map_get c m with Some g => Some g | None => Some [] end
                                  else map_get c m.
Proof.
  intros Hnone. induction m as [|[k g] m IH]; simpl in *.
  - destruct (key =? c)%nat; reflexivity.
  - destruct (Nat.eqb_spec k key) as [->|Hne]; [discriminate|].
    destruct (Nat.eqb_spec k c) as [->|Hne'].
    + destruct (key =? c)%nat; reflexivity.
    + apply IH, Hnone.
Qed.

Lemma map_get_push (key c : nat) (x : option string) (m : PostsMap) :
  map_get c (map_push key x m) =
  if (key =? c)%nat then option_map (fun g => g ++ [x]) (map_get c m) else map_get c m.
Proof.
  induction m as [|[k g] m IH]; simpl.
  - destruct (key =? c)%nat; reflexivity.
  - destruct (Nat.eqb_spec k key) as [->|Hne]; simpl.
    + destruct (Nat.eqb_spec key c) as [->|Hne']; reflexivity.
    + destruct (Nat.eqb_spec k c) as [->|Hne']; simpl.
      * destruct (Nat.eqb_spec key c) as [->|]; [contradiction | reflexivity].
      * exact IH.
Qed.

Lemma map_push_keys (key : nat) (x : option string) (m : PostsMap) :
  map fst (map_push key x m) = map fst m.
Proof.
  induction m as [|[k g] m IH]; simpl; [reflexivity|].
  destruct (k =? key)%nat; simpl; [reflexivity | now rewrite IH].
Qed.

Lemma map_push_size (key : nat) (x : option string) (m : PostsMap) :
  map_has key m = true -> map_size (map_push key x m) = S (map_size m).
Proof.
  unfold map_size. induction m as [|[k g] m IH]; simpl; [discriminate|].
  destruct (k =? key)%nat; simpl.
  - intros _. rewrite length_app. simpl. lia.
  - intros Hhas. rewrite (IH Hhas). lia.
Qed.

Lemma map_size_app (m m' : PostsMap) : map_size (m ++ m') = map_size m + map_size m'.
Proof. unfold map_size. now rewrite map_app, list_sum_app. Qed.

Lemma group_post_spec (allPostIds : list string) (m : PostsMap) (clusterIdx postIdx : nat) :
  NoDup (map fst m) ->
  let m' := group_post allPostIds m clusterIdx postIdx in
  NoDup (map fst m') /\
  map_size m' = S (map_size m) /\
  (forall c, map_get c m' =
     if (clusterIdx =? c)%nat
     then Some (default [] (map_get c m) ++ [allPostIds !! postIdx])
     else map_get c m).
Proof.
  intros Hnodup. unfold group_post. rewrite map_has_get.
  destruct (map_get clusterIdx m) as [g|] eqn:Hget.
  - split_ands.
    + now rewrite map_push_keys.
    + apply map_push_size. now rewrite map_has_get, Hget.
    + intros c. rewrite map_get_push.
      destruct (Nat.eqb_spec clusterIdx c) as [<-|]; [|reflexivity]. now rewrite Hget.
  - split_ands.
    + rewrite map_push_keys, map_app. simpl. apply NoDup_app. split_ands; [assumption | | ].
      * intros x Hx Hin. apply list_elem_of_singleton in Hin. subst x.
        now apply map_get_keys in Hget.
      * apply NoDup_singleton.
    + rewrite map_push_size, map_size_app; [unfold map_size; simpl; lia|].
      rewrite map_has_get, (map_get_app_new _ _ _ Hget), Nat.eqb_refl, Hget. reflexivity.
    + intros c. rewrite map_get_push, (map_get_app_new _ _ _ Hget).
      destruct (Nat.eqb_spec clusterIdx c) as [<-|]; [|reflexivity]. now rewrite Hget.
Qed.

Lemma forEach_group_spec (allPostIds : list string) (clusters : list nat) :
  forall (postIdx : nat) (m : PostsMap),
  NoDup (map fst m) ->
  let m' := forEach (group_post allPostIds) clusters postIdx m in
  NoDup (map fst m') /\
  map_size m' = map_size m + length clusters /\
  (forall c, map_get c m' =
     match map_get c m, members c clusters allPostIds postIdx with
     | None, [] => None
     | g, ms => Some (default [] g ++ ms)
     end).
Proof.
  induction clusters as [|clusterIdx clusters IH]; intros postIdx m Hnodup; simpl.
  - split_ands; [assumption | lia |].
    intros c. destruct (map_get c m) as [g|]; [now rewrite app_nil_r | reflexivity].
  - destruct (group_post_spec allPostIds m clusterIdx postIdx Hnodup) as (Hnodup1 & Hsize1 & Hget1).
    destruct (IH (S postIdx) (group_post allPostIds m clusterIdx postIdx) Hnodup1)
      as (Hnodup' & Hsize' & Hget').
    split_ands; [assumption | lia |].
    intros c. rewrite Hget', Hget1.
    destruct (Nat.eqb_spec clusterIdx c) as [->|Hne]; [|reflexivity].
    simpl. destruct (map_get c m) as [g|]; simpl.
    + now rewrite <- app_assoc.
    + reflexivity.
Qed.

Lemma members_nil (c : nat) (clusters : list nat) (allPostIds : list string) (postIdx : nat) :
  members c clusters allPostIds postIdx = [] <-> c ∉ clusters.
Proof.
  revert postIdx. induction clusters as [|x clusters IH]; intros postIdx; simpl.
  - split; [intros _ H; inversion H | reflexivity].
  - rewrite not_elem_of_cons. destruct (Nat.eqb_spec x c) as [->|Hne].
    + split; [discriminate | intros [H _]; contradiction].
    + rewrite IH. split; [intros H; split; [congruence | exact H] | intros [_ H]; exact H].
Qed.

Lemma members_defined (c : nat) (clusters : list nat) (allPostIds : list string) (postIdx : nat) :
  postIdx + length clusters <= length allPostIds ->
  Forall is_Some (members c clusters allPostIds postIdx).
Proof.
  revert postIdx. induction clusters as [|x clusters IH]; intros postIdx Hlen; simpl in *.
  - constructor.
  - destruct (x =? c)%nat; [constructor|]; try (apply IH; lia).
    apply lookup_lt_is_Some. lia.
Qed.

Lemma map_get_elem_of (c : nat) (g : list (option string)) (m : PostsMap) :
  NoDup (map fst m) -> (c, g) ∈ m -> map_get c m = Some g.
Proof.
  induction m as [|[k g'] m IH]; simpl; intros Hnodup Hin.
  - inversion Hin.
  - apply NoDup_cons in Hnodup. destruct Hnodup as [Hk Hnodup].
    apply elem_of_cons in Hin. destruct Hin as [[= <- <-] | Hin].
    + now rewrite Nat.eqb_refl.
    + destruct (Nat.eqb_spec k c) as [->|Hne]; [|now apply IH].
      contradiction Hk. apply list_elem_of_fmap. exists (c, g). split; [reflexivity | assumption].
Qed.

(** X21: the map from clusters to post ids has one entry per cluster
    that some post is assigned to, and no other; the group of a cluster is
    not empty and holds the ids of the posts assigned to it, in the order of
    the posts; the sizes of the groups add up to the number of posts; and
    when there is an id for every post no group holds an undefined id. *)
Theorem clusterPostsMap_partitions (clusters : list nat) (allPostIds : list string) :
  let m := clusterPostsMap clusters allPostIds in
  NoDup (map fst m) /\
  (forall c g, (c, g) ∈ m ->
     c ∈ clusters /\ g <> [] /\ g = members c clusters allPostIds 0) /\
  (forall c, c ∈ clusters -> map_get c m = Some (members c clusters allPostIds 0)) /\
  list_sum (map (fun entry => length entry.2) m) = length clusters /\
  (length clusters <= length allPostIds ->
   forall c g, (c, g) ∈ m -> Forall is_Some g).
Proof.
  destruct (forEach_group_spec allPostIds clusters 0 [] (NoDup_nil_2)) as (Hnodup & Hsize & Hget).
  fold (clusterPostsMap clusters allPostIds) in *. simpl in *.
  assert (Hentry : forall c g, (c, g) ∈ clusterPostsMap clusters allPostIds ->
            c ∈ clusters /\ g <> [] /\ g = members c clusters allPostIds 0).
  { intros c g Hin. apply (map_get_elem_of _ _ _ Hnodup) in Hin. rewrite Hget in Hin.
    destruct (members c clusters allPostIds 0) as [|x ms] eqn:Hms; [discriminate|].
    injection Hin as <-. split_ands; [|discriminate | reflexivity].
    destruct (decide (c ∈ clusters)) as [|Hnot]; [assumption|].
    apply (members_nil c clusters allPostIds 0) in Hnot. congruence. }
  split_ands; [assumption | exact Hentry | | exact Hsize |].
  - intros c Hc. rewrite Hget.
    destruct (members c clusters allPostIds 0) eqn:Hms; [|reflexivity].
    apply members_nil in Hms. contradiction.
  - intros Hlen c g Hin. destruct (Hentry c g Hin) as (_ & _ & ->).
    now apply members_defined.
Qed.

(** X22: the coordinate stored for a topic is never NaN: it is the
    coordinate of the centroid position when that is a number other than
    zero, and 0 when the position is missing, when its coordinate is NaN and
    when its coordinate is a zero of either sign. *)
Theorem topic_coordinate_is_a_number (centroidPositions : list Point3) (clusterIdx : nat)
    (axis : Point3 -> float) :
  topic_coordinate centroidPositions clusterIdx axis <> nan /\
  (forall position,
     centroidPositions !! clusterIdx = Some position ->
     PrimFloat.is_nan (axis position) = false -> (axis position =? 0)%float = false ->
     topic_coordinate centroidPositions clusterIdx axis = axis position) /\
  (centroidPositions !! clusterIdx = None ->
   topic_coordinate centroidPositions clusterIdx axis = 0%float) /\
  (forall position,
     centroidPositions !! clusterIdx = Some position ->
     PrimFloat.is_nan (axis position) = true ->
     topic_coordinate centroidPositions clusterIdx axis = 0%float) /\
  (forall position,
     centroidPositions !! clusterIdx = Some position ->
     (axis position =? 0)%float = true ->
     topic_coordinate centroidPositions clusterIdx axis = 0%float).
Proof.
  unfold topic_coordinate. split; [|split; [|split; [|split]]].
  - destruct (centroidPositions !! clusterIdx) as [position|].
    + simpl. unfold PrimFloat.is_nan.
      destruct (axis position =? 0)%float; simpl.
      * intros Heq. apply (f_equal (fun x => (x =? x)%float)) in Heq. vm_compute in Heq. discriminate.
      * destruct (axis position =? axis position)%float eqn:Hself; simpl.
        -- intros Heq. rewrite Heq in Hself. vm_compute in Hself. discriminate.
        -- intros Heq. apply (f_equal (fun x => (x =? x)%float)) in Heq. vm_compute in Heq. discriminate.
    + intros Heq. apply (f_equal (fun x => (x =? x)%float)) in Heq. vm_compute in Heq. discriminate.
  - intros position -> Hnan Hzero. simpl. unfold PrimFloat.is_nan in Hnan.
    apply negb_false_iff in Hnan. now rewrite Hzero, Hnan.
  - now intros ->.
  - intros position -> Hnan. simpl. unfold PrimFloat.is_nan in Hnan.
    apply negb_true_iff in Hnan. rewrite Hnan. simpl. now rewrite orb_true_r.
  - intros position -> Hzero. simpl. now rewrite Hzero.
Qed.

(** ** The clustering step of the ingestion route *)

Lemma init_centroids_length (embeddings : list vec) (count : nat) :
  forall (used : list nat) (cents : list vec) (rnd : tape)
         (cents' : list vec) (used' : list nat) (rnd' : tape),
  init_centroids embeddings count used cents rnd = Ok (cents', used', rnd') ->
  length cents' = length cents + count.
Proof.
  induction count as [|count IH]; intros used cents rnd cents' used' rnd'; simpl.
  - intros [= <- <- <-]. lia.
  - destruct (draw_fresh (length embeddings) used rnd) as [[idx rnd1]| |]; simpl; try discriminate.
    destruct (embeddings !! idx) as [e|]; [|discriminate].
    intros Hrun. apply IH in Hrun. rewrite length_app in Hrun. simpl in Hrun. lia.
Qed.

Lemma kMeansClustering_shape (embeddings : list vec) (k maxIterations : nat) (rnd : tape)
    (res : KMeans) (rnd' : tape) :
  1 <= k ->
  kMeansClustering embeddings k maxIterations rnd = Ok (res, rnd') ->
  Forall (fun c => c < length (centroids res)) (clusters res) /\
  (dimension embeddings <> 0 ->
   length (clusters res) = length embeddings /\
   length (centroids res) = Nat.min k (length embeddings)).
Proof.
  intros Hk. unfold kMeansClustering, kMeans_run.
  destruct ((length embeddings =? 0)%nat || (dimension embeddings =? 0)%nat)%bool eqn:Hguard.
  - simpl. intros [= <- <-]. simpl. split; [constructor|].
    intros Hdim. destruct (dimension_nonzero embeddings Hdim) as [Hg _]. congruence.
  - destruct (init_centroids embeddings (Nat.min k (length embeddings)) [] [] rnd)
      as [[[centroids0 picks] rnd1]| |] eqn:Hinit; simpl; try discriminate.
    apply init_centroids_length in Hinit. simpl in Hinit.
    apply orb_false_iff in Hguard. destruct Hguard as [Hn _]. apply Nat.eqb_neq in Hn.
    pose proof (kMeans_loop_spec embeddings (dimension embeddings) (length centroids0)
                  maxIterations (repeat 0 (length embeddings)) centroids0) as Hloop.
    destruct (kMeans_loop embeddings (dimension embeddings) maxIterations
                (repeat 0 (length embeddings)) centroids0) as [[trace cl'] ce'].
    intros [= <- <-]. simpl.
    destruct Hloop as (Hce & Hcl & Hlt & _).
    + lia.
    + lia.
    + apply repeat_length.
    + apply Forall_forall. intros c Hc. apply list_elem_of_In, repeat_spec in Hc. lia.
    + rewrite Hce. split; [exact Hlt|]. intros _. split; [exact Hcl | lia].
Qed.

Lemma embedTo3D_run_length (embeddings : list vec) (rnd : tape)
    (basis : option Basis) (out : list Point3) (rnd' : tape) :
  embedTo3D_run embeddings rnd = Ok (basis, out, rnd') -> length out = length embeddings.
Proof.
  destruct embeddings as [|e0 rest].
  - simpl. now intros [= <- <- <-].
  - rewrite embedTo3D_run_eq. destruct (3 * length e0 <=? length rnd)%nat; [|discriminate].
    intros [= <- <- <-]. simpl. now rewrite length_map.
Qed.

(** X23: when the clustering step of the ingestion returns, there is one
    position per post and one centroid position per centroid, and every
    cluster index assigned to a post has its centroid and its centroid
    position; past the guard for vectors of no dimension there is one cluster
    index per post and [min (numClusters n) n] centroids. *)
Theorem layout_indices_defined (allEmbeddings : list vec) (rnd : tape)
    (layout : Layout) (rnd' : tape) :
  cluster_and_place allEmbeddings rnd = Ok (layout, rnd') ->
  length (positions layout) = length allEmbeddings /\
  length (centroidPositions layout) = length (layout_centroids layout) /\
  Forall (fun clusterIdx => is_Some (centroidPositions layout !! clusterIdx) /\
                            is_Some (layout_centroids layout !! clusterIdx))
         (layout_clusters layout) /\
  (dimension allEmbeddings <> 0 ->
   length (layout_clusters layout) = length allEmbeddings /\
   length (layout_centroids layout)
     = Nat.min (numClusters (length allEmbeddings)) (length allEmbeddings)).
Proof.
  unfold cluster_and_place.
  destruct (kMeansClustering allEmbeddings (numClusters (length allEmbeddings))
              default_maxIterations rnd) as [[km rnd1]| |] eqn:Hkm; simpl; try discriminate.
  destruct (embedTo3D_run allEmbeddings rnd1) as [[[basis1 positions1] rnd2]| |] eqn:Hitems;
    simpl; try discriminate.
  destruct (embedTo3D_run (centroids km) rnd2) as [[[basis2 positions2] rnd3]| |] eqn:Hcents;
    simpl; try discriminate.
  intros [= <- <-]. simpl.
  apply embedTo3D_run_length in Hitems, Hcents.
  apply kMeansClustering_shape in Hkm; [|unfold numClusters; lia].
  destruct Hkm as [Hlt Hshape].
  split_ands; try assumption.
  eapply Forall_impl; [exact Hlt|]. intros c Hc. simpl in Hc.
  split; apply lookup_lt_is_Some; lia.
Qed.

Lemma layout_indices_defined_witness :
  exists layout rnd',
    cluster_and_place four_vectors long_tape = Ok (layout, rnd') /\
    length (positions layout) = length four_vectors /\
    length (centroidPositions layout) = length (layout_centroids layout) /\
    Forall (fun clusterIdx => is_Some (centroidPositions layout !! clusterIdx) /\
                              is_Some (layout_centroids layout !! clusterIdx))
           (layout_clusters layout) /\
    (dimension four_vectors <> 0 ->
     length (layout_clusters layout) = length four_vectors /\
     length (layout_centroids layout)
       = Nat.min (numClusters (length four_vectors)) (length four_vectors)).
Proof.
  eexists _, _. split; [vm_compute; reflexivity|].
  eapply (layout_indices_defined four_vectors long_tape).
  vm_compute. reflexivity.
Defined.

Lemma process_batches_counts_witness :
  exists st w',
    process_from nat (fun _ _ => "text"%string)
      (fun texts w => (Some (map (fun _ => [1%float]) texts), S w))
      (fun _ w => (if (w =? 1)%nat then None else Some "id"%string, S w))
      (fun _ _ w => (true, S w))
      (fun _ _ w => (true, S w))
      2 0 [toy_post "a"; toy_post "b"] no_progress 0 = Some (st, w') /\
    length (allEmbeddings st) = processed st /\
    length (allPostIds st) = processed st /\
    processed st <= length [toy_post "a"; toy_post "b"] <= processed st + errors st /\
    ((forall p e w0, ((fun (_ _ : nat) (w : nat) => (true, S w)) p e w0).1 = true) ->
     processed st + errors st = length [toy_post "a"; toy_post "b"]).
Proof.
  apply (process_batches_counts nat (fun _ _ => "text"%string)
           (fun texts w => (Some (map (fun _ => [1%float]) texts), S w))
           (fun _ w => (if (w =? 1)%nat then None else Some "id"%string, S w))
           (fun _ _ w => (true, S w))
           (fun _ _ w => (true, S w))
           2 [toy_post "a"; toy_post "b"] 0).
  simpl. lia.
Defined.

(** ** The scene *)

Lemma topic_nodes_filter (topics : list Topic) (tn : list GraphNode) :
  Forall2 topic_node_of topics tn ->
  List.filter is_topic_node tn = tn /\ List.filter is_post_node tn = [].
Proof.
  induction 1 as [|t n ts ns Hof _ [IH1 IH2]]; simpl; [split; reflexivity|].
  destruct Hof as (_ & _ & Hty & _). unfold is_topic_node, is_post_node. rewrite Hty.
  fold is_topic_node is_post_node. now rewrite IH1, IH2.
Qed.

Lemma post_nodes_filter (id : string) (posts : list Post) (pn : list GraphNode) :
  Forall2 post_node_of posts pn ->
  List.filter is_topic_node pn = [] /\ List.filter is_post_node pn = pn /\
  map node_data (List.filter (carries_topic id) pn) = map inr (List.filter (lists_topic id) posts).
Proof.
  induction 1 as [|p n ps ns Hof _ (IH1 & IH2 & IH3)]; simpl; [split_ands; reflexivity|].
  destruct Hof as (Hdata & _ & Hty & _). unfold is_topic_node, is_post_node. rewrite Hty.
  fold is_topic_node is_post_node. rewrite IH1, IH2. split_ands; try reflexivity.
  unfold carries_topic at 1. rewrite Hdata. fold (lists_topic id p).
  destruct (lists_topic id p); simpl; now rewrite ?Hdata, IH3.
Qed.

Lemma segment_coordinates_length (posts : list GraphNode) (topicNode : GraphNode) :
  length (segment_coordinates posts topicNode) = 6 * length posts.
Proof.
  unfold segment_coordinates. induction posts as [|p posts IH]; simpl; [reflexivity|].
  rewrite IH. lia.
Qed.

(** X24: for the graph built from one topic and its posts in the mode
    "all", the scene with that topic selected has the topic as its only topic
    node and shows the nodes of exactly the posts that list the topic, in
    order; with no topic selected it shows no post; and the connection lines
    take six numbers per post shown. *)
Theorem scene_after_topic_selected (Math_log : float -> float)
    (topic : Topic) (posts : list Post) (rnd : tape) (g : GraphData) (rnd' : tape) :
  buildGraphData Math_log [topic] posts ModeAll rnd = Ok (g, rnd') ->
  topic_id topic <> ""%string ->
  map node_data (topicNodes g) = [inl topic] /\
  map node_data (visiblePosts g (Some (topic_id topic)))
    = map inr (List.filter (lists_topic (topic_id topic)) posts) /\
  visiblePosts g None = [] /\
  forall topicNode,
    length (segment_coordinates (visiblePosts g (Some (topic_id topic))) topicNode)
    = 6 * length (List.filter (lists_topic (topic_id topic)) posts).
Proof.
  intros Hrun Hid.
  destruct (Nat.le_gt_cases (draws_needed [topic] posts ModeAll) (length rnd)) as [Hle|Hgt].
  2:{ rewrite (buildGraphData_pending Math_log _ _ _ _ Hgt) in Hrun. discriminate. }
  destruct (buildGraphData_ok Math_log [topic] posts ModeAll rnd Hle)
    as (tn & pn & Hok & Htn & _ & Hpn).
  rewrite Hok in Hrun. injection Hrun as <- <-. simpl in Htn, Hpn.
  destruct (topic_nodes_filter _ _ Htn) as [Ht1 Ht2].
  destruct (post_nodes_filter (topic_id topic) _ _ Hpn) as (Hp1 & Hp2 & Hp3).
  assert (Hvisible : map node_data (visiblePosts {| nodes := tn ++ pn;
                                                     links := flat_map links_of_post posts |}
                                      (Some (topic_id topic)))
                     = map inr (List.filter (lists_topic (topic_id topic)) posts)).
  { unfold visiblePosts, postNodes. simpl. apply String.eqb_neq in Hid. rewrite Hid.
    now rewrite List.filter_app, Ht2, Hp2. }
  split_ands.
  - unfold topicNodes. simpl. rewrite List.filter_app, Ht1, Hp1, app_nil_r.
    rewrite (Forall2_topic_data _ _ Htn). reflexivity.
  - exact Hvisible.
  - reflexivity.
  - intros topicNode. rewrite segment_coordinates_length.
    apply (f_equal (@length _)) in Hvisible. rewrite !length_map in Hvisible. lia.
Qed.

Lemma scene_after_topic_selected_witness :
  exists g rnd',
    buildGraphData (fun x => x) [sample_topic] [sample_post] ModeAll seven_draws = Ok (g, rnd') /\
    map node_data (topicNodes g) = [inl sample_topic] /\
    map node_data (visiblePosts g (Some (topic_id sample_topic)))
      = map inr (List.filter (lists_topic (topic_id sample_topic)) [sample_post]) /\
    visiblePosts g None = [] /\
    forall topicNode,
      length (segment_coordinates (visiblePosts g (Some (topic_id sample_topic))) topicNode)
      = 6 * length (List.filter (lists_topic (topic_id sample_topic)) [sample_post]).
Proof.
  eexists _, _. split; [vm_compute; reflexivity|].
  eapply (scene_after_topic_selected (fun x => x) sample_topic [sample_post] seven_draws).
  - vm_compute. reflexivity.
  - discriminate.
Defined.

(** ** The topics an ingestion creates *)

Lemma clusterPostsMap_keys (clusters : list nat) (allPostIds : list string) :
  NoDup (map fst (clusterPostsMap clusters allPostIds)) /\
  forall c, c ∈ map fst (clusterPostsMap clusters allPostIds) -> c ∈ clusters.
Proof.
  destruct (forEach_group_spec allPostIds clusters 0 [] (NoDup_nil_2)) as (Hnodup & _ & Hget).
  fold (clusterPostsMap clusters allPostIds) in *. split; [exact Hnodup|].
  intros c Hc. destruct (decide (c ∈ clusters)) as [|Hnot]; [assumption|].
  apply (members_nil c clusters allPostIds 0) in Hnot.
  specialize (Hget c). simpl in Hget. rewrite Hnot in Hget.
  apply map_get_keys in Hget. contradiction.
Qed.

Lemma distinct_below_length (keys : list nat) (k : nat) :
  NoDup keys -> Forall (fun c => c < k) keys -> length keys <= k.
Proof.
  intros Hnodup Hlt. transitivity (length (seq 0 k)); [|now rewrite length_seq].
  apply submseteq_length, NoDup_submseteq; [assumption|].
  intros c Hc. apply elem_of_seq. rewrite Forall_forall in Hlt. specialize (Hlt c Hc). lia.
Qed.

Lemma kMeansClustering_centroids_bound (embeddings : list vec) (k maxIterations : nat)
    (rnd : tape) (res : KMeans) (rnd' : tape) :
  kMeansClustering embeddings k maxIterations rnd = Ok (res, rnd') ->
  length (centroids res) <= Nat.min k (length embeddings).
Proof.
  unfold kMeansClustering, kMeans_run.
  destruct ((length embeddings =? 0)%nat || (dimension embeddings =? 0)%nat)%bool.
  - simpl. intros [= <- <-]. simpl. lia.
  - destruct (init_centroids embeddings (Nat.min k (length embeddings)) [] [] rnd)
      as [[[centroids0 picks] rnd1]| |] eqn:Hinit; simpl; try discriminate.
    apply init_centroids_length in Hinit. simpl in Hinit.
    pose proof (kMeans_loop_spec embeddings (dimension embeddings) (S (length centroids0))
                  maxIterations (repeat 0 (length embeddings)) centroids0) as Hloop.
    destruct (kMeans_loop embeddings (dimension embeddings) maxIterations
                (repeat 0 (length embeddings)) centroids0) as [[trace cl'] ce'].
    intros [= <- <-]. simpl.
    destruct Hloop as (Hce & _); try lia.
    + apply repeat_length.
    + apply Forall_forall. intros c Hc. apply list_elem_of_In, repeat_spec in Hc. lia.
Qed.

(** X25: an ingestion run creates at most [min (numClusters n) n] topics,
    and so at most 50; the cluster index of each of them has a centroid, a
    centroid position and a colour. *)
Theorem topics_created_bound (allEmbeddings : list vec) (rnd : tape)
    (layout : Layout) (rnd' : tape) (allPostIds : list string) :
  cluster_and_place allEmbeddings rnd = Ok (layout, rnd') ->
  let m := clusterPostsMap (layout_clusters layout) allPostIds in
  length m <= Nat.min (numClusters (length allEmbeddings)) (length allEmbeddings) /\
  length m <= 50 /\
  Forall (fun entry =>
            is_Some (layout_centroids layout !! entry.1) /\
            is_Some (centroidPositions layout !! entry.1) /\
            is_Some (getTopicColor (Z.of_nat entry.1))) m.
Proof.
  intros Hrun m.
  assert (Hbound : length (layout_centroids layout)
                   <= Nat.min (numClusters (length allEmbeddings)) (length allEmbeddings) /\
                   length (centroidPositions layout) = length (layout_centroids layout) /\
                   Forall (fun c => c < length (layout_centroids layout)) (layout_clusters layout)).
  { unfold cluster_and_place in Hrun.
    destruct (kMeansClustering allEmbeddings (numClusters (length allEmbeddings))
                default_maxIterations rnd) as [[km rnd1]| |] eqn:Hkm; simpl in Hrun; try discriminate.
    destruct (embedTo3D_run allEmbeddings rnd1) as [[[basis1 positions1] rnd2]| |];
      simpl in Hrun; try discriminate.
    destruct (embedTo3D_run (centroids km) rnd2) as [[[basis2 positions2] rnd3]| |] eqn:Hcents;
      simpl in Hrun; try discriminate.
    injection Hrun as <- <-. simpl.
    apply embedTo3D_run_length in Hcents.
    pose proof (kMeansClustering_centroids_bound _ _ _ _ _ _ Hkm) as Hle.
    apply kMeansClustering_shape in Hkm; [|unfold numClusters; lia].
    destruct Hkm as [Hlt _]. auto. }
  destruct Hbound as (Hle & Hpos & Hlt).
  destruct (clusterPostsMap_keys (layout_clusters layout) allPostIds) as [Hnodup Hin].
  fold m in Hnodup, Hin.
  assert (Hkeys : Forall (fun c => c < length (layout_centroids layout)) (map fst m)).
  { apply Forall_forall. intros c Hc. rewrite Forall_forall in Hlt. apply Hlt, Hin, Hc. }
  assert (Hlen : length m <= length (layout_centroids layout)).
  { rewrite <- (length_map fst m). now apply distinct_below_length. }
  split; [lia|]. split; [unfold numClusters in *; lia|].
  apply Forall_forall. intros entry Hentry.
  assert (Hkey : entry.1 < length (layout_centroids layout)).
  { rewrite Forall_forall in Hkeys. apply Hkeys, list_elem_of_fmap. now exists entry. }
  split; [apply lookup_lt_is_Some; lia|]. split; [apply lookup_lt_is_Some; lia|].
  rewrite getTopicColor_rem by lia.
  apply lookup_lt_is_Some. simpl.
  pose proof (Z.mod_pos_bound (Z.of_nat entry.1) 10 eq_refl). lia.
Qed.

Lemma topics_created_bound_witness :
  exists layout rnd',
    cluster_and_place four_vectors long_tape = Ok (layout, rnd') /\
    let m := clusterPostsMap (layout_clusters layout) ["p1"; "p2"; "p3"; "p4"]%string in
    length m <= Nat.min (numClusters (length four_vectors)) (length four_vectors) /\
    length m <= 50 /\
    Forall (fun entry =>
              is_Some (layout_centroids layout !! entry.1) /\
              is_Some (centroidPositions layout !! entry.1) /\
              is_Some (getTopicColor (Z.of_nat entry.1))) m.
Proof.
  eexists _, _. split; [vm_compute; reflexivity|].
  eapply (topics_created_bound four_vectors long_tape).
  vm_compute. reflexivity.
Defined.

(** ** The offsets fetchAllPosts requests *)




